(** * qbtui: the curses front end of the qBittorrent tracker tool

    A shallow embedding of [src/qbtui.py] (class [QBittorrentTUI]) and the
    properties of its rendering, navigation, aggregation and URL code.

    - [Py]: the Python values the program works on (text as code points,
      slices, [splitlines], [rstrip], [str(int)], binary64 floats).
    - [Curses]: the terminal and the Web API as an explicit world that every
      method threads; the calls made on the window are recorded in order.
    - [QBittorrentTUI]: the methods, named as in the source.
    - the properties, one section per component. *)

From Stdlib Require Import ZArith List Lia Bool.
From Stdlib Require Import Strings.String Strings.Ascii DecimalString.
From Corelib Require Import SpecFloat.
From stdpp Require Import gmap list sorting.

Local Open Scope Z_scope.

(* ================================================================== *)
(** * Python values *)
(* ================================================================== *)

Module Py.

(** A Python [str] is a sequence of Unicode code points. *)
Definition pystr : Type := list N.

(** A literal of the source, written as a Rocq string (ASCII only). *)
Definition lit (s : string) : pystr :=
  List.map N_of_ascii (list_ascii_of_string s).

Definition nl : N := 10%N.        (* "\n" *)
Definition slash : N := 47%N.     (* "/" *)

(** [len(x)] *)
Definition len {A} (l : list A) : Z := Z.of_nat (length l).

(** The position a slice bound [k] denotes in a sequence of [n] items:
    negative bounds count from the end, and every bound is clamped. *)
Definition slice_index (n k : Z) : nat :=
  Z.to_nat (if k <? 0 then Z.max 0 (n + k) else Z.min n k).

(** [l[:k]], [l[k:]] and [l[i:j]] *)
Definition slice_to {A} (l : list A) (k : Z) : list A :=
  take (slice_index (len l) k) l.

Definition slice_from {A} (l : list A) (k : Z) : list A :=
  drop (slice_index (len l) k) l.

Definition slice {A} (l : list A) (i j : Z) : list A :=
  let lo := slice_index (len l) i in
  let hi := slice_index (len l) j in
  take (hi - lo)%nat (drop lo l).

(** [c * n] for a one-character string [c]: empty when [n <= 0]. *)
Definition str_mul (c : N) (n : Z) : pystr := replicate (Z.to_nat n) c.

(** A string as long as [s] is built, unless the interpreter cannot
    ([None] stands for [OverflowError] and [MemoryError]); the empty
    string is always there. *)
Definition built (no_memory : Z -> bool) (s : pystr) : option pystr :=
  if (0 <? len s) && no_memory (len s) then None else Some s.

(** [c * n] where it can fail. *)
Definition str_repeat (no_memory : Z -> bool) (c : N) (n : Z)
    : option pystr :=
  if (0 <? n) && no_memory n then None else Some (str_mul c n).

(** [str(n)] for an [int]. *)
Definition str_of_int (n : Z) : pystr :=
  lit (NilZero.string_of_int (Z.to_int n)).

(** The line boundaries of [str.splitlines]: LF, CR, VT, FF, FS, GS, RS,
    NEL, LINE SEPARATOR and PARAGRAPH SEPARATOR. *)
Definition is_linebreak (c : N) : bool :=
  existsb (N.eqb c) [10; 13; 11; 12; 28; 29; 30; 133; 8232; 8233]%N.

(** [splitlines_from cur s]: the lines of [s], the characters of the line
    being read kept in [cur], last one first. CR LF is one boundary, and no
    empty line is produced after a final boundary. *)
Fixpoint splitlines_from (cur s : pystr) : list pystr :=
  match s with
  | [] => match cur with [] => [] | _ => [rev cur] end
  | c :: rest =>
      if is_linebreak c then
        rev cur ::
          match rest with
          | c2 :: rest2 =>
              if (c =? 13)%N && (c2 =? 10)%N then splitlines_from [] rest2
              else splitlines_from [] rest
          | [] => []
          end
      else splitlines_from (c :: cur) rest
  end.

(** [text.splitlines()] *)
Definition splitlines (text : pystr) : list pystr := splitlines_from [] text.

(** [s.rstrip("/")]: [s] without its trailing slashes. *)
Fixpoint rstrip_slash (s : pystr) : pystr :=
  match s with
  | [] => []
  | c :: rest =>
      match rstrip_slash rest with
      | [] => if (c =? slash)%N then [] else [c]
      | r => c :: r
      end
  end.

(** [enumerate(l, start)] *)
Fixpoint enumerate {A} (start : Z) (l : list A) : list (Z * A) :=
  match l with
  | [] => []
  | x :: l' => (start, x) :: enumerate (start + 1) l'
  end.

(** Comparison of two [str]: lexicographic on the code points. *)
Fixpoint str_leb (a b : pystr) : bool :=
  match a, b with
  | [], _ => true
  | _ :: _, [] => false
  | x :: a', y :: b' => (x <? y)%N || ((x =? y)%N && str_leb a' b')
  end.

Definition str_le (a b : pystr) : Prop := str_leb a b = true.

#[export] Instance str_le_dec (a b : pystr) : Decision (str_le a b).
Proof. unfold str_le. apply _. Defined.

(** [sorted(keys)] for a list of [str]. *)
Definition sorted (l : list pystr) : list pystr := merge_sort str_le l.

(** [l[i]] for [i >= 0]: [None] stands for [IndexError]. *)
Definition index {A} (l : list A) (i : Z) : option A :=
  if i <? 0 then None else l !! Z.to_nat i.

(** ** Numbers

    A Python [float] is an IEEE 754 binary64 number; every operation rounds
    to nearest, ties to even. *)
Definition prec : Z := 53.
Definition emax : Z := 1024.

Inductive number := Int (n : Z) | Float (f : spec_float).

(** [float(n)] of an [int]: correctly rounded; [None] stands for
    [OverflowError]. *)
Definition float_of_int (n : Z) : option spec_float :=
  match binary_normalize prec emax n 0 false with
  | S754_infinity _ => None
  | f => Some f
  end.

(** [x / y] on floats: [None] stands for [ZeroDivisionError]. *)
Definition float_div (x y : spec_float) : option spec_float :=
  match y with
  | S754_zero _ => None
  | _ => Some (SFdiv prec emax x y)
  end.

(** [int(f)] of a [float]: truncation towards zero; [None] stands for the
    [OverflowError] on an infinity and the [ValueError] on a NaN. *)
Definition int_of_float (f : spec_float) : option Z :=
  match f with
  | S754_zero _ => Some 0
  | S754_finite s m e =>
      let a := if 0 <=? e then Zpos m * 2 ^ e else Zpos m / 2 ^ (- e) in
      Some (if s then - a else a)
  | S754_infinity _ | S754_nan => None
  end.

(** [n * x] and [x * n] for an [int] [n] and a number [x]. *)
Definition int_mul (n : Z) (x : number) : option number :=
  match x with
  | Int k => Some (Int (n * k))
  | Float f => g ← float_of_int n; Some (Float (SFmul prec emax g f))
  end.

Definition mul_int (x : number) (n : Z) : option number :=
  match x with
  | Int k => Some (Int (k * n))
  | Float f => g ← float_of_int n; Some (Float (SFmul prec emax f g))
  end.

(** [int(x)] *)
Definition int (x : number) : option Z :=
  match x with
  | Int k => Some k
  | Float f => int_of_float f
  end.

End Py.

Import Py.

(* ================================================================== *)
(** * The terminal and the Web API *)
(* ================================================================== *)

Module Curses.

(** Key codes of [curses] and the characters the program compares with. *)
Definition KEY_DOWN : Z := 258.
Definition KEY_UP : Z := 259.
Definition KEY_HOME : Z := 262.
Definition KEY_NPAGE : Z := 338.
Definition KEY_PPAGE : Z := 339.
Definition KEY_ENTER : Z := 343.
Definition KEY_END : Z := 360.
Definition ESC : Z := 27.
Definition ord_q : Z := 113.
Definition ord_k : Z := 107.
Definition ord_j : Z := 106.
Definition A_REVERSE : Z := 262144.

(** One tracker of the JSON answer of [torrents/trackers], and one torrent
    of [torrents/info]; only the fields the program reads. *)
Record tracker := Tracker { url : pystr }.
Record torrent := Torrent { hash : pystr; name : pystr }.

(** What the program does to its surroundings, in the order it does it:
    calls on the window [stdscr] (and [curses.curs_set]), a key delivered
    by [stdscr.getch()], and a GET of the trackers of one torrent. *)
Inductive event :=
| curs_set (visibility : Z)
| clear
| addstr (s : pystr)
| attron (attr : Z)
| attroff (attr : Z)
| move (y x : Z)
| clrtoeol
| refresh
| getch (key : Z)
| get_trackers (torrent_hash : pystr).

(** The world a method runs in. A call on the window can raise
    [curses.error]: [fails] says whether [curses] does so on the call just
    attempted, the last event of the list it is given. Where the source
    swallows the error (the [addstr] of [safe_addstr]) the call is recorded
    as attempted; where it does not, the error leaves the method.
    [no_memory] says for which lengths the interpreter cannot build a
    string ([OverflowError], [MemoryError]). The window geometry stays as
    it is during one run. *)
Record world := MkWorld {
  height : Z;                           (* stdscr.getmaxyx()[0] *)
  width : Z;                            (* stdscr.getmaxyx()[1] *)
  keys : list Z;                        (* keys the user will press *)
  trackers_of : pystr -> list tracker;  (* answers of the Web API *)
  fails : list event -> bool;           (* curses.error on the last call *)
  no_memory : Z -> bool;                (* no str of that length *)
  log : list event                      (* events so far, oldest first *)
}.

(** A world whose window takes every call and whose interpreter has the
    memory for every string. *)
Definition World (height width : Z) (keys : list Z)
    (trackers_of : pystr -> list tracker) (log : list event) : world :=
  MkWorld height width keys trackers_of (fun _ => false) (fun _ => false)
    log.

(** A method: from a world, either a result and the world after it, or
    [None] when it does not return (a loop that never ends, a key that
    never comes, an exception that leaves the method). *)
Definition io (A : Type) : Type := world -> option (A * world).

#[export] Instance io_ret : MRet io := fun A a w => Some (a, w).

#[export] Instance io_bind : MBind io := fun A B f m w =>
  match m w with
  | Some (a, w') => f a w'
  | None => None
  end.

Definition never {A} : io A := fun _ => None.

Definition emit (e : event) : io unit := fun w =>
  Some (tt, MkWorld (height w) (width w) (keys w) (trackers_of w) (fails w)
              (no_memory w) (log w ++ [e])).

(** A call on the window outside any [try]: when [curses] fails on it,
    [curses.error] leaves the method. *)
Definition checked (e : event) : io unit := fun w =>
  if fails w (log w ++ [e]) then None else emit e w.

(** What the interpreter can build. *)
Definition memory : io (Z -> bool) := fun w => Some (no_memory w, w).

Definition getmaxyx : io (Z * Z) := fun w => Some ((height w, width w), w).

(** [stdscr.getch()] blocks until a key is there. *)
Definition read_key : io Z := fun w =>
  match keys w with
  | [] => None
  | k :: ks =>
      Some (k, MkWorld (height w) (width w) ks (trackers_of w) (fails w)
                 (no_memory w) (log w ++ [getch k]))
  end.

(** What the Web API answers for the trackers of a torrent. *)
Definition answer (torrent_hash : pystr) : io (list tracker) := fun w =>
  Some (trackers_of w torrent_hash, w).

Definition pending_keys : io nat := fun w => Some (length (keys w), w).

(** [for x in l: body(x)] *)
Fixpoint for_each {A} (l : list A) (body : A -> io unit) : io unit :=
  match l with
  | [] => mret tt
  | x :: l' => body x ;; for_each l' body
  end.

End Curses.

Import Curses.

(* ================================================================== *)
(** * The methods of [QBittorrentTUI] *)
(* ================================================================== *)

Module QBittorrentTUI.

(** ** [safe_addstr] *)

(** The [while len(line) > width] loop of [safe_addstr]: writes the
    segments of [width] characters and returns what is left of the line.
    One unit of [fuel] per iteration. *)
Fixpoint wrap_loop (fuel : nat) (width : Z) (line : pystr) : io pystr :=
  if len line >? width then
    match fuel with
    | O => never
    | S fuel' =>
        let segment := slice_to line width in
        emit (addstr (segment ++ [nl])) ;;
        wrap_loop fuel' width (slice_from line width)
    end
  else mret line.

(** [safe_addstr(stdscr, text, wrap, start_newline)]. An iteration of the
    wrapping loop that makes progress shortens the line, so the loop gets
    as many iterations as the line has characters. *)
Definition safe_addstr (text : pystr) (wrap start_newline : bool) : io unit :=
  '(height, width) ← getmaxyx;
  for_each (splitlines text) (fun original_line =>
    let line := original_line in
    if wrap then
      line ← wrap_loop (length line) width line;
      emit (addstr (line ++ [nl]))
    else
      let line :=
        if len line >? width then slice_to line (width - 1) else line in
      emit (addstr line)) ;;
  (if start_newline then emit (addstr [nl]) else mret tt) ;;
  emit refresh.

(** ** [draw_progress_bar] *)

(** The proportion done: [0] (an [int]) when [total] is 0, else the
    float [float(current) / float(total)]. *)
Definition percentage (current total : Z) : option number :=
  if total =? 0 then Some (Int 0)
  else
    x ← float_of_int current;
    y ← float_of_int total;
    q ← float_div x y;
    Some (Float q).

(** The two texts [draw_progress_bar] computes from its counters: the bar
    (without its brackets) and the percentage. *)
Definition progress_texts (no_memory : Z -> bool)
    (current total bar_length : Z) : option (pystr * pystr) :=
  percentage ← percentage current total;
  filled_length ← (int_mul bar_length percentage ≫= int);
  filled ← str_repeat no_memory 61 filled_length;
  unfilled ← str_repeat no_memory 45 (bar_length - filled_length);
  bar ← built no_memory (filled ++ unfilled);
  percent ← (mul_int percentage 100 ≫= int);
  let percent_text := str_of_int percent ++ lit "%" in
  Some (bar, percent_text).

Definition lift {A} (o : option A) : io A := fun w =>
  match o with
  | Some a => Some (a, w)
  | None => None
  end.

(** [draw_progress_bar(stdscr, current, total, message, bar_length)] *)
Definition draw_progress_bar (current total : Z) (message : pystr)
    (bar_length : Z) : io unit :=
  '(height, width) ← getmaxyx;
  no_memory ← memory;
  '(bar, percent_text) ←
    lift (progress_texts no_memory current total bar_length);
  let bar_y := height - 3 in
  for_each (seqZ bar_y (height - bar_y)) (fun clear_y =>
    checked (move clear_y 0) ;; checked clrtoeol) ;;
  checked (move bar_y 0) ;;
  let truncated_message :=
    if len message >? width - 1 then slice_to message (width - 1)
    else message in
  checked (addstr truncated_message) ;;
  bar_line ←
    lift (built no_memory (lit "[" ++ bar ++ lit "] " ++ percent_text));
  let bar_line_y := bar_y + 1 in
  checked (move bar_line_y 0) ;;
  let bar_line_display := slice_to bar_line (width - 1) in
  checked (addstr bar_line_display) ;;
  emit refresh.

(** ** [validate_url] and [normalize_url] *)

(** [urllib.parse.urlparse] belongs to the Python library. The model
    follows CPython's [urlsplit] for the two fields the program reads,
    [scheme] and [netloc]; the checks [urlsplit] makes on a netloc (its
    brackets, a bracketed host, its NFKC form), which end in [ValueError],
    are the parameter [netloc_ok]. *)
Record ParseResult := Parsed { scheme : pystr; netloc : pystr }.

Definition is_c0_control_or_space (c : N) : bool := (c <=? 32)%N.

Definition is_unsafe_byte (c : N) : bool :=
  (c =? 9)%N || (c =? 13)%N || (c =? 10)%N.

Definition is_ascii_alpha (c : N) : bool :=
  ((65 <=? c) && (c <=? 90) || (97 <=? c) && (c <=? 122))%N.

(** membership in [scheme_chars]: letters, digits, [+], [-] and [.] *)
Definition is_scheme_char (c : N) : bool :=
  is_ascii_alpha c || ((48 <=? c) && (c <=? 57))%N
  || (c =? 43)%N || (c =? 45)%N || (c =? 46)%N.

Definition ascii_lower (c : N) : N :=
  if ((65 <=? c) && (c <=? 90))%N then (c + 32)%N else c.

(** membership in ["/?#"] *)
Definition is_netloc_delim (c : N) : bool :=
  (c =? 47)%N || (c =? 63)%N || (c =? 35)%N.

Fixpoint lstrip (strip : N -> bool) (s : pystr) : pystr :=
  match s with
  | c :: rest => if strip c then lstrip strip rest else s
  | [] => []
  end.

(** [s.find(c)]: [None] stands for [-1]. *)
Fixpoint find (c : N) (s : pystr) : option nat :=
  match s with
  | [] => None
  | d :: rest => if (d =? c)%N then Some O else S <$> find c rest
  end.

(** The characters of [s] before the first one that satisfies [stop]. *)
Fixpoint upto (stop : N -> bool) (s : pystr) : pystr :=
  match s with
  | c :: rest => if stop c then [] else c :: upto stop rest
  | [] => []
  end.

(** The first steps of [urlsplit]: leading C0 control characters and
    spaces are stripped, tabs and line breaks are removed. *)
Definition clean_url (url : pystr) : pystr :=
  List.filter (fun c => negb (is_unsafe_byte c))
    (lstrip is_c0_control_or_space url).

(** The scheme, in lower case, and what follows its colon; no scheme
    unless the text before the first colon starts with a letter and is
    made of scheme characters. *)
Definition split_scheme (url : pystr) : pystr * pystr :=
  match find 58 url, head url with
  | Some (S i'), Some c0 =>
      let i := S i' in
      if is_ascii_alpha c0 && forallb is_scheme_char (take i url)
      then (List.map ascii_lower (take i url), drop (S i) url)
      else ([], url)
  | _, _ => ([], url)
  end.

(** The netloc: what follows a leading [//], up to the first of [/?#]. *)
Definition split_netloc (url : pystr) : pystr :=
  match url with
  | c0 :: c1 :: rest =>
      if (c0 =? 47)%N && (c1 =? 47)%N then upto is_netloc_delim rest else []
  | _ => []
  end.

Section Urls.

Variable netloc_ok : pystr -> bool.

Definition urlparse (url : pystr) : option ParseResult :=
  let url := clean_url url in
  let '(scheme, url) := split_scheme url in
  let netloc := split_netloc url in
  match netloc with
  | [] => Some (Parsed scheme netloc)
  | _ => if netloc_ok netloc then Some (Parsed scheme netloc) else None
  end.

(** [validate_url(input_url)]: [None] when [urlparse] raises. *)
Definition validate_url (input_url : pystr) : option (bool * pystr) :=
  match input_url with
  | [] => Some (false, lit "The URL is empty.")
  | _ =>
      parsed ← urlparse input_url;
      match scheme parsed, netloc parsed with
      | [], _ =>
          Some (false,
                lit "The URL is missing a scheme (e.g., http or https).")
      | _, [] =>
          Some (false,
                lit "The URL is missing a valid domain or IP address.")
      | _, _ => Some (true, [])
      end
  end.

(** [normalize_url(input_url, default_scheme)] *)
Definition normalize_url (input_url default_scheme : pystr) : option pystr :=
  match input_url with
  | [] => Some []
  | _ =>
      '(is_valid, error_message) ← validate_url input_url;
      if (is_valid : bool) then Some (rstrip_slash input_url)
      else
        parsed ← urlparse input_url;
        '(input_url, is_valid) ←
          match scheme parsed with
          | [] =>
              let input_url := default_scheme ++ lit "://" ++ input_url in
              '(is_valid, error_message) ← validate_url input_url;
              Some (input_url, is_valid)
          | _ => Some (input_url, is_valid)
          end;
        if (is_valid : bool) then Some (rstrip_slash input_url) else Some []
  end.

End Urls.

(** ** [scrollable_select] *)

Record SelectionState := Sel { selected_idx : Z; top_line : Z }.

Inductive step := Return (result : Z) | Continue (s : SelectionState).

(** The [if key ... elif ...] chain at the end of one iteration, for a list
    of [n] items and [max_lines] visible rows. *)
Definition on_key (n max_lines key : Z) (s : SelectionState) : step :=
  let '(Sel selected_idx top_line) := s in
  if (key =? ord_q) || (key =? ESC) then Return (-1)
  else if (key =? KEY_ENTER) || (key =? 10) || (key =? 13) then
    Return selected_idx
  else if (key =? KEY_UP) || (key =? ord_k) then
    let selected_idx := Z.max 0 (selected_idx - 1) in
    Continue (Sel selected_idx
                (if selected_idx <? top_line then selected_idx else top_line))
  else if (key =? KEY_DOWN) || (key =? ord_j) then
    let selected_idx := Z.min (n - 1) (selected_idx + 1) in
    Continue (Sel selected_idx
                (if selected_idx >=? top_line + max_lines
                 then selected_idx - max_lines + 1 else top_line))
  else if key =? KEY_PPAGE then
    let selected_idx := Z.max 0 (selected_idx - max_lines) in
    Continue (Sel selected_idx
                (if selected_idx <? top_line then selected_idx else top_line))
  else if key =? KEY_NPAGE then
    let selected_idx := Z.min (n - 1) (selected_idx + max_lines) in
    Continue (Sel selected_idx
                (if selected_idx >=? top_line + max_lines
                 then selected_idx - max_lines + 1 else top_line))
  else if key =? KEY_HOME then Continue (Sel 0 0)
  else if key =? KEY_END then
    Continue (Sel (n - 1) (Z.max 0 (n - max_lines)))
  else Continue s.

Definition help_line : pystr :=
  lit "[UP/DOWN] scroll, [PgUp/PgDn] faster scroll, " ++
  lit "[Home/End], [Enter] select, [q] or [ESC] to cancel.".

(** What one iteration draws before it reads a key. *)
Definition draw_list (items : list pystr) (title : pystr) (height : Z)
    (s : SelectionState) : io unit :=
  emit clear ;;
  safe_addstr (lit "=== " ++ title ++ lit " ===" ++ [nl]) true true ;;
  let max_lines := height - 4 in
  let visible_items :=
    slice items (top_line s) (top_line s + max_lines) in
  for_each (enumerate 0 visible_items) (fun '(i, line) =>
    let actual_idx := top_line s + i in
    if actual_idx =? selected_idx s then
      emit (attron A_REVERSE) ;;
      safe_addstr line false true ;;
      emit (attroff A_REVERSE)
    else safe_addstr line false true) ;;
  safe_addstr help_line false true ;;
  emit refresh.

(** The [while True] loop: one unit of [fuel] per iteration. *)
Fixpoint select_loop (fuel : nat) (items : list pystr) (title : pystr)
    (height : Z) (s : SelectionState) : io Z :=
  match fuel with
  | O => never
  | S fuel' =>
      draw_list items title height s ;;
      key ← read_key;
      match on_key (len items) (height - 4) key s with
      | Return result => mret result
      | Continue s' => select_loop fuel' items title height s'
      end
  end.

(** [scrollable_select(stdscr, items, title)]. Every iteration of the loop
    reads one key, so the loop gets one iteration per key that is still to
    come; with no key left it waits in [getch]. *)
Definition scrollable_select (items : list pystr) (title : pystr) : io Z :=
  checked (curs_set 0) ;;
  '(height, width) ← getmaxyx;
  match items with
  | [] => mret (-1)
  | _ =>
      fuel ← pending_keys;
      select_loop (S fuel) items title height (Sel 0 0)
  end.

(** ** [aggregate_trackers_for_each_torrent] *)

(** [get_torrent_trackers(torrent_hash)]: one GET; what it returns (the
    JSON list, or the empty list when the request fails) is the answer of
    the world. *)
Definition get_torrent_trackers (torrent_hash : pystr) : io (list tracker) :=
  emit (get_trackers torrent_hash) ;;
  answer torrent_hash.

(** The body of [for tracker in torrent_trackers]. *)
Definition add_tracker_url (torrent_hash : pystr)
    (tracker_map : gmap pystr (list pystr)) (tracker : tracker)
    : gmap pystr (list pystr) :=
  let tracker_url := url tracker in
  let tracker_map :=
    match tracker_map !! tracker_url with
    | None => <[tracker_url := []]> tracker_map
    | Some _ => tracker_map
    end in
  alter (fun hashes => hashes ++ [torrent_hash]) tracker_url tracker_map.

(** [for x in l: s = body(s, x)] *)
Fixpoint fold_io {A S} (l : list A) (body : S -> A -> io S) (s : S) : io S :=
  match l with
  | [] => mret s
  | x :: l' => s' ← body s x; fold_io l' body s'
  end.

Definition gathering_message (idx total_torrents : Z) (torrent : torrent)
    : pystr :=
  lit "Gathering trackers for torrent " ++ str_of_int idx ++ lit "/" ++
  str_of_int total_torrents ++ lit ": " ++ name torrent.

(** The body of [for idx, torrent in enumerate(torrents, start=1)]. *)
Definition gather_trackers (total_torrents : Z)
    (tracker_map : gmap pystr (list pystr)) (item : Z * torrent)
    : io (gmap pystr (list pystr)) :=
  let '(idx, torrent) := item in
  let message := gathering_message idx total_torrents torrent in
  draw_progress_bar idx total_torrents message 40 ;;
  torrent_trackers ← get_torrent_trackers (hash torrent);
  mret (fold_left (add_tracker_url (hash torrent))
          torrent_trackers tracker_map).

Definition aggregate_trackers_for_each_torrent (torrents : list torrent)
    : io (gmap pystr (list pystr)) :=
  let total_torrents := len torrents in
  tracker_map ←
    fold_io (enumerate 1 torrents) (gather_trackers total_torrents) ∅;
  emit clear ;;
  mret tracker_map.

(** ** [remove_tracker], from the aggregated map to the chosen tracker *)

(** [sorted(tracker_map.keys())] *)
Definition sorted_trackers (tracker_map : gmap pystr (list pystr))
    : list pystr :=
  sorted (elements (dom tracker_map)).

Definition tracker_lines (tracker_map : gmap pystr (list pystr))
    : list pystr :=
  (fun '(i, tracker_url) =>
     str_of_int i ++ lit ". " ++ tracker_url ++ lit " - Found in " ++
     str_of_int (len (default [] (tracker_map !! tracker_url))) ++
     lit " torrents") <$> enumerate 1 (sorted_trackers tracker_map).

(** The selection step of [remove_tracker] (and of [add_tracker], with its
    own title): the lines are shown, and the tracker at the returned index
    is taken; [None] for a cancelled selection. [trackers[choice_idx]]
    raises [IndexError] outside the list. *)
Definition choose_tracker (tracker_map : gmap pystr (list pystr))
    (title : pystr) : io (option pystr) :=
  let trackers := sorted_trackers tracker_map in
  choice_idx ← scrollable_select (tracker_lines tracker_map) title;
  if choice_idx <? 0 then
    safe_addstr (lit "Operation canceled. Press any key to return...")
      true true ;;
    read_key ;;
    mret None
  else
    selected_tracker ← lift (index trackers choice_idx);
    mret (Some selected_tracker).

End QBittorrentTUI.

Import QBittorrentTUI.

(* ================================================================== *)
(** * Notions the properties are stated with *)
(* ================================================================== *)

(** The selector as a state machine: the states the loop of
    [scrollable_select] goes through for the keys [ks], from [s]. *)
Fixpoint run_keys (n max_lines : Z) (ks : list Z) (s : SelectionState)
    : step :=
  match ks with
  | [] => Continue s
  | k :: ks' =>
      match on_key n max_lines k s with
      | Return r => Return r
      | Continue s' => run_keys n max_lines ks' s'
      end
  end.

(** The invariants of a selection state over [n] items with
    [visible_rows] rows. *)
Definition selection_invariant (n visible_rows : Z) (s : SelectionState)
    : Prop :=
  0 <= selected_idx s < n /\
  0 <= top_line s <= selected_idx s /\
  selected_idx s < top_line s + visible_rows.

(** The keys that move the selection by one line. *)
Definition is_up_down (key : Z) : Prop :=
  key = KEY_UP \/ key = ord_k \/ key = KEY_DOWN \/ key = ord_j.

(** The keys that end a selection. *)
Definition is_final (key : Z) : Prop :=
  key = ord_q \/ key = ESC \/ key = KEY_ENTER \/ key = 10 \/ key = 13.

(** The world after the further events [evs]. *)
Definition extend (w : world) (evs : list event) : world :=
  MkWorld (height w) (width w) (keys w) (trackers_of w) (fails w)
    (no_memory w) (log w ++ evs).

(** The window takes every call. *)
Definition accepts_all (w : world) : Prop := forall evs, fails w evs = false.

(** The interpreter has the memory for every string. *)
Definition has_memory (w : world) : Prop := forall n, no_memory w n = false.

(** From [w], [m] does [evs] and returns [a], unless a call the window
    does not take ends it. *)
Definition runs_or_fails {A} (m : io A) (w : world) (a : A)
    (evs : list event) : Prop :=
  m w = Some (a, extend w evs) \/ (m w = None /\ ~ accepts_all w).

(** From [w], [m] returns [a]; meanwhile it does [evs] and reads no key. *)
Definition runs {A} (m : io A) (w : world) (a : A) (evs : list event)
    : Prop :=
  m w = Some (a, extend w evs).

(** The segments the specification gives for one line: pieces of [width]
    characters as long as more than [width] characters are left, then the
    remainder. *)
Fixpoint segments (fuel width : nat) (line : pystr) : list pystr :=
  match fuel with
  | O => [line]
  | S fuel' =>
      if (width <? length line)%nat
      then take width line :: segments fuel' width (drop width line)
      else [line]
  end.

Definition wrap_segments (width : Z) (line : pystr) : list pystr :=
  segments (length line) (Z.to_nat width) line.

(** Writing one segment, followed by a line break. *)
Definition write_line (segment : pystr) : event := addstr (segment ++ [nl]).

(** A float that [int()] converts, of bounded size: a zero, or a finite
    number whose mantissa digits plus exponent, and whose exponent, are at
    most [B]. *)
Definition small (B : Z) (f : spec_float) : Prop :=
  match f with
  | S754_zero _ => True
  | S754_finite _ m e => Zdigits2 (Zpos m) + e <= B /\ e <= B
  | _ => False
  end.

(** A float made from an [int] [n] below [2^53]: exact, and normalised to
    a mantissa of 53 digits. *)
Definition int_float (n : Z) (f : spec_float) : Prop :=
  match f with
  | S754_zero s => n = 0 /\ s = false
  | S754_finite s m e =>
      s = false /\ digits2_pos m = 53%positive /\ -52 <= e <= 0 /\
      Zpos m = n * 2 ^ (- e)
  | _ => False
  end.

(** The float 1.0 *)
Definition one : spec_float := S754_finite false 4503599627370496 (-52).

(** The filled length and the percentage as the specification words them,
    in exact arithmetic: [floor(bar_width * current / total)] and
    [floor(current / total * 100)]. *)
Definition spec_filled (current total bar_width : Z) : Z :=
  bar_width * current / total.

Definition spec_percent (current total : Z) : Z := current * 100 / total.

(** A map entry for the list [l]: none for the empty list. *)
Definition as_entry (l : list pystr) : option (list pystr) :=
  match l with
  | [] => None
  | _ => Some l
  end.

(** How often the lookup [trackers] lists [key]. *)
Definition occurrences (key : pystr) (trackers : list tracker) : nat :=
  length (List.filter (fun t => bool_decide (url t = key)) trackers).

(** The group of [key] as the specification describes it: for each record
    in input order, its identifier, once for every time the lookup of the
    record lists [key]. *)
Definition group (api : pystr -> list tracker) (key : pystr)
    (torrents : list torrent) : list pystr :=
  flat_map (fun t => replicate (occurrences key (api (hash t))) (hash t))
    torrents.

(** The events of one call of [draw_progress_bar] whose texts are [bar]
    and [percent_text]. *)
Definition progress_events (height width : Z)
    (message bar percent_text : pystr) : list event :=
  flat_map (fun clear_y => [move clear_y 0; clrtoeol])
    (seqZ (height - 3) (height - (height - 3))) ++
  [move (height - 3) 0;
   addstr (if len message >? width - 1 then slice_to message (width - 1)
           else message);
   move (height - 3 + 1) 0;
   addstr (slice_to (lit "[" ++ bar ++ lit "] " ++ percent_text) (width - 1));
   refresh].

(** The events of the progress draw for the record [idx] of [total]. *)
Definition draw_events (w : world) (total : Z) (item : Z * torrent)
    : list event :=
  let '(idx, torrent) := item in
  match progress_texts (no_memory w) idx total 40 with
  | Some (bar, percent_text) =>
      progress_events (height w) (width w)
        (gathering_message idx total torrent) bar percent_text
  | None => []
  end.

(** The map the aggregation loop builds, without its effects. *)
Definition aggregated (api : pystr -> list tracker) (torrents : list torrent)
    (tracker_map : gmap pystr (list pystr)) : gmap pystr (list pystr) :=
  fold_left (fun m t => fold_left (add_tracker_url (hash t)) (api (hash t)) m)
    torrents tracker_map.




(** The scenario of the specification: three parents, the first with the
    children t1 and t2, the second with t1, the third with none. *)
Definition scenario_api (torrent_hash : pystr) : list tracker :=
  if bool_decide (torrent_hash = lit "p1")
  then [Tracker (lit "t1"); Tracker (lit "t2")]
  else if bool_decide (torrent_hash = lit "p2") then [Tracker (lit "t1")]
  else [].

Definition scenario_torrents : list torrent :=
  [Torrent (lit "p1") (lit "first"); Torrent (lit "p2") (lit "second");
   Torrent (lit "p3") (lit "third")].

Definition scenario_world : world := World 24 80 [] scenario_api [].

(** The events of [safe_addstr(stdscr, text, wrap, start_newline)] on a
    window of [width] columns. *)
Definition safe_addstr_events (width : Z) (text : pystr)
    (wrap start_newline : bool) : list event :=
  flat_map
    (fun line =>
       if wrap then write_line <$> wrap_segments width line
       else [addstr (if len line >? width then slice_to line (width - 1)
                     else line)])
    (splitlines text)
  ++ (if start_newline then [addstr [nl]] else []) ++ [refresh].

(** The events of one drawing of the list, before the key is read. *)
Definition draw_list_events (w : world) (items : list pystr) (title : pystr)
    (s : SelectionState) : list event :=
  [clear]
  ++ safe_addstr_events (width w) (lit "=== " ++ title ++ lit " ===" ++ [nl])
       true true
  ++ flat_map
       (fun item : Z * pystr =>
          if top_line s + item.1 =? selected_idx s then
            [attron A_REVERSE]
            ++ safe_addstr_events (width w) item.2 false true
            ++ [attroff A_REVERSE]
          else safe_addstr_events (width w) item.2 false true)
       (enumerate 0
          (slice items (top_line s) (top_line s + (height w - 4))))
  ++ safe_addstr_events (width w) help_line false true
  ++ [refresh].

(** The number of identifiers a tracker map holds, all entries together. *)
Definition entries_total (tracker_map : gmap pystr (list pystr)) : nat :=
  map_fold (fun _ hashes n => (length hashes + n)%nat) 0%nat tracker_map.

(* ================================================================== *)
(** * The prompts: echo mode, typed lines and exceptions *)
(* ================================================================== *)

Module Terminal.

Definition KEY_BACKSPACE : Z := 263.

(** The characters [str.strip()] removes: those [str.isspace] holds for. *)
Definition is_space (c : N) : bool :=
  existsb (N.eqb c)
    [9; 10; 11; 12; 13; 28; 29; 30; 31; 32; 133; 160; 5760; 8192; 8193;
     8194; 8195; 8196; 8197; 8198; 8199; 8200; 8201; 8202; 8232; 8233;
     8239; 8287; 12288]%N.

(** [s.strip()] *)
Definition strip (s : pystr) : pystr :=
  rev (lstrip is_space (rev (lstrip is_space s))).

(** The exceptions that leave a method of this part. *)
Inductive exn := curses_error | UnicodeDecodeError | ValueError.

(** What the prompts do, in the order they do it: the events of the
    methods above, the echo mode, one character written, the cursor
    position read, a line read by [stdscr.getstr()] and decoded ([None]
    when it is not UTF-8), and a message of [logging.info]. *)
Inductive call :=
| window (e : event)
| echo
| noecho
| addch (c : N)
| getyx (y x : Z)
| getstr (line : option pystr)
| logging_info (message : pystr).

(** The terminal a prompt runs on. [getstr] is code of [curses]: the lines
    it will return are given, apart from the keys [getch] will return.
    [cursor] says where [getyx] finds the cursor after the calls made so
    far, and [refuses] whether [curses] raises [curses.error] on the call
    just attempted, the last one of the list. *)
Record terminal := Terminal {
  rows : Z;
  columns : Z;
  typed : list Z;
  lines : list (option pystr);
  web : pystr -> list tracker;
  cursor : list call -> Z * Z;
  refuses : list call -> bool;
  calls : list call
}.

(** How a method ends: it returns, an exception leaves it, or it does
    neither (it waits for input that does not come, or loops). *)
Inductive outcome (A : Type) :=
| Returned (a : A) (t : terminal)
| Raised (e : exn) (t : terminal)
| Never.

Arguments Returned {A} a t.
Arguments Raised {A} e t.
Arguments Never {A}.

Definition tio (A : Type) : Type := terminal -> outcome A.

#[export] Instance tio_ret : MRet tio := fun A a t => Returned a t.

#[export] Instance tio_bind : MBind tio := fun A B f m t =>
  match m t with
  | Returned a t' => f a t'
  | Raised e t' => Raised e t'
  | Never => Never
  end.

(** The terminal after the further calls [cs]. *)
Definition called (t : terminal) (cs : list call) : terminal :=
  Terminal (rows t) (columns t) (typed t) (lines t) (web t) (cursor t)
    (refuses t) (calls t ++ cs).

(** A call that always succeeds. *)
Definition record (c : call) : tio unit := fun t =>
  Returned tt (called t [c]).

(** A call on the window outside any [try]: [curses.error] leaves the
    method when [curses] refuses it. *)
Definition attempt (c : call) : tio unit := fun t =>
  let t' := called t [c] in
  if refuses t (calls t') then Raised curses_error t' else Returned tt t'.

(** [raise] when a computation of the methods above raises. *)
Definition raising {A} (e : exn) (o : option A) : tio A := fun t =>
  match o with
  | Some a => Returned a t
  | None => Raised e t
  end.

(** [stdscr.getch()] *)
Definition getch_key : tio Z := fun t =>
  match typed t with
  | [] => Never
  | k :: ks =>
      Returned k
        (Terminal (rows t) (columns t) ks (lines t) (web t) (cursor t)
           (refuses t) (calls t ++ [window (getch k)]))
  end.

(** [stdscr.getyx()] *)
Definition getyx_pos : tio (Z * Z) := fun t =>
  let '(y, x) := cursor t (calls t) in
  Returned (y, x) (called t [getyx y x]).

(** [stdscr.getstr().decode("utf-8")] *)
Definition getstr_line : tio pystr := fun t =>
  match lines t with
  | [] => Never
  | line :: ls =>
      let t' :=
        Terminal (rows t) (columns t) (typed t) ls (web t) (cursor t)
          (refuses t) (calls t ++ [getstr line]) in
      match line with
      | Some s => Returned s t'
      | None => Raised UnicodeDecodeError t'
      end
  end.

(** A method of the part above, run on the window of the terminal: its
    events are the calls it makes. The ones used here, [safe_addstr]
    without wrapping or on a window with a column, always return. *)
Definition on_stdscr {A} (m : io A) : tio A := fun t =>
  match m (World (rows t) (columns t) (typed t) (web t) []) with
  | Some (a, w) =>
      Returned a
        (Terminal (rows t) (columns t) (keys w) (lines t) (web t)
           (cursor t) (refuses t) (calls t ++ (window <$> log w)))
  | None => Never
  end.

(** [try: m finally: h] *)
Definition finally {A} (m : tio A) (h : tio unit) : tio A := fun t =>
  match m t with
  | Returned a t' =>
      match h t' with
      | Returned _ t'' => Returned a t''
      | Raised e t'' => Raised e t''
      | Never => Never
      end
  | Raised e t' =>
      match h t' with
      | Returned _ t'' => Raised e t''
      | Raised e' t'' => Raised e' t''
      | Never => Never
      end
  | Never => Never
  end.

(** One iteration of a [while True] loop either leaves it with a value
    ([break], [return]) or goes on. *)
Inductive flow (S A : Type) := Break (a : A) | Next (s : S).

Arguments Break {S A} a.
Arguments Next {S A} s.

(** [while True: body], one unit of [fuel] per iteration. *)
Fixpoint while_true {S A} (fuel : nat) (body : S -> tio (flow S A)) (s : S)
    : tio A :=
  match fuel with
  | O => fun _ => Never
  | S fuel' =>
      r ← body s;
      match r with
      | Break a => mret a
      | Next s' => while_true fuel' body s'
      end
  end.

(** The input still to come. Every iteration of the loops below reads a
    key or a line, so a loop gets one iteration more than that. *)
Definition pending : tio nat := fun t =>
  Returned (length (typed t) + length (lines t))%nat t.

(** ** [prompt] *)

Definition prompt (prompt_text : pystr) : tio pystr :=
  record echo ;;
  on_stdscr (safe_addstr prompt_text false false) ;;
  user_input ← getstr_line;
  let user_input := strip user_input in
  record noecho ;;
  mret user_input.

(** ** [password_prompt] *)

(** One iteration of the loop of [password_prompt]. *)
Definition password_key (password : pystr) : tio (flow pystr pystr) :=
  char ← getch_key;
  if (char =? KEY_ENTER) || (char =? 10) || (char =? 13) then
    mret (Break password)
  else if (char =? KEY_BACKSPACE) || (char =? 127) then
    match password with
    | [] => mret (Next password)
    | _ =>
        let password := slice_to password (-1) in
        '(y, x) ← getyx_pos;
        (if x >? 0 then
           attempt (window (move y (x - 1))) ;;
           attempt (addch 32) ;;
           attempt (window (move y (x - 1)))
         else mret tt) ;;
        mret (Next password)
    end
  else if (32 <=? char) && (char <=? 126) then
    let password := password ++ [Z.to_N char] in
    attempt (window (addstr (lit "*"))) ;;
    mret (Next password)
  else mret (Next password).

Definition password_prompt (prompt_text : pystr) : tio pystr :=
  finally
    (record noecho ;;
     on_stdscr (safe_addstr prompt_text false false) ;;
     fuel ← pending;
     password ← while_true (S fuel) password_key [];
     mret (strip password))
    (record echo).

Section Methods.

(** [str.lower] and the checks of [urlparse] are code of Python. *)
Variable lower : pystr -> pystr.
Variable netloc_ok : pystr -> bool.

(** ** [is_operation_confirmed] *)

(** One iteration of its loop. *)
Definition confirm_once (message operation_name : pystr) (_ : unit)
    : tio (flow unit bool) :=
  on_stdscr (safe_addstr message true false) ;;
  answer ← prompt (lit "' (yes/y or no/n): ");
  let confirmation := lower (strip answer) in
  if bool_decide (confirmation ∈ [lit "yes"; lit "y"]) then
    mret (Break true)
  else if bool_decide (confirmation ∈ [lit "no"; lit "n"]) then
    record (logging_info (lit "'" ++ operation_name ++
                          lit "' operation canceled by user.")) ;;
    on_stdscr
      (safe_addstr (lit "'" ++ operation_name ++
                    lit "' was canceled. Press any key to return...")
         true true) ;;
    getch_key ;;
    mret (Break false)
  else
    on_stdscr
      (safe_addstr (lit "Invalid input. Please enter 'yes/y' or 'no/n'." ++
                    [nl]) true true) ;;
    mret (Next tt).

Definition is_operation_confirmed (message operation_name : pystr)
    : tio bool :=
  fuel ← pending;
  while_true (S fuel) (confirm_once message operation_name) tt.

(** ** The URL asked by [login] and by [add_tracker] *)

(** One iteration of the loop of [login] that asks the URL; the value it
    leaves the loop with is the one stored in [self.url]. *)
Definition login_url_once (_ : unit) : tio (flow unit pystr) :=
  answer ←
    prompt (lit "Enter qBittorrent Web URL (e.g., http://localhost:8080): ");
  let user_url :=
    match answer with
    | [] => lit "http://localhost:8080"
    | _ => answer
    end in
  '(is_valid, error_message) ←
    raising ValueError (validate_url netloc_ok user_url);
  if (is_valid : bool) then
    url ← raising ValueError (normalize_url netloc_ok user_url (lit "http"));
    mret (Break url)
  else
    on_stdscr
      (safe_addstr (lit "Invalid URL: " ++ error_message ++
                    lit ". Please try again." ++ [nl]) true true) ;;
    mret (Next tt).

Definition login_url : tio pystr :=
  fuel ← pending;
  while_true (S fuel) login_url_once tt.

(** One iteration of the loop of [add_tracker] that asks the tracker to
    add; the value it leaves the loop with is [tracker_to_add]. *)
Definition tracker_to_add_once (_ : unit) : tio (flow unit pystr) :=
  tracker_user_input ← prompt (lit "What tracker would you like to add?: ");
  '(is_valid, error_message) ←
    raising ValueError (validate_url netloc_ok tracker_user_input);
  if (is_valid : bool) then
    tracker_to_add ←
      raising ValueError
        (normalize_url netloc_ok tracker_user_input (lit "https"));
    mret (Break tracker_to_add)
  else
    on_stdscr
      (safe_addstr (lit "Invalid URL: " ++ error_message ++
                    lit ". Please try again." ++ [nl]) true true) ;;
    mret (Next tt).

Definition tracker_to_add : tio pystr :=
  fuel ← pending;
  while_true (S fuel) tracker_to_add_once tt.

End Methods.

End Terminal.

Import Terminal.

(** The terminal after the further calls [cs], with the keys [ks] and the
    lines [ls] still to come. *)
Definition after (t : terminal) (ks : list Z) (ls : list (option pystr))
    (cs : list call) : terminal :=
  Terminal (rows t) (columns t) ks ls (web t) (cursor t) (refuses t)
    (calls t ++ cs).

(** The keys that end the typing of a password. *)
Definition is_enter (key : Z) : Prop :=
  key = KEY_ENTER \/ key = 10 \/ key = 13.

(** The password after the keys [ks], typed on the password [password]. *)
Definition edit_password (ks : list Z) (password : pystr) : pystr :=
  fold_left
    (fun password char =>
       if (char =? KEY_BACKSPACE) || (char =? 127) then removelast password
       else if (32 <=? char) && (char <=? 126)
            then password ++ [Z.to_N char]
       else password)
    ks password.

(** What [password_prompt] may do on the window while it reads keys: read
    a key, write a star, read the cursor, move it, write a blank. *)
Definition masked (c : call) : Prop :=
  match c with
  | window (getch _) | window (move _ _) | getyx _ _ => True
  | window (addstr s) => s = lit "*"
  | addch c => c = 32%N
  | _ => False
  end.

(** The calls of one question of [is_operation_confirmed] answered by the
    line [line], on a window of [W] columns: the message, wrapped, and the
    prompt. *)
Definition question (W : Z) (message line : pystr) : list call :=
  (window <$> safe_addstr_events W message true false)
  ++ [echo]
  ++ (window <$> safe_addstr_events W (lit "' (yes/y or no/n): ")
                   false false)
  ++ [getstr (Some line); noecho].

(** The calls that tell that an answer was neither yes nor no. *)
Definition invalid_input (W : Z) : list call :=
  window <$>
    safe_addstr_events W
      (lit "Invalid input. Please enter 'yes/y' or 'no/n'." ++ [nl])
      true true.

(** The calls that tell that the operation was cancelled, up to the key
    [key] that is waited for. *)
Definition cancelled (W : Z) (operation_name : pystr) (key : Z)
    : list call :=
  [logging_info (lit "'" ++ operation_name ++
                 lit "' operation canceled by user.")]
  ++ (window <$>
        safe_addstr_events W
          (lit "'" ++ operation_name ++
           lit "' was canceled. Press any key to return...") true true)
  ++ [window (getch key)].

(** [answer or "http://localhost:8080"] *)
Definition or_default (answer : pystr) : pystr :=
  match answer with
  | [] => lit "http://localhost:8080"
  | _ => answer
  end.

(** The calls of one [prompt] answered by the line [line]. *)
Definition prompted (W : Z) (prompt_text line : pystr) : list call :=
  [echo]
  ++ (window <$> safe_addstr_events W prompt_text false false)
  ++ [getstr (Some line); noecho].

(** The calls that tell that a URL is refused for the reason
    [error_message]. *)
Definition invalid_url (W : Z) (error_message : pystr) : list call :=
  window <$>
    safe_addstr_events W
      (lit "Invalid URL: " ++ error_message ++ lit ". Please try again." ++
       [nl]) true true.

(* ================================================================== *)
(** * Running a method: events add up *)
(* ================================================================== *)

Section Runs.

Lemma extend_nil w : extend w [] = w.
Proof. destruct w. unfold extend. simpl. by rewrite app_nil_r. Qed.

Lemma extend_extend w evs1 evs2 :
  extend (extend w evs1) evs2 = extend w (evs1 ++ evs2).
Proof. unfold extend. simpl. by rewrite app_assoc. Qed.

Lemma runs_ret {A} (a : A) w : runs (mret a) w a [].
Proof. unfold runs. by rewrite extend_nil. Qed.

Lemma runs_emit e w : runs (emit e) w tt [e].
Proof. reflexivity. Qed.

Lemma runs_getmaxyx w : runs getmaxyx w (height w, width w) [].
Proof. unfold runs. by rewrite extend_nil. Qed.

Lemma runs_bind {A B} (m : io A) (f : A -> io B) w a b evs1 evs2 :
  runs m w a evs1 -> runs (f a) (extend w evs1) b evs2 ->
  runs (m ≫= f) w b (evs1 ++ evs2).
Proof.
  unfold runs, mbind, io_bind. intros -> ->. by rewrite extend_extend.
Qed.

(** A call that [curses] takes is made; one it fails on ends the run. *)
Lemma checked_taken e w :
  fails w (log w ++ [e]) = false -> checked e w = Some (tt, extend w [e]).
Proof. unfold checked. by intros ->. Qed.

Lemma checked_failed e w :
  fails w (log w ++ [e]) = true -> checked e w = None.
Proof. unfold checked. by intros ->. Qed.

Lemma checked_inv e w u w' :
  checked e w = Some (u, w') ->
  w' = extend w [e] /\ fails w (log w ++ [e]) = false.
Proof.
  unfold checked. destruct (fails w (log w ++ [e])); [done |].
  by intros [= <- <-].
Qed.

Lemma runs_checked e w : accepts_all w -> runs (checked e) w tt [e].
Proof. intros Hw. by apply checked_taken. Qed.

Lemma accepts_all_extend w evs : accepts_all w -> accepts_all (extend w evs).
Proof. done. Qed.

Lemma has_memory_extend w evs : has_memory w -> has_memory (extend w evs).
Proof. done. Qed.

(** A loop whose body does [evs_of x] for the item [x], whatever was done
    before, does the events of its items in order. *)
Lemma runs_for_each {A} (body : A -> io unit) (evs_of : A -> list event)
    (l : list A) w :
  (forall x evs, x ∈ l -> runs (body x) (extend w evs) tt (evs_of x)) ->
  runs (for_each l body) w tt (flat_map evs_of l).
Proof.
  revert w. induction l as [| x l IH]; intros w Hbody; simpl.
  - apply runs_ret.
  - eapply runs_bind.
    + rewrite <- (extend_nil w). apply Hbody. left.
    + apply IH. intros y evs Hy. rewrite extend_extend.
      apply Hbody. by right.
Qed.

End Runs.

(* ================================================================== *)
(** * Properties of the bounded renderer *)
(* ================================================================== *)

Section Renderer.

Lemma segments_concat fuel width line :
  concat (segments fuel width line) = line.
Proof.
  revert line. induction fuel as [| fuel IH]; intros line; simpl.
  - apply app_nil_r.
  - destruct (width <? length line)%nat; simpl.
    + by rewrite IH, take_drop.
    + apply app_nil_r.
Qed.

(** With enough fuel the segments are full ones and then a remainder that
    fits, which is empty only for an empty line. *)
Lemma segments_shape fuel width line :
  (0 < width)%nat -> (length line <= fuel)%nat ->
  exists full remainder,
    segments fuel width line = full ++ [remainder] /\
    Forall (fun segment => length segment = width) full /\
    (length remainder <= width)%nat /\
    (full <> [] -> remainder <> []).
Proof.
  intros Hw. revert line. induction fuel as [| fuel IH]; intros line Hfuel.
  - exists [], line. simpl. repeat split; [constructor | lia | done].
  - simpl. destruct (Nat.ltb_spec width (length line)) as [Hlong | Hfits].
    + destruct (IH (drop width line)) as (full & rem & E & Hfull & Hrem & Hne).
      { rewrite length_drop. lia. }
      exists (take width line :: full), rem. rewrite E.
      repeat split; [| done |].
      * constructor; [rewrite length_take; lia | done].
      * intros _. destruct full as [| seg full]; [| by apply Hne].
        pose proof (segments_concat fuel width (drop width line)) as Hcat.
        rewrite E in Hcat. simpl in Hcat. rewrite app_nil_r in Hcat.
        intros ->. apply (f_equal length) in Hcat.
        rewrite length_drop in Hcat. simpl in Hcat. lia.
    + exists [], line. repeat split; [constructor | done | done].
Qed.

Lemma segments_fit fuel width line :
  (0 < width)%nat -> (length line <= fuel)%nat ->
  Forall (fun segment => (length segment <= width)%nat)
    (segments fuel width line).
Proof.
  intros Hw Hfuel.
  destruct (segments_shape fuel width line Hw Hfuel)
    as (full & rem & -> & Hfull & Hrem & _).
  apply Forall_app. split.
  - eapply Forall_impl; [exact Hfull |]. simpl. intros seg ->. lia.
  - by constructor.
Qed.

Lemma slice_to_take {A} (l : list A) k :
  0 <= k <= len l -> slice_to l k = take (Z.to_nat k) l.
Proof.
  intros Hk. unfold slice_to, slice_index.
  destruct (Z.ltb_spec k 0); [lia |]. f_equal. lia.
Qed.

Lemma slice_from_drop {A} (l : list A) k :
  0 <= k <= len l -> slice_from l k = drop (Z.to_nat k) l.
Proof.
  intros Hk. unfold slice_from, slice_index.
  destruct (Z.ltb_spec k 0); [lia |]. f_equal. lia.
Qed.

(** The wrapping loop and the write after it emit the segments of the
    line, each followed by a line break. *)
Lemma runs_wrap_line fuel W line w :
  0 < W -> (length line <= fuel)%nat ->
  runs (wrap_loop fuel W line ≫= fun rest => emit (write_line rest)) w tt
    (write_line <$> segments fuel (Z.to_nat W) line).
Proof.
  intros HW. revert line w.
  induction fuel as [| fuel IH]; intros line w Hfuel.
  - destruct line; [| simpl in Hfuel; lia].
    simpl. destruct (Z.gtb_spec (len (@nil N)) W) as [H | _];
      [unfold len in H; simpl in H; lia |].
    reflexivity.
  - simpl. destruct (Z.gtb_spec (len line) W) as [Hlong | Hfits];
      destruct (Nat.ltb_spec (Z.to_nat W) (length line)) as [Hlong' | Hfits'];
      unfold len in *; try lia.
    + rewrite fmap_cons.
      change (write_line (take (Z.to_nat W) line)
                :: (write_line <$> segments fuel (Z.to_nat W)
                                     (drop (Z.to_nat W) line)))
        with ([write_line (take (Z.to_nat W) line)]
                ++ (write_line <$> segments fuel (Z.to_nat W)
                                     (drop (Z.to_nat W) line))).
      rewrite slice_to_take, slice_from_drop by (unfold len; lia).
      unfold runs in *. unfold mbind, io_bind in *. simpl.
      etransitivity; [apply IH; rewrite length_drop; lia |].
      f_equal. f_equal. apply (extend_extend w [_] _).
    + reflexivity.
Qed.

Lemma splitlines_from_no_linebreak n : forall s cur,
  (length s <= n)%nat ->
  Forall (fun c => is_linebreak c = false) cur ->
  Forall (Forall (fun c => is_linebreak c = false)) (splitlines_from cur s).
Proof.
  induction n as [| n IH]; intros s cur Hn Hcur.
  - destruct s; [| simpl in Hn; lia]. simpl.
    destruct cur; [constructor |].
    constructor; [by apply Forall_rev | constructor].
  - destruct s as [| c rest]; simpl.
    + destruct cur; [constructor |].
      constructor; [by apply Forall_rev | constructor].
    + simpl in Hn. destruct (is_linebreak c) eqn:Hc.
      * constructor; [by apply Forall_rev |].
        destruct rest as [| c2 rest2]; [constructor |].
        simpl in Hn.
        destruct ((c =? 13)%N && (c2 =? 10)%N);
          apply IH; simpl; try lia; constructor.
      * apply IH; [lia |]. by constructor.
Qed.

(** The lines of [splitlines] contain no line boundary. *)
Lemma splitlines_no_linebreak text :
  Forall (Forall (fun c => is_linebreak c = false)) (splitlines text).
Proof.
  by apply (splitlines_from_no_linebreak (length text)); [| constructor].
Qed.

(** On a window without columns the wrapping loop never ends. *)
Lemma wrap_loop_diverges fuel W line w :
  W <= 0 -> len line > W -> wrap_loop fuel W line w = None.
Proof.
  intros HW. revert line w. induction fuel as [| fuel IH]; intros line w Hlong.
  - simpl. by destruct (Z.gtb_spec (len line) W); [| lia].
  - simpl. destruct (Z.gtb_spec (len line) W); [| lia].
    unfold mbind, io_bind. simpl. apply IH.
    unfold slice_from, slice_index, len in *. rewrite length_drop.
    destruct (Z.ltb_spec W 0); lia.
Qed.

(** What [safe_addstr] does with [wrap = True] on a window that has
    columns. *)
Lemma runs_safe_addstr_wrap text start_newline w :
  0 < width w ->
  runs (safe_addstr text true start_newline) w tt
    (flat_map (fun line => write_line <$> wrap_segments (width w) line)
       (splitlines text)
     ++ (if start_newline then [addstr [nl]] else []) ++ [refresh]).
Proof.
  intros HW. unfold safe_addstr.
  change (flat_map _ _ ++ _ ++ [refresh])
    with ([] ++ (flat_map
                  (fun line => write_line <$> wrap_segments (width w) line)
                  (splitlines text)
                ++ (if start_newline then [addstr [nl]] else []) ++ [refresh])).
  eapply runs_bind; [apply runs_getmaxyx |]. cbv beta iota.
  rewrite extend_nil.
  eapply runs_bind.
  - apply runs_for_each. intros line evs _.
    apply (runs_wrap_line (length line) (width w) line (extend w evs));
      [done | lia].
  - cbv beta. eapply runs_bind; [| apply runs_emit].
    destruct start_newline; [apply runs_emit | apply runs_ret].
Qed.

End Renderer.

Section RendererClaims.

(** C3: on a window with columns ([width >= 1]), for every text and with
    [wrap = True], [safe_addstr] returns after writing, for each line of
    the text in turn, the segments of the line, each followed by a line
    break, then the final line break if asked for, then a refresh. The
    lines contain no line boundary; the segments of a line are pieces of
    exactly [width] characters followed by a remainder that fits, they
    make up the line, and none is longer than [width]. *)
Theorem safe_addstr_wrap_fits (text : pystr) (start_newline : bool)
    (w : world) :
  0 < width w ->
  safe_addstr text true start_newline w =
    Some (tt,
          extend w
            (flat_map
               (fun line => write_line <$> wrap_segments (width w) line)
               (splitlines text)
             ++ (if start_newline then [addstr [nl]] else [])
             ++ [refresh])) /\
  Forall (fun line =>
            Forall (fun c => is_linebreak c = false) line /\
            concat (wrap_segments (width w) line) = line /\
            Forall (fun segment => len segment <= width w)
              (wrap_segments (width w) line) /\
            exists full remainder,
              wrap_segments (width w) line = full ++ [remainder] /\
              Forall (fun segment => len segment = width w) full /\
              (full <> [] -> remainder <> []))
    (splitlines text).
Proof.
  intros Hwidth. split; [by apply runs_safe_addstr_wrap |].
  pose proof (splitlines_no_linebreak text) as Hlines.
  eapply Forall_impl; [exact Hlines |]. cbv beta. intros line Hline.
  unfold wrap_segments.
  assert (Hw : (0 < Z.to_nat (width w))%nat) by lia.
  split; [done |]. split; [apply segments_concat |]. split.
  - eapply Forall_impl;
      [apply (segments_fit _ _ line Hw (Nat.le_refl _)) |].
    cbv beta. unfold len. lia.
  - destruct (segments_shape _ _ line Hw (Nat.le_refl _))
      as (full & rem & E & Hfull & _ & Hne).
    exists full, rem. split; [done |]. split; [| done].
    eapply Forall_impl; [exact Hfull |]. cbv beta. unfold len. lia.
Qed.

Lemma safe_addstr_wrap_fits_witness :
  let w := World 24 5 [] (fun _ => []) [] in
  0 < width w /\
  safe_addstr (lit "0123456789abc" ++ [nl] ++ lit "xy") true false w =
    Some (tt,
          extend w [addstr (lit "01234" ++ [nl]); addstr (lit "56789" ++ [nl]);
                    addstr (lit "abc" ++ [nl]); addstr (lit "xy" ++ [nl]);
                    refresh]).
Proof.
  cbv zeta. split; [reflexivity |].
  exact (proj1 (safe_addstr_wrap_fits
                  (lit "0123456789abc" ++ [nl] ++ lit "xy") false
                  (World 24 5 [] (fun _ => []) []) eq_refl)).
Defined.

End RendererClaims.

(* ================================================================== *)
(** * Binary64 arithmetic *)
(* ================================================================== *)

Section Floats.

(** The number of binary digits of a positive number bounds it. *)
Lemma digits2_pos_bounds p :
  2 ^ (Zpos (digits2_pos p) - 1) <= Zpos p < 2 ^ Zpos (digits2_pos p).
Proof.
  induction p as [p IH | p IH |]; simpl digits2_pos;
    rewrite ?Pos2Z.inj_succ, ?Z.pow_succ_r by lia.
  - replace (Z.succ (Zpos (digits2_pos p)) - 1)
      with (Z.succ (Zpos (digits2_pos p) - 1)) by lia.
    rewrite Z.pow_succ_r by lia. lia.
  - replace (Z.succ (Zpos (digits2_pos p)) - 1)
      with (Z.succ (Zpos (digits2_pos p) - 1)) by lia.
    rewrite Z.pow_succ_r by lia. lia.
  - simpl. lia.
Qed.

Lemma Zdigits2_nonneg m : 0 <= Zdigits2 m.
Proof. destruct m; simpl; lia. Qed.

Lemma Zdigits2_le m k : 0 <= m -> 0 <= k -> m < 2 ^ k -> Zdigits2 m <= k.
Proof.
  intros Hm Hk Hlt. destruct m as [| p | p]; simpl; [lia | | lia].
  pose proof (digits2_pos_bounds p) as [Hlo _].
  apply Z.nlt_ge. intros Hgt.
  assert (2 ^ k <= 2 ^ (Zpos (digits2_pos p) - 1))
    by (apply Z.pow_le_mono_r; lia).
  lia.
Qed.

Lemma Zdigits2_lt_pow m : 0 <= m -> m < 2 ^ Zdigits2 m.
Proof.
  intros Hm. destruct m as [| p | p]; simpl; [lia | | lia].
  apply digits2_pos_bounds.
Qed.

Lemma Zdigits2_mono a b : 0 <= a <= b -> Zdigits2 a <= Zdigits2 b.
Proof.
  intros [Ha Hab]. apply Zdigits2_le; [done | apply Zdigits2_nonneg |].
  pose proof (Zdigits2_lt_pow b). lia.
Qed.

Lemma Zdigits2_succ a : 0 <= a -> Zdigits2 (a + 1) <= Zdigits2 a + 1.
Proof.
  intros Ha. pose proof (Zdigits2_nonneg a).
  apply Zdigits2_le; [lia | lia |].
  rewrite Z.pow_add_r by lia. pose proof (Zdigits2_lt_pow a Ha). lia.
Qed.

Lemma Zdigits2_mul a b :
  0 <= a -> 0 <= b -> Zdigits2 (a * b) <= Zdigits2 a + Zdigits2 b.
Proof.
  intros Ha Hb. pose proof (Zdigits2_nonneg a). pose proof (Zdigits2_nonneg b).
  apply Zdigits2_le; [lia | lia |].
  rewrite Z.pow_add_r by lia.
  pose proof (Zdigits2_lt_pow a Ha). pose proof (Zdigits2_lt_pow b Hb). nia.
Qed.

Lemma Zdigits2_div_pow a n :
  0 <= a -> 0 <= n -> Zdigits2 (a / 2 ^ n) <= Z.max 0 (Zdigits2 a - n).
Proof.
  intros Ha Hn. pose proof (Zdigits2_nonneg a).
  assert (0 < 2 ^ n) by (apply Z.pow_pos_nonneg; lia).
  apply Zdigits2_le; [apply Z.div_pos; lia | lia |].
  apply Z.div_lt_upper_bound; [lia |].
  pose proof (Zdigits2_lt_pow a Ha).
  destruct (Z.le_gt_cases n (Zdigits2 a)).
  - rewrite Z.max_r by lia. rewrite <- Z.pow_add_r by lia.
    replace (n + (Zdigits2 a - n)) with (Zdigits2 a) by lia. lia.
  - rewrite Z.max_l by lia. simpl.
    assert (2 ^ Zdigits2 a <= 2 ^ n) by (apply Z.pow_le_mono_r; lia). lia.
Qed.

(** Shifting right: [iter_pos] is plain iteration, and each [shr_1] halves
    a mantissa that is not negative. *)
Lemma iter_pos_iter {A} (f : A -> A) n x :
  SpecFloat.iter_pos f n x = Nat.iter (Pos.to_nat n) f x.
Proof.
  revert x. induction n as [n IH | n IH |]; intros x;
    cbn [SpecFloat.iter_pos]; [| | reflexivity].
  - rewrite !IH, Pos2Nat.inj_xI, <- Nat.iter_add.
    replace (S (2 * Pos.to_nat n))
      with (S (Pos.to_nat n + Pos.to_nat n)) by lia.
    by rewrite Nat.iter_succ_r.
  - rewrite !IH, Pos2Nat.inj_xO, <- Nat.iter_add. f_equal. lia.
Qed.

Lemma shr_1_m mrs : 0 <= shr_m mrs -> shr_m (shr_1 mrs) = shr_m mrs / 2.
Proof.
  destruct mrs as [[| [p | p |] | p] r s]; cbn [shr_1 shr_m]; intros Hm;
    try reflexivity; try lia.
  - apply Z.div_unique with 1; lia.
  - apply Z.div_unique with 0; lia.
Qed.

Lemma iter_shr_1_m n mrs :
  0 <= shr_m mrs ->
  shr_m (Nat.iter n shr_1 mrs) = shr_m mrs / 2 ^ Z.of_nat n.
Proof.
  intros Hm. induction n as [| n IH].
  - simpl. by rewrite Z.div_1_r.
  - rewrite Nat2Z.inj_succ, Z.pow_succ_r by lia. simpl Nat.iter.
    rewrite shr_1_m.
    + rewrite IH, Z.div_div by (try apply Z.pow_pos_nonneg; lia).
      f_equal. lia.
    + rewrite IH. apply Z.div_pos; [lia | apply Z.pow_pos_nonneg; lia].
Qed.

Lemma shr_fexp_bounds m e l :
  0 <= m ->
  exists mrs e',
    shr_fexp prec emax m e l = (mrs, e') /\
    0 <= shr_m mrs /\
    Zdigits2 (shr_m mrs) + e' <= Z.max (Zdigits2 m + e) (-1074) /\
    e' <= Z.max e (Z.max (Zdigits2 m + e) (-1074)).
Proof.
  intros Hm. unfold shr_fexp, shr.
  assert (Hrec : shr_m (shr_record_of_loc m l) = m)
    by (by destruct l as [| []]).
  pose proof (Zdigits2_nonneg m) as Hd.
  assert (Hfexp : fexp prec emax (Zdigits2 m + e)
                  = Z.max (Zdigits2 m + e - 53) (-1074)) by reflexivity.
  destruct (fexp prec emax (Zdigits2 m + e) - e) as [| n | n] eqn:Hn.
  - eexists _, _. split; [reflexivity |]. rewrite Hrec. lia.
  - eexists _, _. split; [reflexivity |].
    rewrite iter_pos_iter, iter_shr_1_m, Hrec, positive_nat_Z by lia.
    pose proof (Zdigits2_div_pow m (Zpos n) Hm ltac:(lia)).
    split; [apply Z.div_pos; [lia | apply Z.pow_pos_nonneg; lia] |]. lia.
  - eexists _, _. split; [reflexivity |]. rewrite Hrec. lia.
Qed.

Lemma round_nearest_even_bounds m l :
  m <= round_nearest_even m l <= m + 1.
Proof. destruct l as [| []]; simpl; try destruct (Z.even m); lia. Qed.

(** Rounding a mantissa and an exponent of moderate size gives a zero or a
    finite number, of about the same size. *)
Lemma binary_round_aux_small s m e l B :
  0 <= m -> 0 <= B <= 900 -> Zdigits2 m + e <= B -> e <= B ->
  small (B + 1) (binary_round_aux prec emax s m e l).
Proof.
  intros Hm HB Hd He. unfold binary_round_aux.
  destruct (shr_fexp_bounds m e l Hm) as (mrs1 & e1 & -> & Hm1 & Hd1 & He1).
  pose proof (round_nearest_even_bounds (shr_m mrs1)
                (loc_of_shr_record mrs1)) as Hround.
  set (m1 := round_nearest_even (shr_m mrs1) (loc_of_shr_record mrs1)) in *.
  assert (Hdm1 : Zdigits2 m1 <= Zdigits2 (shr_m mrs1) + 1).
  { etransitivity; [apply (Zdigits2_mono m1 (shr_m mrs1 + 1)); lia |].
    by apply Zdigits2_succ. }
  destruct (shr_fexp_bounds m1 e1 loc_Exact ltac:(lia))
    as (mrs2 & e2 & -> & Hm2 & Hd2 & He2).
  destruct (shr_m mrs2) as [| m2 | m2] eqn:Em2; simpl; [done | | lia].
  destruct (Z.leb_spec e2 (emax - prec)) as [_ | Hbig]; simpl.
  - simpl in Hd2. lia.
  - unfold emax, prec in Hbig. lia.
Qed.

Lemma SFdiv_small sx mx ex sy my ey B :
  0 <= B <= 900 -> Zdigits2 (Zpos mx) + ex - ey <= B -> ex - ey <= B ->
  small (B + 1)
    (SFdiv prec emax (S754_finite sx mx ex) (S754_finite sy my ey)).
Proof.
  intros HB Hd He. unfold SFdiv, SFdiv_core_binary.
  set (e' := Z.min _ _).
  assert (He' : e' <= ex - ey) by (unfold e'; lia).
  set (m' := match ex - ey - e' with
             | 0 => Zpos mx
             | Zpos _ => Z.shiftl (Zpos mx) (ex - ey - e')
             | Zneg _ => 0
             end).
  assert (Hm' : 0 <= m' /\ Zdigits2 m' <= Zdigits2 (Zpos mx) + (ex - ey - e')).
  { unfold m'. destruct (ex - ey - e') as [| n | n] eqn:En; [lia | | lia].
    rewrite Z.shiftl_mul_pow2 by lia.
    assert (0 < 2 ^ Zpos n) by (apply Z.pow_pos_nonneg; lia).
    split; [lia |].
    apply Zdigits2_le; [nia | pose proof (Zdigits2_nonneg (Zpos mx)); lia |].
    rewrite Z.pow_add_r by (try apply Zdigits2_nonneg; lia).
    pose proof (Zdigits2_lt_pow (Zpos mx) ltac:(lia)). nia. }
  pose proof (Z_div_mod m' (Zpos my) ltac:(lia)) as Hdiv.
  destruct (Z.div_eucl m' (Zpos my)) as [q r].
  destruct Hdiv as [Hq Hr]. destruct Hm' as [Hm0 Hmd].
  assert (0 <= q <= m') by nia.
  apply binary_round_aux_small; [lia | done | | lia].
  pose proof (Zdigits2_mono q m' ltac:(lia)). lia.
Qed.

Lemma SFmul_small x y B1 B2 :
  small B1 x -> small B2 y -> 0 <= B1 + B2 <= 900 ->
  small (B1 + B2 + 1) (SFmul prec emax x y).
Proof.
  intros Hx Hy HB.
  destruct x as [sx | sx | | sx mx ex], y as [sy | sy | | sy my ey];
    try done.
  destruct Hx as [Hdx Hex], Hy as [Hdy Hey]. unfold SFmul.
  apply binary_round_aux_small; [lia | done | | lia].
  rewrite Pos2Z.inj_mul.
  pose proof (Zdigits2_mul (Zpos mx) (Zpos my) ltac:(lia) ltac:(lia)). lia.
Qed.

Lemma int_of_float_small B f : small B f -> is_Some (int_of_float f).
Proof. destruct f; simpl; by eauto. Qed.

(** ** Exact cases *)

Lemma digits2_pos_iter_xO p k :
  digits2_pos (Pos.iter xO p k) = (digits2_pos p + k)%positive.
Proof.
  induction k as [| k IH] using Pos.peano_ind.
  - simpl. lia.
  - rewrite Pos.iter_succ. simpl. rewrite IH. lia.
Qed.

Lemma Zpos_iter_xO p k : Zpos (Pos.iter xO p k) = Zpos p * 2 ^ Zpos k.
Proof.
  induction k as [| k IH] using Pos.peano_ind.
  - simpl. lia.
  - rewrite Pos.iter_succ, Pos2Z.inj_xO, IH, Pos2Z.inj_succ,
      Z.pow_succ_r by lia. lia.
Qed.

(** A mantissa of 53 digits with an exponent in range is kept as it is. *)
Lemma binary_round_aux_aligned s m e :
  digits2_pos m = 53%positive -> -1074 <= e <= 971 ->
  binary_round_aux prec emax s (Zpos m) e loc_Exact = S754_finite s m e.
Proof.
  intros Hd He. unfold binary_round_aux, shr_fexp, fexp, emin. simpl Zdigits2.
  rewrite Hd.
  replace (Z.max (53 + e - prec) (3 - emax - prec) - e) with 0
    by (unfold prec, emax; lia).
  simpl. rewrite Hd.
  replace (Z.max (53 + e - prec) (3 - emax - prec) - e) with 0
    by (unfold prec, emax; lia).
  simpl. destruct (Z.leb_spec e (emax - prec)) as [_ | Hbig]; [done |].
  unfold prec, emax in Hbig. lia.
Qed.

(** [float(n)] is exact below [2^53]: the mantissa is [n] shifted to 53
    digits. *)
Lemma float_of_int_pos p :
  Zpos p < 2 ^ 53 ->
  exists m e,
    float_of_int (Zpos p) = Some (S754_finite false m e) /\
    digits2_pos m = 53%positive /\ -52 <= e <= 0 /\
    Zpos m = Zpos p * 2 ^ (- e).
Proof.
  intros Hp. pose proof (digits2_pos_bounds p) as [Hlo Hhi].
  assert (Hd : Zpos (digits2_pos p) <= 53).
  { apply (Zdigits2_le (Zpos p)); lia. }
  unfold float_of_int, binary_normalize, binary_round, shl_align, fexp, emin.
  replace (Z.max (Zpos (digits2_pos p) + 0 - prec) (3 - emax - prec) - 0)
    with (Zpos (digits2_pos p) - 53) by (unfold prec, emax; lia).
  replace (Z.max (Zpos (digits2_pos p) + 0 - prec) (3 - emax - prec))
    with (Zpos (digits2_pos p) - 53) by (unfold prec, emax; lia).
  destruct (Zpos (digits2_pos p) - 53) as [| k | k] eqn:Ek; [| lia |].
  - exists p, 0. rewrite binary_round_aux_aligned by lia.
    repeat split; [lia | lia | lia | simpl; lia].
  - exists (Pos.iter xO p k), (Zneg k).
    assert (Hk : digits2_pos (Pos.iter xO p k) = 53%positive)
      by (rewrite digits2_pos_iter_xO; lia).
    rewrite binary_round_aux_aligned by (try done; lia).
    repeat split; [done | lia | lia |]. apply Zpos_iter_xO.
Qed.

Lemma int_of_float_exact s m e n :
  -52 <= e <= 0 -> Zpos m = n * 2 ^ (- e) ->
  int_of_float (S754_finite s m e) = Some (if s then - n else n).
Proof.
  intros He Hm. unfold int_of_float.
  assert (0 < 2 ^ (- e)) by (apply Z.pow_pos_nonneg; lia).
  destruct (Z.leb_spec 0 e).
  - assert (e = 0) as -> by lia.
    change (2 ^ (- 0)) with 1 in Hm. change (2 ^ 0) with 1.
    rewrite Z.mul_1_r in *. by rewrite Hm.
  - rewrite Hm, Z.div_mul by lia. done.
Qed.

(** [x / x] is exactly 1.0. *)
Lemma SFdiv_self s m e :
  SFdiv prec emax (S754_finite s m e) (S754_finite s m e)
    = S754_finite false 4503599627370496 (-52).
Proof.
  unfold SFdiv, SFdiv_core_binary. rewrite !Z.sub_diag.
  change (Z.min (fexp prec emax 0) 0) with (-53).
  change (0 - -53) with 53. cbv iota.
  rewrite Z.shiftl_mul_pow2 by lia.
  assert (Hdiv : Z.div_eucl (Zpos m * 2 ^ 53) (Zpos m) = (2 ^ 53, 0)).
  { pose proof (Z.div_mul (2 ^ 53) (Zpos m) ltac:(lia)) as Hq.
    pose proof (Z.mod_mul (2 ^ 53) (Zpos m) ltac:(lia)) as Hr.
    rewrite (Z.mul_comm (Zpos m)). unfold Z.div, Z.modulo in Hq, Hr.
    destruct (Z.div_eucl (2 ^ 53 * Zpos m) (Zpos m)) as [q r].
    by rewrite Hq, Hr. }
  rewrite Hdiv.
  rewrite xorb_nilpotent.
  assert (Hloc : new_location (Zpos m) 0 = loc_Exact).
  { unfold new_location. by destruct (Z.even (Zpos m)). }
  rewrite Hloc. reflexivity.
Qed.

Lemma iter_shr_1_iter_xO k p :
  SpecFloat.iter_pos shr_1 k
    (Build_shr_record (Zpos (Pos.iter xO p k)) false false)
  = Build_shr_record (Zpos p) false false.
Proof.
  rewrite iter_pos_iter. induction k as [| k IH] using Pos.peano_ind.
  - reflexivity.
  - rewrite Pos.iter_succ, Pos2Nat.inj_succ, Nat.iter_succ_r. exact IH.
Qed.

Lemma shr_fexp_aligned m e l :
  digits2_pos m = 53%positive -> -1074 <= e ->
  shr_fexp prec emax (Zpos m) e l = (shr_record_of_loc (Zpos m) l, e).
Proof.
  intros Hd He. unfold shr_fexp, fexp, emin. cbn [Zdigits2]. rewrite Hd.
  replace (Z.max (53 + e - prec) (3 - emax - prec) - e) with 0
    by (unfold prec, emax; lia).
  reflexivity.
Qed.

Lemma shr_fexp_iter_xO m e k :
  digits2_pos m = 53%positive -> -1074 <= e ->
  shr_fexp prec emax (Zpos (Pos.iter xO m k)) (e - Zpos k) loc_Exact
  = (Build_shr_record (Zpos m) false false, e).
Proof.
  intros Hd He. unfold shr_fexp, fexp, emin. cbn [Zdigits2].
  rewrite digits2_pos_iter_xO, Hd.
  replace (Z.max (Zpos (53 + k) + (e - Zpos k) - prec) (3 - emax - prec)
           - (e - Zpos k)) with (Zpos k) by (unfold prec, emax; lia).
  unfold shr. cbn [shr_record_of_loc]. rewrite iter_shr_1_iter_xO.
  f_equal. lia.
Qed.

(** [x * 1.0] is [x]. *)
Lemma SFmul_one_r s m e :
  digits2_pos m = 53%positive -> -1074 <= e <= 971 ->
  SFmul prec emax (S754_finite s m e)
    (S754_finite false 4503599627370496 (-52))
  = S754_finite s m e.
Proof.
  intros Hd He. unfold SFmul.
  assert (Hm : (m * 4503599627370496)%positive = Pos.iter xO m 52).
  { apply Pos2Z.inj. rewrite Zpos_iter_xO, Pos2Z.inj_mul. reflexivity. }
  rewrite Hm, xorb_false_r. unfold binary_round_aux.
  replace (e + -52) with (e - 52) by lia.
  rewrite shr_fexp_iter_xO by (try done; lia).
  cbn [shr_m loc_of_shr_record round_nearest_even].
  rewrite shr_fexp_aligned by (try done; lia).
  cbn [shr_m shr_record_of_loc].
  destruct (Z.leb_spec e (emax - prec)) as [_ | Hbig]; [done |].
  unfold prec, emax in Hbig. lia.
Qed.

(** ** The float of an [int] that is not zero *)

Lemma Zdigits2_lower m : 0 < m -> 2 ^ (Zdigits2 m - 1) <= m.
Proof.
  destruct m as [| p | p]; [lia | | lia]. intros _. simpl.
  apply digits2_pos_bounds.
Qed.

(** Shifting a positive mantissa to its format leaves it positive. *)
Lemma shr_fexp_pos m e l :
  0 < m -> -1074 <= e ->
  exists mrs e',
    shr_fexp prec emax m e l = (mrs, e') /\ 0 < shr_m mrs /\ -1074 <= e'.
Proof.
  intros Hm He. unfold shr_fexp, shr.
  assert (Hrec : shr_m (shr_record_of_loc m l) = m)
    by (by destruct l as [| []]).
  assert (Hfexp : fexp prec emax (Zdigits2 m + e)
                  = Z.max (Zdigits2 m + e - 53) (-1074)) by reflexivity.
  pose proof (Zdigits2_lower m Hm) as Hlow.
  pose proof (Zdigits2_nonneg m) as Hd.
  destruct (fexp prec emax (Zdigits2 m + e) - e) as [| n | n] eqn:Hn.
  - eexists _, _. split; [reflexivity |]. rewrite Hrec. lia.
  - eexists _, _. split; [reflexivity |].
    rewrite iter_pos_iter, iter_shr_1_m, Hrec, positive_nat_Z by lia.
    split; [| lia].
    assert (Hn' : Zpos n = Zdigits2 m - 53) by lia.
    apply Z.div_str_pos. split; [apply Z.pow_pos_nonneg; lia |].
    etransitivity; [| exact Hlow]. apply Z.pow_le_mono_r; lia.
  - eexists _, _. split; [reflexivity |]. rewrite Hrec. lia.
Qed.

(** Rounding a positive mantissa whose exponent is not below the least
    one gives a finite number or an infinity. *)
Lemma binary_round_aux_pos s m e l :
  0 < m -> -1074 <= e ->
  match binary_round_aux prec emax s m e l with
  | S754_finite _ _ _ | S754_infinity _ => True
  | _ => False
  end.
Proof.
  intros Hm He. unfold binary_round_aux.
  destruct (shr_fexp_pos m e l Hm He) as (mrs1 & e1 & -> & Hm1 & He1).
  pose proof (round_nearest_even_bounds (shr_m mrs1)
                (loc_of_shr_record mrs1)) as Hround.
  destruct (shr_fexp_pos
              (round_nearest_even (shr_m mrs1) (loc_of_shr_record mrs1))
              e1 loc_Exact ltac:(lia) He1)
    as (mrs2 & e2 & -> & Hm2 & He2).
  destruct (shr_m mrs2) as [| m2 | m2]; [lia | | lia].
  by destruct (e2 <=? emax - prec).
Qed.

(** [float(n)] of an [int] that is not zero, when it does not overflow, is
    a finite number that is not a zero. *)
Lemma float_of_int_finite n y :
  n <> 0 -> float_of_int n = Some y ->
  exists s m e, y = S754_finite s m e.
Proof.
  intros Hn. unfold float_of_int, binary_normalize.
  assert (Hround : forall s p,
            match binary_round prec emax s p 0 with
            | S754_finite _ _ _ | S754_infinity _ => True
            | _ => False
            end).
  { intros s p. unfold binary_round.
    destruct (shl_align p 0 (fexp prec emax (Zpos (digits2_pos p) + 0)))
      as [mz ez] eqn:E.
    apply binary_round_aux_pos; [lia |].
    unfold shl_align, fexp, emin in E.
    destruct (Z.max (Zpos (digits2_pos p) + 0 - prec) (3 - emax - prec) - 0)
      eqn:Ed; injection E as <- <-; unfold prec, emax in *; lia. }
  destruct n as [| p | p]; [done | |].
  - specialize (Hround false p).
    destruct (binary_round prec emax false p 0); try done.
    intros [= <-]. by eexists _, _, _.
  - specialize (Hround true p).
    destruct (binary_round prec emax true p 0); try done.
    intros [= <-]. by eexists _, _, _.
Qed.

End Floats.

(* ================================================================== *)
(** * Properties of the progress indicator *)
(* ================================================================== *)

Section Progress.

Lemma float_of_int_small n :
  0 <= n < 2 ^ 53 -> exists f, float_of_int n = Some f /\ int_float n f.
Proof.
  intros Hn. destruct n as [| p | p]; [| | lia].
  - by exists (S754_zero false).
  - destruct (float_of_int_pos p) as (m & e & -> & Hm); [lia |].
    eexists. split; [reflexivity |]. simpl. tauto.
Qed.

Lemma int_float_small n f : int_float n f -> small 53 f.
Proof.
  destruct f as [| | | s m e]; simpl; try tauto.
  intros (_ & -> & He & _). lia.
Qed.

Lemma int_of_float_int_float n f : int_float n f -> int_of_float f = Some n.
Proof.
  destruct f as [s | | | s m e]; simpl int_float; try tauto.
  - by intros [-> _].
  - intros (-> & _ & He & Hm). by rewrite (int_of_float_exact _ _ _ n).
Qed.

(** The quotient of two such floats is a zero or a finite number. *)
Lemma float_div_small a b x y :
  int_float a x -> int_float b y -> b <> 0 ->
  exists q, float_div x y = Some q /\ small 106 q.
Proof.
  intros Hx Hy Hb.
  destruct y as [sy | | | sy my ey]; simpl in Hy; try tauto.
  destruct Hy as (_ & Hdy & Hey & _).
  destruct x as [sx | | | sx mx ex]; simpl in Hx; try tauto.
  - eexists. split; [reflexivity | done].
  - destruct Hx as (_ & Hdx & Hex & _). eexists. split; [reflexivity |].
    apply (SFdiv_small _ _ _ _ _ _ 105); simpl; rewrite ?Hdx; lia.
Qed.

(** In range, the proportion is computed without a fault. *)
Lemma percentage_small current total :
  0 <= current < 2 ^ 53 -> 0 <= total < 2 ^ 53 ->
  exists p,
    percentage current total = Some p /\
    match p with
    | Int k => k = 0 /\ total = 0
    | Float q =>
        small 106 q /\ total <> 0 /\
        exists x y,
          float_of_int current = Some x /\ float_of_int total = Some y /\
          q = SFdiv prec emax x y
    end.
Proof.
  intros Hc Ht. unfold percentage.
  destruct (Z.eqb_spec total 0) as [-> | Hne]; [by exists (Int 0) |].
  destruct (float_of_int_small current Hc) as (x & Ex & Hx).
  destruct (float_of_int_small total Ht) as (y & Ey & Hy).
  destruct (float_div_small current total x y Hx Hy Hne) as (q & Eq & Hq).
  exists (Float q). rewrite Ex, Ey. simpl. rewrite Eq. simpl.
  split; [done |]. split; [done |]. split; [done |].
  exists x, y. split; [done |]. split; [done |].
  unfold float_div in Eq. destruct y; congruence.
Qed.

Lemma int_mul_float bar_length q :
  0 <= bar_length < 2 ^ 53 -> small 106 q ->
  exists g filled,
    float_of_int bar_length = Some g /\
    int_of_float (SFmul prec emax g q) = Some filled /\
    int_mul bar_length (Float q) ≫= int = Some filled.
Proof.
  intros Hb Hq. destruct (float_of_int_small bar_length Hb) as (g & Eg & Hg).
  pose proof (SFmul_small g q 53 106 (int_float_small _ _ Hg) Hq ltac:(lia))
    as Hsmall.
  destruct (int_of_float_small _ _ Hsmall) as [filled Efilled].
  exists g, filled. simpl. rewrite Eg. simpl. by rewrite Efilled.
Qed.

Lemma mul_int_float q n :
  0 <= n < 2 ^ 53 -> small 106 q ->
  exists g k,
    float_of_int n = Some g /\
    int_of_float (SFmul prec emax q g) = Some k /\
    mul_int (Float q) n ≫= int = Some k.
Proof.
  intros Hn Hq. destruct (float_of_int_small n Hn) as (g & Eg & Hg).
  pose proof (SFmul_small q g 106 53 Hq (int_float_small _ _ Hg) ltac:(lia))
    as Hsmall.
  destruct (int_of_float_small _ _ Hsmall) as [k Ek].
  exists g, k. simpl. rewrite Eg. simpl. by rewrite Ek.
Qed.

(** With [current = total] the proportion is exactly 1.0, for every
    [total] but zero that [float()] takes. *)
Lemma percentage_full total y :
  total <> 0 -> float_of_int total = Some y ->
  percentage total total = Some (Float one).
Proof.
  intros Ht Ey. unfold percentage.
  destruct (Z.eqb_spec total 0) as [-> | _]; [done |].
  destruct (float_of_int_finite total y Ht Ey) as (sy & my & ey & ->).
  rewrite Ey. cbn [mbind option_bind float_div]. by rewrite SFdiv_self.
Qed.

Lemma int_mul_one bar_length :
  0 <= bar_length < 2 ^ 53 ->
  int_mul bar_length (Float one) ≫= int = Some bar_length.
Proof.
  intros Hb. destruct (float_of_int_small bar_length Hb) as (g & Eg & Hg).
  simpl. rewrite Eg. simpl.
  destruct g as [sg | | | sg mg eg]; simpl in Hg; try tauto.
  - by destruct Hg as [-> ->].
  - destruct Hg as (-> & Hd & He & Hm). unfold one.
    rewrite SFmul_one_r by (try done; lia).
    by rewrite (int_of_float_exact _ _ _ bar_length).
Qed.

(** From [2^53] on a bar width need not be a float: with the proportion
    1.0 the width [2^53 + 1] gives [2^53] filled glyphs. *)
Lemma int_mul_one_rounds :
  int_mul (2 ^ 53 + 1) (Float one) ≫= int = Some (2 ^ 53).
Proof. vm_compute. reflexivity. Qed.

(** ** The strings of the bar *)

Lemma len_str_mul c n : len (str_mul c n) = Z.max 0 n.
Proof. unfold len, str_mul. rewrite length_replicate. lia. Qed.

Lemma str_repeat_built no_memory c n :
  (0 < n -> no_memory n = false) ->
  str_repeat no_memory c n = Some (str_mul c n).
Proof.
  intros Hn. unfold str_repeat.
  destruct (Z.ltb_spec 0 n) as [Hpos | _]; [| done]. by rewrite Hn.
Qed.

Lemma built_memory no_memory s :
  (0 < len s -> no_memory (len s) = false) -> built no_memory s = Some s.
Proof.
  intros Hs. unfold built.
  destruct (Z.ltb_spec 0 (len s)) as [Hpos | _]; [| done]. by rewrite Hs.
Qed.

Lemma str_repeat_inv no_memory c n s :
  str_repeat no_memory c n = Some s -> s = str_mul c n.
Proof. unfold str_repeat. destruct (_ && _); congruence. Qed.

Lemma built_inv no_memory s r : built no_memory s = Some r -> r = s.
Proof. unfold built. destruct (_ && _); congruence. Qed.

(** The progress bar is drawn without a fault for counters in range, when
    the interpreter has the memory for its strings. *)
Lemma progress_texts_total no_memory current total bar_length :
  (forall n, no_memory n = false) ->
  0 <= current < 2 ^ 53 -> 0 <= total < 2 ^ 53 ->
  0 <= bar_length < 2 ^ 53 ->
  is_Some (progress_texts no_memory current total bar_length).
Proof.
  intros Hmem Hc Ht Hb. unfold progress_texts.
  assert (Hbar : forall filled_length,
            (str_repeat no_memory 61 filled_length ≫= fun filled =>
             str_repeat no_memory 45 (bar_length - filled_length)
             ≫= fun unfilled => built no_memory (filled ++ unfilled))
            = Some (str_mul 61 filled_length
                    ++ str_mul 45 (bar_length - filled_length))).
  { intros filled_length.
    rewrite !str_repeat_built by (intros _; apply Hmem).
    cbn [mbind option_bind]. apply built_memory. intros _. apply Hmem. }
  destruct (percentage_small current total Hc Ht) as ([k | q] & -> & Hp).
  - cbn [mbind option_bind int_mul mul_int int].
    generalize (Hbar (bar_length * k)). cbn [mbind option_bind].
    destruct (str_repeat no_memory 61 (bar_length * k)) as [filled |];
      [| done].
    cbn [mbind option_bind].
    destruct (str_repeat no_memory 45 _) as [unfilled |]; [| done].
    cbn [mbind option_bind]. intros ->. by eexists.
  - destruct Hp as (Hq & _).
    destruct (int_mul_float bar_length q Hb Hq) as (_ & filled & _ & _ & E1).
    destruct (mul_int_float q 100 ltac:(lia) Hq) as (_ & pc & _ & _ & E2).
    cbn [mbind option_bind] in *. rewrite E1. cbn [mbind option_bind].
    generalize (Hbar filled). cbn [mbind option_bind].
    destruct (str_repeat no_memory 61 filled) as [f |]; [| done].
    cbn [mbind option_bind].
    destruct (str_repeat no_memory 45 _) as [u |]; [| done].
    cbn [mbind option_bind]. intros ->. cbn [mbind option_bind].
    rewrite E2. by eexists.
Qed.

Lemma float_div_eq x y q : float_div x y = Some q -> q = SFdiv prec emax x y.
Proof. unfold float_div. destruct y; congruence. Qed.

(** The bar, when its strings are built. *)
Lemma bar_inv no_memory bar_length filled_length (A : Type)
    (k : pystr -> option A) (r : A) :
  (str_repeat no_memory 61 filled_length ≫= fun filled =>
   str_repeat no_memory 45 (bar_length - filled_length) ≫= fun unfilled =>
   built no_memory (filled ++ unfilled) ≫= k) = Some r ->
  k (str_mul 61 filled_length ++ str_mul 45 (bar_length - filled_length))
  = Some r.
Proof.
  destruct (str_repeat no_memory 61 filled_length) as [f |] eqn:Ef;
    [| done].
  apply str_repeat_inv in Ef as ->. cbn [mbind option_bind].
  destruct (str_repeat no_memory 45 _) as [u |] eqn:Eu; [| done].
  apply str_repeat_inv in Eu as ->. cbn [mbind option_bind].
  destruct (built no_memory _) as [b |] eqn:Eb; [| done].
  by apply built_inv in Eb as ->.
Qed.

(** What [progress_texts] returns, when it returns. *)
Lemma progress_texts_inv no_memory current total bar_length bar
    percent_text :
  progress_texts no_memory current total bar_length
    = Some (bar, percent_text) ->
  exists filled percent,
    bar = str_mul 61 filled ++ str_mul 45 (bar_length - filled) /\
    percent_text = str_of_int percent ++ lit "%" /\
    (total = 0 -> filled = 0 /\ percent = 0) /\
    (total <> 0 ->
     exists x y g h,
       float_of_int current = Some x /\ float_of_int total = Some y /\
       float_of_int bar_length = Some g /\ float_of_int 100 = Some h /\
       int_of_float (SFmul prec emax g (SFdiv prec emax x y))
         = Some filled /\
       int_of_float (SFmul prec emax (SFdiv prec emax x y) h)
         = Some percent).
Proof.
  unfold progress_texts, percentage.
  destruct (Z.eqb_spec total 0) as [-> | Hne].
  - cbn [mbind option_bind int_mul mul_int int]. intros Hrun.
    apply bar_inv in Hrun. injection Hrun as <- <-.
    exists (bar_length * 0), (0 * 100).
    split; [done |]. split; [done |]. split; [lia | done].
  - destruct (float_of_int current) as [x |]; [| done].
    destruct (float_of_int total) as [y |]; [| done].
    cbn [mbind option_bind].
    destruct (float_div x y) as [q |] eqn:Eq; [| done].
    apply float_div_eq in Eq as ->.
    cbn [mbind option_bind int_mul mul_int int].
    destruct (float_of_int bar_length) as [g |]; [| done].
    cbn [mbind option_bind int].
    destruct (int_of_float (SFmul prec emax g _)) as [filled |] eqn:Ef;
      [| done].
    cbn [mbind option_bind]. intros Hrun. apply bar_inv in Hrun.
    revert Hrun.
    destruct (float_of_int 100) as [h |]; [| done].
    cbn [mbind option_bind int].
    destruct (int_of_float (SFmul prec emax _ h)) as [percent |] eqn:Ep;
      [| done].
    cbn [mbind option_bind]. intros [= <- <-].
    exists filled, percent. split; [done |]. split; [done |].
    split; [done |]. intros _. by exists x, y, g, h.
Qed.

Lemma progress_texts_zero_total no_memory current bar_length :
  (0 < bar_length -> no_memory bar_length = false) ->
  progress_texts no_memory current 0 bar_length
    = Some (str_mul 45 bar_length, lit "0%").
Proof.
  intros Hmem. unfold progress_texts, percentage.
  cbn [Z.eqb mbind option_bind int_mul mul_int int].
  rewrite Z.mul_0_r, Z.sub_0_r.
  rewrite (str_repeat_built no_memory 61 0) by lia.
  rewrite (str_repeat_built no_memory 45 bar_length) by done.
  cbn [mbind option_bind]. change (str_mul 61 0) with (@nil N).
  cbn [app]. rewrite built_memory; [done |].
  rewrite len_str_mul. intros Hpos. rewrite Z.max_r by lia. apply Hmem. lia.
Qed.

Lemma progress_texts_full no_memory total bar_length :
  total <> 0 -> is_Some (float_of_int total) ->
  0 <= bar_length < 2 ^ 53 ->
  (0 < bar_length -> no_memory bar_length = false) ->
  progress_texts no_memory total total bar_length
    = Some (str_mul 61 bar_length, lit "100%").
Proof.
  intros Ht [y Ey] Hb Hmem. unfold progress_texts.
  rewrite (percentage_full total y Ht Ey).
  cbn [mbind option_bind].
  pose proof (int_mul_one bar_length Hb) as E. cbn [mbind option_bind] in E.
  rewrite E. cbn [mbind option_bind].
  rewrite Z.sub_diag.
  rewrite (str_repeat_built no_memory 61 bar_length) by done.
  rewrite (str_repeat_built no_memory 45 0) by lia.
  cbn [mbind option_bind]. change (str_mul 45 0) with (@nil N).
  rewrite app_nil_r. rewrite built_memory; [done |].
  rewrite len_str_mul. intros Hpos. rewrite Z.max_r by lia. apply Hmem. lia.
Qed.

(** A bar that the interpreter cannot build is a fault. *)
Lemma progress_texts_no_memory no_memory current bar_length :
  0 < bar_length -> no_memory bar_length = true ->
  progress_texts no_memory current 0 bar_length = None.
Proof.
  intros Hpos Hmem. unfold progress_texts, percentage.
  cbn [Z.eqb mbind option_bind int_mul mul_int int].
  rewrite Z.mul_0_r, Z.sub_0_r.
  rewrite (str_repeat_built no_memory 61 0) by lia.
  cbn [mbind option_bind]. unfold str_repeat.
  destruct (Z.ltb_spec 0 bar_length); [| lia]. by rewrite Hmem.
Qed.

End Progress.

Section ProgressClaims.

(** C5, as the specification states it with exact floors, fails: for 29 of
    100 the percentage drawn is 28%, because the proportion and its
    products are binary64 numbers: 0.29 * 100 is 28.999999999999996. *)
Lemma progress_29_of_100_shows_28 :
  progress_texts (fun _ => false) 29 100 40 =
    Some (str_mul 61 11 ++ str_mul 45 29, lit "28%") /\
  spec_filled 29 100 40 = 11 /\ spec_percent 29 100 = 29 /\
  progress_texts (fun _ => false) 29 100 40 <>
    Some (str_mul 61 (spec_filled 29 100 40)
            ++ str_mul 45 (40 - spec_filled 29 100 40),
          str_of_int (spec_percent 29 100) ++ lit "%").
Proof.
  split; [vm_compute; reflexivity |]. split; [reflexivity |].
  split; [reflexivity |]. vm_compute. discriminate.
Qed.

(** C5 (amended): the progress indicator draws [filled] glyphs [=]
    followed by [bar_length - filled] glyphs [-], and the text of [percent]
    followed by [%], where in binary64 arithmetic (every operation rounded
    to nearest) [filled] is [bar_length * (current / total)] truncated and
    [percent] is [(current / total) * 100] truncated. With [total = 0] the
    proportion is 0, the bar is empty and the text is 0%, with no
    division. With [current = total], for every [total] but zero that
    [float()] takes and a bar width below [2^53], the bar is full and the
    text is 100%. Both hold when the interpreter can build a string as
    long as the bar ([no_memory] tells which strings it cannot); under
    that condition on every length, counters and a bar width below [2^53]
    give the texts without a fault. *)
Theorem progress_texts_binary64 (no_memory : Z -> bool)
    (current total bar_length : Z) :
  ((forall n, no_memory n = false) ->
   0 <= current < 2 ^ 53 -> 0 <= total < 2 ^ 53 ->
   0 <= bar_length < 2 ^ 53 ->
   is_Some (progress_texts no_memory current total bar_length)) /\
  (forall bar percent_text,
     progress_texts no_memory current total bar_length
       = Some (bar, percent_text) ->
     exists filled percent,
       bar = str_mul 61 filled ++ str_mul 45 (bar_length - filled) /\
       percent_text = str_of_int percent ++ lit "%" /\
       (total = 0 -> filled = 0 /\ percent = 0) /\
       (total <> 0 ->
        exists x y g h,
          float_of_int current = Some x /\ float_of_int total = Some y /\
          float_of_int bar_length = Some g /\ float_of_int 100 = Some h /\
          int_of_float (SFmul prec emax g (SFdiv prec emax x y))
            = Some filled /\
          int_of_float (SFmul prec emax (SFdiv prec emax x y) h)
            = Some percent)) /\
  (total = 0 -> (0 < bar_length -> no_memory bar_length = false) ->
   progress_texts no_memory current total bar_length
     = Some (str_mul 45 bar_length, lit "0%")) /\
  (total <> 0 -> is_Some (float_of_int total) ->
   0 <= bar_length < 2 ^ 53 ->
   (0 < bar_length -> no_memory bar_length = false) -> current = total ->
   progress_texts no_memory current total bar_length
     = Some (str_mul 61 bar_length, lit "100%")).
Proof.
  split; [apply progress_texts_total |].
  split; [apply progress_texts_inv |]. split.
  - intros -> Hmem. by apply progress_texts_zero_total.
  - intros Ht Hy Hb Hmem ->. by apply progress_texts_full.
Qed.

Lemma progress_texts_binary64_witness :
  let no_memory := fun n : Z => 1000 <? n in
  (is_Some (progress_texts (fun _ => false) 7 10 40)) /\
  (- (2 ^ 60) - 1 <> 0 /\ is_Some (float_of_int (- (2 ^ 60) - 1)) /\
   progress_texts no_memory (- (2 ^ 60) - 1) (- (2 ^ 60) - 1) 40
     = Some (str_mul 61 40, lit "100%")) /\
  progress_texts no_memory 10 0 40 = Some (str_mul 45 40, lit "0%").
Proof.
  cbv zeta. split; [| split].
  - apply (proj1 (progress_texts_binary64 (fun _ => false) 7 10 40));
      [done | lia | lia | lia].
  - split; [lia |]. split; [by eexists |].
    apply (proj2 (proj2 (proj2 (progress_texts_binary64
                                  (fun n => 1000 <? n)
                                  (- (2 ^ 60) - 1) (- (2 ^ 60) - 1) 40))));
      [lia | by eexists | lia | done | reflexivity].
  - apply (proj1 (proj2 (proj2 (progress_texts_binary64
                                  (fun n => 1000 <? n) 10 0 40))));
      [reflexivity | done].
Defined.

End ProgressClaims.

(* ================================================================== *)
(** * Properties of the URL checks *)
(* ================================================================== *)

Section UrlLemmas.

(** [rstrip("/")] removes trailing slashes, all of them, and nothing
    else. *)
Lemma rstrip_slash_spec s :
  exists k : nat,
    s = rstrip_slash s ++ replicate k slash /\
    last (rstrip_slash s) <> Some slash.
Proof.
  induction s as [| c rest (k & E & Hlast)]; [by exists O |].
  simpl. destruct (rstrip_slash rest) as [| d r] eqn:Er.
  - destruct (N.eqb_spec c slash) as [-> | Hc].
    + exists (S k). simpl in *. by rewrite <- E.
    + exists k. simpl in *. rewrite <- E. split; [done | congruence].
  - exists k. rewrite E at 1. split; [done |].
    by rewrite last_cons_cons.
Qed.

Lemma lstrip_snoc strip s c :
  strip c = false -> lstrip strip (s ++ [c]) = lstrip strip s ++ [c].
Proof.
  intros Hc. induction s as [| d s IH]; simpl; [by rewrite Hc |].
  by destruct (strip d).
Qed.

Lemma clean_url_snoc_slash url :
  clean_url (url ++ [slash]) = clean_url url ++ [slash].
Proof.
  unfold clean_url. rewrite lstrip_snoc by done.
  by rewrite List.filter_app.
Qed.

Lemma find_snoc c s d :
  d <> c -> find c (s ++ [d]) = find c s.
Proof.
  intros Hd. induction s as [| e s IH]; simpl.
  - by destruct (N.eqb_spec d c).
  - destruct (e =? c)%N; [done | by rewrite IH].
Qed.

Lemma find_lt c s i : find c s = Some i -> (i < length s)%nat.
Proof.
  revert i. induction s as [| e s IH]; intros i; simpl; [done |].
  destruct (e =? c)%N; [intros [= <-]; lia |].
  destruct (find c s) as [j |]; [| done]. intros [= <-].
  specialize (IH j eq_refl). lia.
Qed.

Lemma upto_snoc_stop stop s c :
  stop c = true -> upto stop (s ++ [c]) = upto stop s.
Proof.
  intros Hc. induction s as [| d s IH]; simpl; [by rewrite Hc |].
  destruct (stop d); [done | by rewrite IH].
Qed.

(** A slash appended to a URL with a scheme stays after the scheme. *)
Lemma split_scheme_snoc_slash url :
  let '(sch, rest) := split_scheme url in
  split_scheme (url ++ [slash]) = (sch, rest ++ [slash]).
Proof.
  unfold split_scheme. rewrite find_snoc by done.
  destruct (find 58 url) as [[| i'] |] eqn:Efind; try done.
  pose proof (find_lt _ _ _ Efind) as Hlt.
  assert (Hhead : head (url ++ [slash]) = head url)
    by (destruct url; [simpl in Hlt; lia | done]).
  rewrite Hhead. destruct (head url) as [c0 |]; [| done].
  rewrite take_app_le by lia.
  destruct (is_ascii_alpha c0 && forallb is_scheme_char (take (S i') url));
    [| done].
  by rewrite drop_app_le by lia.
Qed.

Lemma split_netloc_snoc_slash url :
  split_netloc (url ++ [slash]) <> [] ->
  split_netloc (url ++ [slash]) = split_netloc url.
Proof.
  destruct url as [| a [| b rest]]; simpl.
  - done.
  - by destruct (a =? 47)%N.
  - intros _. destruct ((a =? 47)%N && (b =? 47)%N); [| done].
    by apply upto_snoc_stop.
Qed.

Section WithChecks.

Variable netloc_ok : pystr -> bool.

(** Removing a final slash from a valid URL leaves a valid URL. *)
Lemma validate_url_snoc_slash url msg :
  validate_url netloc_ok (url ++ [slash]) = Some (true, msg) ->
  validate_url netloc_ok url = Some (true, []).
Proof.
  unfold validate_url, urlparse. rewrite clean_url_snoc_slash.
  pose proof (split_scheme_snoc_slash (clean_url url)) as Hscheme.
  destruct (split_scheme (clean_url url)) as [sch rest]. rewrite Hscheme.
  destruct (url ++ [slash]) as [| c cs] eqn:E; [by destruct url |].
  clear E c cs.
  destruct (split_netloc (rest ++ [slash])) as [| n ns] eqn:Enet.
  - simpl. by destruct sch.
  - rewrite <- Enet, split_netloc_snoc_slash in * by (rewrite Enet; done).
    rewrite Enet. destruct (netloc_ok (n :: ns)); [| done]. simpl.
    destruct sch; [done |]. intros _.
    destruct url as [| c url']; [| done].
    simpl in Hscheme. unfold clean_url in Hscheme. simpl in Hscheme.
    discriminate.
Qed.

Lemma validate_url_rstrip url msg :
  validate_url netloc_ok url = Some (true, msg) ->
  validate_url netloc_ok (rstrip_slash url) = Some (true, []).
Proof.
  destruct (rstrip_slash_spec url) as (k & E & _).
  revert E. generalize (rstrip_slash url) as r. intros r ->. revert msg.
  induction k as [| k IH]; intros msg.
  - simpl. rewrite app_nil_r. unfold validate_url.
    destruct r; [done |]. destruct (urlparse netloc_ok (n :: r)) as [p |];
      [| done].
    simpl. destruct (scheme p), (netloc p); try done.
  - rewrite replicate_S_end, app_assoc. intros Hvalid.
    apply validate_url_snoc_slash in Hvalid. by apply (IH []).
Qed.

End WithChecks.

End UrlLemmas.

Section UrlClaims.

Variable netloc_ok : pystr -> bool.

(** C8: for every input [u] and default scheme [s] (and whatever the
    checks of [urlparse] on a netloc are): when [normalize_url(u, s)]
    returns a non-empty string [r], [validate_url(r)] returns
    [(True, "")] and [r] does not end with a slash; and when
    [validate_url(u)] returns [True], [normalize_url(u, s)] is [u] without
    its trailing slashes, all of them and nothing else. *)
Theorem normalize_url_valid (u s r : pystr) :
  (normalize_url netloc_ok u s = Some r -> r <> [] ->
   validate_url netloc_ok r = Some (true, []) /\ last r <> Some slash) /\
  (fst <$> validate_url netloc_ok u = Some true ->
   normalize_url netloc_ok u s = Some (rstrip_slash u) /\
   exists k : nat,
     u = rstrip_slash u ++ replicate k slash /\
     last (rstrip_slash u) <> Some slash).
Proof.
  assert (Hlast : forall x, last (rstrip_slash x) <> Some slash).
  { intros x. by destruct (rstrip_slash_spec x) as (k & _ & H). }
  split.
  - unfold normalize_url. destruct u as [| c u']; [by intros [= <-] |].
    destruct (validate_url netloc_ok (c :: u')) as [[[] msg] |] eqn:Ev;
      cbn [mbind option_bind]; [| | done].
    + intros [= <-] _.
      split; [exact (validate_url_rstrip netloc_ok _ _ Ev) |].
      exact (Hlast (c :: u')).
    + destruct (urlparse netloc_ok (c :: u')) as [p |];
        cbn [mbind option_bind]; [| done].
      destruct (scheme p); cbn [mbind option_bind].
      * destruct (validate_url netloc_ok (s ++ lit "://" ++ c :: u'))
          as [[[] msg2] |] eqn:Ev2; cbn [mbind option_bind]; [| | done].
        -- intros [= <-] _.
           split; [exact (validate_url_rstrip netloc_ok _ _ Ev2) |].
           exact (Hlast (s ++ lit "://" ++ c :: u')).
        -- by intros [= <-].
      * by intros [= <-].
  - intros Hvalid. split; [| apply rstrip_slash_spec].
    unfold normalize_url.
    destruct u as [| c u']; [done |].
    destruct (validate_url netloc_ok (c :: u')) as [[[] msg] |];
      by simpl in Hvalid.
Qed.

End UrlClaims.

Lemma normalize_url_valid_witness :
  let netloc_ok := fun _ : pystr => true in
  let u := lit "example.com/torrents//" in
  let v := lit "http://localhost:8080/" in
  (normalize_url netloc_ok u (lit "https")
     = Some (lit "https://example.com/torrents") /\
   lit "https://example.com/torrents" <> [] /\
   validate_url netloc_ok (lit "https://example.com/torrents")
     = Some (true, [])) /\
  (fst <$> validate_url netloc_ok v = Some true /\
   normalize_url netloc_ok v (lit "http")
     = Some (lit "http://localhost:8080")).
Proof.
  cbv zeta. split.
  - assert (E : normalize_url (fun _ => true) (lit "example.com/torrents//")
                  (lit "https") = Some (lit "https://example.com/torrents"))
      by (vm_compute; reflexivity).
    split; [exact E |]. split; [discriminate |].
    exact (proj1 (proj1 (normalize_url_valid (fun _ => true)
                           (lit "example.com/torrents//") (lit "https")
                           (lit "https://example.com/torrents"))
                    E ltac:(discriminate))).
  - assert (V : fst <$> validate_url (fun _ => true)
                  (lit "http://localhost:8080/") = Some true)
      by (vm_compute; reflexivity).
    split; [exact V |].
    exact (proj1 (proj2 (normalize_url_valid (fun _ => true)
                           (lit "http://localhost:8080/") (lit "http") [])
                    V)).
Defined.

(* ================================================================== *)
(** * Properties of the scrollable selector *)
(* ================================================================== *)

(** Case analysis on the conditions of the [if]s of the goal. *)
Ltac case_ifs :=
  repeat match goal with
         | |- context [if ?b then _ else _] => destruct b eqn:?
         end.

Section Selector.

Lemma on_key_up n v s :
  on_key n v KEY_UP s =
    Continue (Sel (Z.max 0 (selected_idx s - 1))
                (if Z.max 0 (selected_idx s - 1) <? top_line s
                 then Z.max 0 (selected_idx s - 1) else top_line s)).
Proof. by destruct s. Qed.

Lemma on_key_page_down n v s :
  on_key n v KEY_NPAGE s =
    Continue (Sel (Z.min (n - 1) (selected_idx s + v))
                (if Z.min (n - 1) (selected_idx s + v) >=? top_line s + v
                 then Z.min (n - 1) (selected_idx s + v) - v + 1
                 else top_line s)).
Proof. by destruct s. Qed.

(** An up or down key never ends the selection, and keeps the invariants
    as soon as one row is visible. *)
Lemma on_key_up_down_invariant n v key s :
  1 <= v -> is_up_down key -> selection_invariant n v s ->
  exists s', on_key n v key s = Continue s' /\ selection_invariant n v s'.
Proof.
  intros Hv Hk (Hsel & Htop & Hvis). destruct s as [sel top]; simpl in *.
  destruct Hk as [-> | [-> | [-> | ->]]]; eexists; (split; [reflexivity |]);
    unfold selection_invariant; simpl; case_ifs; lia.
Qed.

Lemma run_keys_app n v ks1 ks2 s s1 :
  run_keys n v ks1 s = Continue s1 ->
  run_keys n v (ks1 ++ ks2) s = run_keys n v ks2 s1.
Proof.
  revert s. induction ks1 as [| k ks1 IH]; intros s; simpl.
  - by intros [= ->].
  - destruct (on_key n v k s) as [r | s']; [done | apply IH].
Qed.

Lemma run_up_down_invariant n v ks s :
  1 <= v -> Forall is_up_down ks -> selection_invariant n v s ->
  exists s', run_keys n v ks s = Continue s' /\ selection_invariant n v s'.
Proof.
  intros Hv Hks. revert s. induction Hks as [| k ks Hk _ IH]; intros s Hs.
  - by exists s.
  - destruct (on_key_up_down_invariant n v k s Hv Hk Hs) as (s1 & E & Hs1).
    simpl. rewrite E. by apply IH.
Qed.

(** Whatever the key, a selection inside the list stays inside the list
    when the number of visible rows is not negative. *)
Lemma on_key_in_range n v key s :
  0 <= v -> 0 < n -> 0 <= selected_idx s < n ->
  match on_key n v key s with
  | Return r => r = -1 \/ 0 <= r < n
  | Continue s' => 0 <= selected_idx s' < n
  end.
Proof.
  intros Hv Hn Hs. destruct s as [sel top]; simpl in *. unfold on_key.
  case_ifs; simpl; lia.
Qed.

Lemma select_loop_in_range fuel items title height s w r w' :
  4 <= height -> 0 <= selected_idx s < len items ->
  select_loop fuel items title height s w = Some (r, w') ->
  r = -1 \/ 0 <= r < len items.
Proof.
  intros Hh. revert s w. induction fuel as [| fuel IH]; intros s w Hs; [done |].
  simpl. unfold mbind, io_bind at 1.
  destruct (draw_list items title height s w) as [[[] w1] |]; [| done].
  unfold io_bind at 1. destruct (read_key w1) as [[key w2] |]; [| done].
  pose proof (on_key_in_range (len items) (height - 4) key s) as Hk.
  destruct (on_key (len items) (height - 4) key s) as [r' | s'].
  - intros [= <- <-]. apply Hk; lia.
  - apply IH. apply Hk; lia.
Qed.

(** [scrollable_select] hides the cursor first: when the terminal cannot,
    [curses.error] leaves it there; else the empty list is answered at
    once and any other list goes to the loop. *)
Lemma scrollable_select_unfold items title w :
  scrollable_select items title w =
    if fails w (log w ++ [curs_set 0]) then None
    else
      match items with
      | [] => Some (-1, extend w [curs_set 0])
      | _ =>
          select_loop (S (length (keys w))) items title (height w) (Sel 0 0)
            (extend w [curs_set 0])
      end.
Proof.
  unfold scrollable_select, checked, mbind, io_bind.
  destruct (fails w (log w ++ [curs_set 0])); [done |].
  by destruct items.
Qed.

(** On a window of at least four rows, what [scrollable_select] returns is
    the cancellation value or an index of the list. *)
Lemma scrollable_select_in_range items title w r w' :
  4 <= height w ->
  scrollable_select items title w = Some (r, w') ->
  r = -1 \/ 0 <= r < len items.
Proof.
  intros Hh. rewrite scrollable_select_unfold.
  destruct (fails w (log w ++ [curs_set 0])); [done |].
  destruct items as [| item items].
  - intros [= <- <-]. by left.
  - intros H. eapply select_loop_in_range; [| | exact H]; simpl; [done |].
    unfold len; simpl; lia.
Qed.

End Selector.

Section SelectorRuns.

Lemma runs_safe_addstr text wrap start_newline w W :
  width w = W -> (wrap = true -> 0 < W) ->
  runs (safe_addstr text wrap start_newline) w tt
    (safe_addstr_events W text wrap start_newline).
Proof.
  intros <- HW. destruct wrap; [by apply runs_safe_addstr_wrap, HW |].
  unfold safe_addstr, safe_addstr_events.
  change (flat_map ?f ?l ++ ?rest) with ([] ++ flat_map f l ++ rest).
  eapply runs_bind; [apply runs_getmaxyx |]. cbv beta iota.
  rewrite extend_nil. eapply runs_bind.
  - apply runs_for_each. intros line evs _. apply runs_emit.
  - cbv beta. eapply runs_bind; [| apply runs_emit].
    destruct start_newline; [apply runs_emit | apply runs_ret].
Qed.

Lemma runs_draw_list items title s w :
  0 < width w ->
  runs (draw_list items title (height w) s) w tt
    (draw_list_events w items title s).
Proof.
  intros HW. unfold draw_list, draw_list_events.
  eapply runs_bind; [apply runs_emit |].
  eapply runs_bind; [by apply runs_safe_addstr |].
  cbv beta zeta. eapply runs_bind.
  - apply runs_for_each. intros [i line] evs _. cbn [fst snd].
    destruct (top_line s + i =? selected_idx s).
    + eapply runs_bind; [apply runs_emit |].
      eapply runs_bind; [| apply runs_emit].
      by apply runs_safe_addstr.
    + by apply runs_safe_addstr.
  - cbv beta. eapply runs_bind; [| apply runs_emit].
    by apply runs_safe_addstr.
Qed.

(** A final key ends the selection. *)
Lemma on_key_final n v key s :
  is_final key -> exists r, on_key n v key s = Return r.
Proof.
  destruct s as [sel top].
  intros [-> | [-> | [-> | [-> | ->]]]]; eexists; reflexivity.
Qed.

Lemma select_loop_returns items title s : forall ks fuel w,
  keys w = ks -> Exists is_final ks -> (length ks <= fuel)%nat ->
  0 < width w ->
  exists r w', select_loop fuel items title (height w) s w = Some (r, w').
Proof.
  intros ks. revert s.
  induction ks as [| k ks IH]; intros s fuel w Hks Hfinal Hfuel HW.
  - by apply Exists_nil in Hfinal.
  - destruct fuel as [| fuel]; [simpl in Hfuel; lia |].
    cbn [select_loop]. unfold mbind at 1, io_bind at 1.
    rewrite (runs_draw_list items title s w HW).
    unfold mbind, io_bind at 1, read_key. cbn [keys extend]. rewrite Hks.
    destruct (on_key (len items) (height w - 4) k s) as [r | s'] eqn:Ekey.
    + by eexists _, _.
    + apply Exists_cons in Hfinal as [Hk | Hfinal].
      { destruct (on_key_final (len items) (height w - 4) k s Hk) as [r Hr].
        congruence. }
      apply (IH s' fuel (MkWorld _ _ ks _ _ _ _)); simpl in *; try done.
      lia.
Qed.

(** When one of the keys to come is a final one, on a window with columns
    of a terminal that can hide its cursor, [scrollable_select] returns. *)
Lemma scrollable_select_returns items title w :
  fails w (log w ++ [curs_set 0]) = false ->
  0 < width w -> Exists is_final (keys w) ->
  exists r w', scrollable_select items title w = Some (r, w').
Proof.
  intros Hcursor HW Hfinal. rewrite scrollable_select_unfold, Hcursor.
  destruct items as [| item items]; [by eexists _, _ |].
  apply (select_loop_returns _ _ _ (keys w) _ (extend w [curs_set 0]));
    simpl; try done.
  lia.
Qed.

End SelectorRuns.

Section SelectorClaims.

(** The state after [n] page-down keys on 100 items with 10 visible rows. *)
Lemma page_downs_state (n : nat) :
  run_keys 100 10 (replicate n KEY_NPAGE) (Sel 0 0) =
    Continue (Sel (Z.min 99 (10 * Z.of_nat n))
                (if Z.of_nat n =? 0 then 0
                 else Z.min 99 (10 * Z.of_nat n) - 9)).
Proof.
  induction n as [| n IH]; [reflexivity |].
  rewrite replicate_S_end, (run_keys_app _ _ _ _ _ _ IH). cbn [run_keys].
  rewrite on_key_page_down. cbn [selected_idx top_line].
  f_equal. f_equal; [lia |].
  destruct (Z.eqb_spec (Z.of_nat n) 0), (Z.eqb_spec (Z.of_nat (S n)) 0);
    case_ifs; lia.
Qed.

(** C1, as the specification states it, fails: nine page-down keys on 100
    items with 10 visible rows do not leave [top_index = 90]. *)
Lemma page_down_scenario_top_is_not_90 :
  run_keys (len (replicate 100 (lit "item"))) (14 - 4)
    (replicate 9 KEY_NPAGE) (Sel 0 0) <> Continue (Sel 90 90).
Proof. vm_compute. discriminate. Qed.

(** C1 (amended): on a list of 100 items with [visible_rows = 10] (a window
    of 14 rows), from [selected_index = 0] and [top_index = 0], nine
    page-down keys yield [selected_index = 90] and [top_index = 81]; and
    after any number [n] of page-down keys the selection is
    [min 99 (10 n)], that is, clamped at 99 on overshoot. *)
Theorem page_down_scenario :
  let n := len (replicate 100 (lit "item")) in
  let visible_rows := 14 - 4 in
  run_keys n visible_rows (replicate 9 KEY_NPAGE) (Sel 0 0)
    = Continue (Sel 90 81) /\
  forall presses : nat, exists s,
    run_keys n visible_rows (replicate presses KEY_NPAGE) (Sel 0 0)
      = Continue s /\
    selected_idx s = Z.min 99 (10 * Z.of_nat presses).
Proof.
  change (len (replicate 100 (lit "item"))) with 100. change (14 - 4) with 10.
  split; [apply (page_downs_state 9) |].
  intros presses. eexists. split; [apply page_downs_state | reflexivity].
Qed.

(** C4, as the specification states it, fails on a window of four rows,
    where no row is visible: after a down key on a one-item list the top
    of the view is below the selection. *)
Lemma selection_invariants_need_a_visible_row :
  exists s,
    run_keys (len [lit "a"]) (4 - 4) [KEY_DOWN] (Sel 0 0) = Continue s /\
    ~ selection_invariant (len [lit "a"]) (4 - 4) s.
Proof.
  eexists. split; [reflexivity |].
  unfold selection_invariant. simpl. lia.
Qed.

(** C4 (amended): for every non-empty list, every window with at least one
    visible row ([height >= 5]) and every sequence of up and down keys
    applied to the initial state [selected_index = top_index = 0], after
    every transition the selector is still running and
    [0 <= selected_index < len(list)], [0 <= top_index <= selected_index]
    and [selected_index < top_index + visible_rows]. *)
Theorem selection_invariants_up_down (items : list pystr) (height : Z)
    (ks : list Z) (transitions : nat) :
  items <> [] -> 5 <= height -> Forall is_up_down ks ->
  exists s,
    run_keys (len items) (height - 4) (take transitions ks) (Sel 0 0)
      = Continue s /\
    selection_invariant (len items) (height - 4) s.
Proof.
  intros Hitems Hheight Hks.
  apply run_up_down_invariant; [lia | by apply Forall_take |].
  unfold selection_invariant, len. simpl.
  destruct items; [done | simpl; lia].
Qed.

Lemma selection_invariants_up_down_witness :
  [lit "a"; lit "b"; lit "c"] <> [] /\ 5 <= 6 /\
  Forall is_up_down [KEY_DOWN; ord_j; KEY_UP; ord_k] /\
  exists s,
    run_keys (len [lit "a"; lit "b"; lit "c"]) (6 - 4)
      (take 3 [KEY_DOWN; ord_j; KEY_UP; ord_k]) (Sel 0 0) = Continue s /\
    selection_invariant (len [lit "a"; lit "b"; lit "c"]) (6 - 4) s.
Proof.
  assert (Hks : Forall is_up_down [KEY_DOWN; ord_j; KEY_UP; ord_k])
    by (repeat constructor; unfold is_up_down; tauto).
  split; [discriminate |]. split; [lia |]. split; [exact Hks |].
  apply (selection_invariants_up_down [lit "a"; lit "b"; lit "c"] 6
           [KEY_DOWN; ord_j; KEY_UP; ord_k] 3);
    [discriminate | lia | exact Hks].
Defined.




(** C9 fails on a window of three rows: there [max_lines = -1], so a
    page-up key moves the selection of a one-item list to index 1, Enter
    returns it, and [trackers[choice_idx]] raises [IndexError]. *)
Theorem scrollable_select_three_rows :
  let w := World 3 80 [KEY_PPAGE; 10] (fun _ => []) [] in
  let tracker_map : gmap pystr (list pystr) :=
    {[ lit "http://t1" := [lit "p1"] ]} in
  (exists w',
     scrollable_select (tracker_lines tracker_map) (lit "Remove a Tracker") w
       = Some (1, w')) /\
  len (tracker_lines tracker_map) = 1 /\
  index (sorted_trackers tracker_map) 1 = None /\
  choose_tracker tracker_map (lit "Remove a Tracker") w = None.
Proof.
  cbv zeta. split; [eexists; vm_compute; reflexivity |].
  split; [vm_compute; reflexivity |]. split; vm_compute; reflexivity.
Qed.

End SelectorClaims.

(* ================================================================== *)
(** * Properties of the aggregator *)
(* ================================================================== *)

Section Aggregator.

Lemma runs_lift {A} (o : option A) a w : o = Some a -> runs (lift o) w a [].
Proof. intros ->. unfold runs, lift. by rewrite extend_nil. Qed.

Lemma runs_memory w : runs memory w (no_memory w) [].
Proof. unfold runs. by rewrite extend_nil. Qed.

(** ** Calls the window may not take *)

Lemma runs_or_fails_runs {A} (m : io A) w a evs :
  runs m w a evs -> runs_or_fails m w a evs.
Proof. by left. Qed.

Lemma runs_or_fails_checked e w : runs_or_fails (checked e) w tt [e].
Proof.
  unfold runs_or_fails, checked.
  destruct (fails w (log w ++ [e])) eqn:E; [right | by left].
  split; [done |]. intros Hw. by rewrite Hw in E.
Qed.

Lemma runs_or_fails_bind {A B} (m : io A) (f : A -> io B) w a b evs1 evs2 :
  runs_or_fails m w a evs1 -> runs_or_fails (f a) (extend w evs1) b evs2 ->
  runs_or_fails (m ≫= f) w b (evs1 ++ evs2).
Proof.
  unfold runs_or_fails, mbind, io_bind.
  intros [-> | [-> Hw]]; [| by right].
  intros [-> | [-> Hw]]; [left; by rewrite extend_extend | by right].
Qed.

Lemma runs_or_fails_for_each {A} (body : A -> io unit)
    (evs_of : A -> list event) (l : list A) w :
  (forall x evs, x ∈ l ->
     runs_or_fails (body x) (extend w evs) tt (evs_of x)) ->
  runs_or_fails (for_each l body) w tt (flat_map evs_of l).
Proof.
  revert w. induction l as [| x l IH]; intros w Hbody; simpl.
  - apply runs_or_fails_runs, runs_ret.
  - eapply runs_or_fails_bind.
    + rewrite <- (extend_nil w). apply Hbody. left.
    + apply IH. intros y evs Hy. rewrite extend_extend.
      apply Hbody. by right.
Qed.

Lemma runs_or_fails_accepted {A} (m : io A) w a evs :
  accepts_all w -> runs_or_fails m w a evs -> runs m w a evs.
Proof. by intros Hw [H | [_ H]]. Qed.

Lemma runs_or_fails_inv {A} (m : io A) w a evs r :
  m w = Some r -> runs_or_fails m w a evs -> r = (a, extend w evs).
Proof. intros Hr [H | [H _]]; congruence. Qed.

(** ** [draw_progress_bar] *)

(** Once its texts are there, [draw_progress_bar] makes its calls in
    order, up to one the window does not take. *)
Lemma draw_progress_bar_steps current total message bar_length bar pct w :
  progress_texts (no_memory w) current total bar_length = Some (bar, pct) ->
  built (no_memory w) (lit "[" ++ bar ++ lit "] " ++ pct)
    = Some (lit "[" ++ bar ++ lit "] " ++ pct) ->
  runs_or_fails (draw_progress_bar current total message bar_length) w tt
    (progress_events (height w) (width w) message bar pct).
Proof.
  intros Htexts Hline. unfold draw_progress_bar, progress_events.
  change (flat_map ?f ?l ++ ?rest)
    with ([] ++ [] ++ [] ++ flat_map f l ++ rest).
  eapply runs_or_fails_bind; [apply runs_or_fails_runs, runs_getmaxyx |].
  cbv beta iota.
  eapply runs_or_fails_bind; [apply runs_or_fails_runs, runs_memory |].
  cbv beta. cbn [no_memory extend].
  eapply runs_or_fails_bind; [by apply runs_or_fails_runs, runs_lift |].
  cbv beta iota.
  eapply runs_or_fails_bind.
  { apply runs_or_fails_for_each. intros clear_y evs _.
    apply (runs_or_fails_bind _ _ _ tt tt [_] [_]);
      apply runs_or_fails_checked. }
  eapply (runs_or_fails_bind _ _ _ tt _ [_]);
    [apply runs_or_fails_checked |].
  eapply (runs_or_fails_bind _ _ _ tt _ [_]);
    [apply runs_or_fails_checked |].
  eapply (runs_or_fails_bind _ _ _ _ _ [] [_; _; _]);
    [by apply runs_or_fails_runs, runs_lift |].
  cbv beta zeta.
  eapply (runs_or_fails_bind _ _ _ tt _ [_]);
    [apply runs_or_fails_checked |].
  eapply (runs_or_fails_bind _ _ _ tt _ [_]);
    [apply runs_or_fails_checked |].
  apply runs_or_fails_runs, runs_emit.
Qed.

(** Without its texts it makes no call. *)
Lemma draw_progress_bar_no_texts current total message bar_length w :
  progress_texts (no_memory w) current total bar_length = None ->
  draw_progress_bar current total message bar_length w = None.
Proof.
  intros Htexts. unfold draw_progress_bar.
  unfold mbind, io_bind, getmaxyx, memory, lift. by rewrite Htexts.
Qed.

(** On a window that takes every call, with the memory for its strings,
    it returns. *)
Lemma runs_draw_progress_bar current total message bar_length bar pct w :
  accepts_all w -> has_memory w ->
  progress_texts (no_memory w) current total bar_length = Some (bar, pct) ->
  runs (draw_progress_bar current total message bar_length) w tt
    (progress_events (height w) (width w) message bar pct).
Proof.
  intros Hw Hmem Htexts. apply runs_or_fails_accepted; [done |].
  apply draw_progress_bar_steps; [done |].
  apply built_memory. intros _. apply Hmem.
Qed.

(** When it returns, it had its texts and has made all its calls. *)
Lemma draw_progress_bar_inv current total message bar_length w u w' :
  draw_progress_bar current total message bar_length w = Some (u, w') ->
  exists bar pct,
    progress_texts (no_memory w) current total bar_length
      = Some (bar, pct) /\
    w' = extend w (progress_events (height w) (width w) message bar pct).
Proof.
  intros Hrun.
  destruct (progress_texts (no_memory w) current total bar_length)
    as [[bar pct] |] eqn:Htexts;
    [| by rewrite draw_progress_bar_no_texts in Hrun].
  exists bar, pct. split; [done |].
  destruct (built (no_memory w) (lit "[" ++ bar ++ lit "] " ++ pct))
    as [bar_line |] eqn:Hline.
  - pose proof (built_inv _ _ _ Hline) as ->.
    pose proof (runs_or_fails_inv _ _ _ _ _ Hrun
                  (draw_progress_bar_steps current total message bar_length
                     bar pct w Htexts Hline)) as E.
    by injection E as _ ->.
  - exfalso. revert Hrun. unfold draw_progress_bar.
    unfold mbind at 1, io_bind at 1, getmaxyx.
    unfold mbind at 1, io_bind at 1, memory.
    unfold mbind at 1, io_bind at 1, lift at 1. rewrite Htexts.
    repeat (unfold mbind at 1, io_bind at 1;
            match goal with
            | |- context [match ?m ?w0 with Some _ => _ | None => _ end] =>
                destruct (m w0) as [[[] ?] |]; [| done]
            end).
    unfold mbind at 1, io_bind at 1, lift at 1. cbn [no_memory].
    by rewrite Hline.
Qed.

Lemma add_tracker_url_lookup (h : pystr) (m : gmap pystr (list pystr))
    (tr : tracker) (key : pystr) (l : list pystr) :
  m !! key = as_entry l ->
  add_tracker_url h m tr !! key =
    as_entry (l ++ if bool_decide (url tr = key) then [h] else []).
Proof.
  intros Hm. unfold add_tracker_url. case_bool_decide as Hkey.
  - subst key. rewrite lookup_alter_eq.
    destruct (m !! url tr) as [l' |] eqn:E.
    + rewrite E. destruct l; simpl in Hm; [done |]. injection Hm as ->. done.
    + rewrite lookup_insert_eq. destruct l; simpl in Hm; [done | done].
  - rewrite lookup_alter_ne by done.
    destruct (m !! url tr); [| rewrite lookup_insert_ne by done];
      by rewrite app_nil_r.
Qed.

Lemma fold_add_tracker_url_lookup (h : pystr) (trs : list tracker) :
  forall (m : gmap pystr (list pystr)) (key : pystr) (l : list pystr),
  m !! key = as_entry l ->
  fold_left (add_tracker_url h) trs m !! key =
    as_entry (l ++ replicate (occurrences key trs) h).
Proof.
  induction trs as [| tr trs IH]; intros m key l Hm; simpl.
  - by rewrite app_nil_r.
  - rewrite (IH _ key _ (add_tracker_url_lookup h m tr key l Hm)).
    unfold occurrences. simpl. case_bool_decide; simpl.
    + by rewrite <- app_assoc.
    + by rewrite app_nil_r.
Qed.

Lemma aggregated_lookup (api : pystr -> list tracker)
    (torrents : list torrent) :
  forall (m : gmap pystr (list pystr)) (key : pystr) (l : list pystr),
  m !! key = as_entry l ->
  aggregated api torrents m !! key = as_entry (l ++ group api key torrents).
Proof.
  induction torrents as [| t ts IH]; intros m key l Hm; simpl.
  - by rewrite app_nil_r.
  - unfold aggregated in *. simpl.
    rewrite (IH _ key _ (fold_add_tracker_url_lookup _ _ m key l Hm)).
    unfold group. simpl. by rewrite <- app_assoc.
Qed.

Lemma runs_get_torrent_trackers torrent_hash w :
  runs (get_torrent_trackers torrent_hash) w (trackers_of w torrent_hash)
    [get_trackers torrent_hash].
Proof. reflexivity. Qed.

(** One iteration: the progress draw, then the lookup. *)
Lemma runs_gather_trackers total m idx t bar pct w :
  accepts_all w -> has_memory w ->
  progress_texts (no_memory w) idx total 40 = Some (bar, pct) ->
  runs (gather_trackers total m (idx, t)) w
    (fold_left (add_tracker_url (hash t)) (trackers_of w (hash t)) m)
    (draw_events w total (idx, t) ++ [get_trackers (hash t)]).
Proof.
  intros Hw Hmem Htexts. unfold gather_trackers, draw_events.
  rewrite Htexts.
  eapply runs_bind; [by apply runs_draw_progress_bar |]. cbv beta.
  eapply (runs_bind _ _ _ _ _ [_] []);
    [apply runs_get_torrent_trackers | apply runs_ret].
Qed.

(** The aggregation loop: for each record, in input order, the progress
    draw and then the lookup. *)
Lemma runs_gather_loop total ts : forall start m w,
  accepts_all w -> has_memory w ->
  0 <= total < 2 ^ 53 -> 0 <= start -> start + len ts <= 2 ^ 53 ->
  runs (fold_io (enumerate start ts) (gather_trackers total) m) w
    (aggregated (trackers_of w) ts m)
    (flat_map (fun item => draw_events w total item
                             ++ [get_trackers (hash item.2)])
       (enumerate start ts)).
Proof.
  induction ts as [| t ts IH]; intros start m w Hw Hmem Htotal Hstart Hlen.
  - apply runs_ret.
  - unfold len in Hlen. simpl length in Hlen.
    destruct (progress_texts_total (no_memory w) start total 40)
      as [[bar pct] Htexts]; [done | lia | lia | lia |].
    cbn [enumerate fold_io flat_map].
    eapply runs_bind; [by eapply runs_gather_trackers |].
    apply (IH (start + 1) _ (extend w _)); [done | done | done | lia |].
    unfold len. lia.
Qed.

(** An iteration that returns has drawn the progress and then made the
    lookup. *)
Lemma gather_trackers_inv total m idx t w m' w' :
  gather_trackers total m (idx, t) w = Some (m', w') ->
  is_Some (progress_texts (no_memory w) idx total 40) /\
  m' = fold_left (add_tracker_url (hash t)) (trackers_of w (hash t)) m /\
  w' = extend w (draw_events w total (idx, t) ++ [get_trackers (hash t)]).
Proof.
  unfold gather_trackers. unfold mbind at 1, io_bind at 1.
  destruct (draw_progress_bar idx total _ 40 w) as [[[] w1] |] eqn:Hdraw;
    [| done].
  apply draw_progress_bar_inv in Hdraw as (bar & pct & Htexts & ->).
  unfold mbind, io_bind, get_torrent_trackers, emit, answer.
  cbn [trackers_of extend]. intros [= <- <-].
  split; [by eexists |]. split; [done |].
  unfold draw_events. rewrite Htexts. unfold extend.
  cbn [height width keys trackers_of fails no_memory log].
  by rewrite <- app_assoc.
Qed.

(** The loop, when it returns, has done for each record the progress draw
    and then the lookup, and has built the aggregated map. *)
Lemma gather_loop_inv total ts : forall start m w m' w',
  fold_io (enumerate start ts) (gather_trackers total) m w = Some (m', w') ->
  m' = aggregated (trackers_of w) ts m /\
  w' = extend w
         (flat_map (fun item => draw_events w total item
                                  ++ [get_trackers (hash item.2)])
            (enumerate start ts)) /\
  Forall (fun item => is_Some (progress_texts (no_memory w) item.1 total 40))
    (enumerate start ts).
Proof.
  induction ts as [| t ts IH]; intros start m w m' w' Hrun.
  - simpl in Hrun. injection Hrun as <- <-.
    by rewrite extend_nil.
  - cbn [enumerate fold_io] in Hrun. unfold mbind, io_bind in Hrun.
    destruct (gather_trackers total m (start, t) w) as [[m1 w1] |] eqn:Hone;
      [| done].
    apply gather_trackers_inv in Hone as (Htexts & -> & ->).
    apply IH in Hrun as (-> & -> & Hall).
    split; [done |]. split.
    + cbn [enumerate flat_map]. by rewrite extend_extend.
    + cbn [enumerate]. by constructor.
Qed.

Lemma aggregate_inv torrents w m w' :
  aggregate_trackers_for_each_torrent torrents w = Some (m, w') ->
  m = aggregated (trackers_of w) torrents ∅ /\
  w' = extend w
         (flat_map (fun item => draw_events w (len torrents) item
                                  ++ [get_trackers (hash item.2)])
            (enumerate 1 torrents) ++ [clear]) /\
  Forall (fun item =>
            is_Some (progress_texts (no_memory w) item.1 (len torrents) 40))
    (enumerate 1 torrents).
Proof.
  unfold aggregate_trackers_for_each_torrent, mbind, io_bind.
  destruct (fold_io _ _ _ w) as [[m1 w1] |] eqn:Hloop; [| done].
  apply gather_loop_inv in Hloop as (-> & -> & Hall).
  intros [= <- <-]. split; [done |]. split; [| done].
  unfold extend, emit. cbn [height width keys trackers_of fails no_memory log].
  by rewrite app_assoc.
Qed.

(** A window that does not take the first call of the draw: the draw does
    not return. *)
Lemma draw_progress_bar_fails current total message bar_length w :
  fails w (log w ++ [move (height w - 3) 0]) = true ->
  draw_progress_bar current total message bar_length w = None.
Proof.
  intros Hfails. unfold draw_progress_bar.
  unfold mbind at 1, io_bind at 1, getmaxyx.
  unfold mbind at 1, io_bind at 1, memory.
  unfold mbind at 1, io_bind at 1, lift at 1.
  destruct (progress_texts _ _ _ _) as [[bar pct] |]; [| done].
  rewrite seqZ_cons by lia. cbn [for_each]. unfold mbind at 1, io_bind at 1.
  unfold mbind at 1, io_bind at 1. unfold mbind at 1, io_bind at 1.
  unfold checked at 1. by rewrite Hfails.
Qed.





(** What [aggregate_trackers_for_each_torrent] does and returns. *)
Lemma runs_aggregate torrents w :
  accepts_all w -> has_memory w -> len torrents < 2 ^ 53 ->
  runs (aggregate_trackers_for_each_torrent torrents) w
    (aggregated (trackers_of w) torrents ∅)
    (flat_map (fun item => draw_events w (len torrents) item
                             ++ [get_trackers (hash item.2)])
       (enumerate 1 torrents) ++ [clear]).
Proof.
  intros Hw Hmem Hlen. unfold aggregate_trackers_for_each_torrent.
  eapply runs_bind.
  - apply runs_gather_loop; try done; unfold len in *; lia.
  - cbv beta. apply (runs_bind _ _ _ tt _ [_] []);
      [apply runs_emit | apply runs_ret].
Qed.

End Aggregator.

Section AggregatorClaims.

Lemma str_leb_total a : forall b, str_leb a b = true \/ str_leb b a = true.
Proof.
  induction a as [| x a IH]; intros [| y b]; simpl; auto.
  destruct (N.ltb_spec x y), (N.ltb_spec y x); simpl; auto; try lia.
  assert (x = y) as -> by lia. rewrite N.eqb_refl. simpl. apply IH.
Qed.

#[local] Instance str_le_total : Total str_le.
Proof. intros a b. apply str_leb_total. Qed.

Lemma sorted_trackers_sorted (tracker_map : gmap pystr (list pystr)) :
  Sorted str_le (sorted_trackers tracker_map) /\
  forall key,
    key ∈ sorted_trackers tracker_map <-> is_Some (tracker_map !! key).
Proof.
  unfold sorted_trackers, sorted. split.
  - apply Sorted_merge_sort, _.
  - intros key. rewrite merge_sort_Permutation, elem_of_elements.
    apply elem_of_dom.
Qed.

Lemma as_entry_Some l ids : as_entry l = Some ids -> ids = l /\ l <> [].
Proof. destruct l; [done |]. by intros [= <-]. Qed.

Lemma elem_of_group api key torrents id :
  id ∈ group api key torrents ->
  exists t, t ∈ torrents /\ hash t = id /\ key ∈ url <$> api (hash t).
Proof.
  unfold group. rewrite list_elem_of_In, in_flat_map.
  intros (t & Ht & Hid). apply list_elem_of_In in Ht, Hid.
  apply elem_of_replicate in Hid as [-> Hocc].
  exists t. split; [done |]. split; [done |].
  unfold occurrences in Hocc.
  destruct (List.filter _ (api (hash t))) as [| tr trs] eqn:E; [done |].
  assert (Htr : In tr (List.filter
                  (fun t0 => bool_decide (url t0 = key)) (api (hash t))))
    by (rewrite E; by left).
  apply filter_In in Htr as [Hin Hurl]. apply bool_decide_eq_true in Hurl.
  apply list_elem_of_fmap. exists tr. split; [done |].
  by apply list_elem_of_In.
Qed.

(** The identifier of a record is in the group at least as often as the
    lookup of the record lists the key. *)
Lemma group_multiplicity api key torrents t :
  t ∈ torrents ->
  (occurrences key (api (hash t))
   <= length (List.filter (fun id => bool_decide (id = hash t))
                (group api key torrents)))%nat.
Proof.
  unfold group. induction 1 as [t ts | t t' ts _ IH]; simpl;
    rewrite List.filter_app, length_app.
  - assert (E : List.filter (fun id => bool_decide (id = hash t))
                  (replicate (occurrences key (api (hash t))) (hash t))
                = replicate (occurrences key (api (hash t))) (hash t)).
    { induction (occurrences key (api (hash t))) as [| n IHn]; [done |].
      simpl. rewrite bool_decide_true by done. by rewrite IHn. }
    rewrite E, length_replicate. lia.
  - lia.
Qed.

Lemma elem_of_enumerate {A} (l : list A) : forall start i x,
  (i, x) ∈ enumerate start l -> start <= i < start + len l.
Proof.
  unfold len. induction l as [| y l IH]; intros start i x Hin;
    [by apply elem_of_nil in Hin |].
  simpl in Hin. apply elem_of_cons in Hin as [[= -> ->] | Hin].
  - simpl length. lia.
  - apply IH in Hin. simpl length. lia.
Qed.






Lemma occurrences_pos key (trackers : list tracker) :
  key ∈ url <$> trackers -> (0 < occurrences key trackers)%nat.
Proof.
  unfold occurrences. intros Hkey.
  apply list_elem_of_fmap in Hkey as (tr & -> & Htr).
  apply list_elem_of_In in Htr.
  assert (Hin : In tr (List.filter
                  (fun t0 => bool_decide (url t0 = url tr)) trackers))
    by (apply filter_In; split; [done | by apply bool_decide_eq_true]).
  destruct (List.filter _ trackers); [done | simpl; lia].
Qed.

Lemma in_group api key torrents t :
  t ∈ torrents -> key ∈ url <$> api (hash t) ->
  hash t ∈ group api key torrents.
Proof.
  intros Ht Hkey. unfold group. rewrite list_elem_of_In, in_flat_map.
  exists t. split; [by apply list_elem_of_In |].
  apply list_elem_of_In, elem_of_replicate. split; [done |].
  apply occurrences_pos in Hkey. lia.
Qed.

Lemma filter_replicate_same (h : pystr) (n : nat) :
  List.filter (fun id => bool_decide (id = h)) (replicate n h)
  = replicate n h.
Proof.
  induction n as [| n IH]; [done |].
  simpl. rewrite bool_decide_true by done. by rewrite IH.
Qed.

Lemma filter_replicate_other (h h' : pystr) (n : nat) :
  h' <> h ->
  List.filter (fun id => bool_decide (id = h)) (replicate n h') = [].
Proof.
  intros Hne. induction n as [| n IH]; [done |].
  simpl. by rewrite bool_decide_false.
Qed.

(** How often an identifier is in the group of a key: once for each time
    the lookup of a record with that identifier lists the key. *)
Lemma group_count api key torrents h :
  length (List.filter (fun id => bool_decide (id = h))
            (group api key torrents))
  = (length (List.filter (fun t => bool_decide (hash t = h)) torrents)
     * occurrences key (api h))%nat.
Proof.
  unfold group. induction torrents as [| t ts IH]; [done |].
  simpl. rewrite List.filter_app, length_app, IH.
  destruct (decide (hash t = h)) as [<- | Hne].
  - rewrite bool_decide_true by done.
    rewrite filter_replicate_same, length_replicate. by simpl.
  - rewrite (bool_decide_false (hash t = h)) by done.
    by rewrite filter_replicate_other.
Qed.

(** C10: on a window that takes every call of the draws, with the memory
    for the strings of the bar, the aggregation returns for fewer than
    [2^53] records. Whenever it returns, in the map it returns every key
    maps to a non-empty sequence of identifiers, namely the group of the
    key, and each entry is the identifier of a record of the input whose
    lookup lists the key; and every key that the lookup of a record of the
    input lists is in the map, with the identifier of the record among
    its entries, once for each time the lookup of a record with that
    identifier lists the key (twice for a key listed twice). *)
Theorem aggregate_entries (torrents : list torrent) (w : world) :
  (accepts_all w -> has_memory w -> len torrents < 2 ^ 53 ->
   is_Some (aggregate_trackers_for_each_torrent torrents w)) /\
  forall tracker_map w',
    aggregate_trackers_for_each_torrent torrents w
      = Some (tracker_map, w') ->
    (forall key ids,
       tracker_map !! key = Some ids ->
       ids <> [] /\
       ids = group (trackers_of w) key torrents /\
       (forall id, id ∈ ids ->
          exists t, t ∈ torrents /\ hash t = id /\
                    key ∈ url <$> trackers_of w (hash t))) /\
    (forall t key,
       t ∈ torrents -> key ∈ url <$> trackers_of w (hash t) ->
       exists ids,
         tracker_map !! key = Some ids /\
         hash t ∈ ids /\
         length (List.filter (fun id => bool_decide (id = hash t)) ids)
         = (length (List.filter
                      (fun t' => bool_decide (hash t' = hash t)) torrents)
            * occurrences key (trackers_of w (hash t)))%nat) /\
    (forall t key,
       t ∈ torrents ->
       (2 <= occurrences key (trackers_of w (hash t)))%nat ->
       exists ids,
         tracker_map !! key = Some ids /\
         (2 <= length (List.filter
                         (fun id => bool_decide (id = hash t)) ids))%nat).
Proof.
  split.
  - intros Hw Hmem Hlen. eexists. by apply runs_aggregate.
  - intros tracker_map w' Hrun.
    apply aggregate_inv in Hrun as (-> & _ & _).
    assert (Hlisted : forall t key,
              t ∈ torrents -> key ∈ url <$> trackers_of w (hash t) ->
              aggregated (trackers_of w) torrents ∅ !! key
                = Some (group (trackers_of w) key torrents) /\
              hash t ∈ group (trackers_of w) key torrents).
    { intros t key Ht Hkey.
      pose proof (in_group _ _ _ _ Ht Hkey) as Hin. split; [| done].
      rewrite (aggregated_lookup _ _ ∅ key []) by done. simpl.
      destruct (group (trackers_of w) key torrents); [| done].
      by apply elem_of_nil in Hin. }
    split; [| split].
    + intros key ids Hids.
      rewrite (aggregated_lookup _ _ ∅ key []) in Hids by done.
      apply as_entry_Some in Hids as [-> Hne]. simpl in *.
      split; [done |]. split; [done |].
      intros id. apply elem_of_group.
    + intros t key Ht Hkey.
      destruct (Hlisted t key Ht Hkey) as [Hmap Hin].
      eexists. split; [exact Hmap |]. split; [done |].
      apply group_count.
    + intros t key Ht Hocc.
      assert (Hkey : key ∈ url <$> trackers_of w (hash t)).
      { unfold occurrences in Hocc.
        destruct (List.filter _ (trackers_of w (hash t)))
          as [| tr trs] eqn:E; [simpl in Hocc; lia |].
        assert (Htr : In tr (List.filter
                        (fun t0 => bool_decide (url t0 = key))
                        (trackers_of w (hash t))))
          by (rewrite E; by left).
        apply filter_In in Htr as [Hin Hurl].
        apply bool_decide_eq_true in Hurl.
        apply list_elem_of_fmap. exists tr. split; [done |].
        by apply list_elem_of_In. }
      destruct (Hlisted t key Ht Hkey) as [Hmap _].
      eexists. split; [exact Hmap |].
      pose proof (group_multiplicity (trackers_of w) key torrents t Ht).
      lia.
Qed.

Lemma aggregate_entries_witness :
  let torrents := [Torrent (lit "p1") (lit "first")] in
  let w :=
    World 24 80 [] (fun _ => [Tracker (lit "t1"); Tracker (lit "t1")]) [] in
  accepts_all w /\ has_memory w /\ len torrents < 2 ^ 53 /\
  Torrent (lit "p1") (lit "first") ∈ torrents /\
  (2 <= occurrences (lit "t1")
          (trackers_of w (hash (Torrent (lit "p1") (lit "first")))))%nat /\
  exists tracker_map w',
    aggregate_trackers_for_each_torrent torrents w = Some (tracker_map, w') /\
    tracker_map !! lit "t1" = Some [lit "p1"; lit "p1"].
Proof.
  cbv zeta.
  set (t := Torrent (lit "p1") (lit "first")).
  set (w := World 24 80 []
              (fun _ => [Tracker (lit "t1"); Tracker (lit "t1")]) []).
  assert (Hw : accepts_all w) by (intros evs; reflexivity).
  assert (Hmem : has_memory w) by (intros n; reflexivity).
  assert (H : len [t] < 2 ^ 53) by (vm_compute; reflexivity).
  assert (Ht : t ∈ [t]) by left.
  assert (Hocc : (2 <= occurrences (lit "t1") (trackers_of w (hash t)))%nat)
    by (vm_compute; lia).
  split; [exact Hw |]. split; [exact Hmem |]. split; [exact H |].
  split; [exact Ht |]. split; [exact Hocc |].
  destruct (aggregate_entries [t] w) as [Hreturns Hentries].
  destruct (Hreturns Hw Hmem H) as [[tracker_map w'] E].
  exists tracker_map, w'. split; [exact E |].
  destruct (Hentries _ _ E) as (Hkeys & _ & Htwice).
  destruct (Htwice t (lit "t1") Ht Hocc) as (ids & Hids & _).
  rewrite Hids. destruct (Hkeys _ _ Hids) as (_ & -> & _). reflexivity.
Defined.

End AggregatorClaims.

(* ================================================================== *)
(** * Further properties of the selector *)
(* ================================================================== *)

Section SelectorExtras.

(** Whatever the key, the invariants are kept as soon as one row is
    visible. *)
Lemma on_key_invariant n v key s :
  1 <= v -> selection_invariant n v s ->
  match on_key n v key s with
  | Return _ => True
  | Continue s' => selection_invariant n v s'
  end.
Proof.
  intros Hv (Hsel & Htop & Hvis). destruct s as [sel top]; simpl in *.
  unfold on_key, selection_invariant.
  case_ifs; simpl; case_ifs; lia.
Qed.

Lemma run_keys_invariant n v ks : forall s s',
  1 <= v -> selection_invariant n v s ->
  run_keys n v ks s = Continue s' -> selection_invariant n v s'.
Proof.
  induction ks as [| k ks IH]; intros s s' Hv Hs; simpl.
  - by intros [= <-].
  - pose proof (on_key_invariant n v k s Hv Hs) as Hk.
    destruct (on_key n v k s) as [r | s1]; [done |]. by apply IH.
Qed.

(** Only a final key ends the selection. *)
Lemma on_key_return n v key s r :
  on_key n v key s = Return r -> is_final key.
Proof.
  destruct s as [sel top]. unfold on_key, is_final.
  destruct (Z.eqb_spec key ord_q); [tauto |].
  destruct (Z.eqb_spec key ESC); [tauto |].
  destruct (Z.eqb_spec key KEY_ENTER); [tauto |].
  destruct (Z.eqb_spec key 10); [tauto |].
  destruct (Z.eqb_spec key 13); [tauto |].
  simpl. by case_ifs.
Qed.

Lemma run_keys_not_final n v ks : forall s,
  Forall (fun k => ~ is_final k) ks ->
  exists s', run_keys n v ks s = Continue s'.
Proof.
  induction ks as [| k ks IH]; intros s Hks; [by eexists |].
  apply Forall_cons in Hks as [Hk Hks]. simpl.
  destruct (on_key n v k s) as [r | s1] eqn:E.
  - by apply on_key_return in E.
  - by apply IH.
Qed.

Lemma select_loop_run_keys items title pre : forall fuel s w k rest,
  0 < width w -> keys w = pre ++ k :: rest ->
  Forall (fun k => ~ is_final k) pre -> is_final k ->
  (length pre < fuel)%nat ->
  exists r w',
    select_loop fuel items title (height w) s w = Some (r, w') /\
    run_keys (len items) (height w - 4) (pre ++ [k]) s = Return r /\
    keys w' = rest /\ height w' = height w /\ width w' = width w.
Proof.
  induction pre as [| p pre IH]; intros fuel s w k rest HW Hkeys Hpre Hk Hfuel;
    (destruct fuel as [| fuel]; [simpl in Hfuel; lia |]);
    cbn [select_loop]; unfold mbind at 1, io_bind at 1;
    rewrite (runs_draw_list items title s w HW);
    unfold mbind, io_bind at 1, read_key; cbn [keys extend]; rewrite Hkeys;
    cbn [app].
  - destruct (on_key_final (len items) (height w - 4) k s Hk) as [r Hr].
    cbn [run_keys]. rewrite Hr. by eexists _, _.
  - apply Forall_cons in Hpre as [Hp Hpre]. cbn [run_keys].
    destruct (on_key (len items) (height w - 4) p s) as [r | s1] eqn:E;
      [by apply on_key_return in E |].
    destruct (IH fuel s1 (MkWorld (height w) (width w) (pre ++ k :: rest)
                            (trackers_of w) (fails w) (no_memory w)
                            (log (extend w (draw_list_events w items title s))
                               ++ [getch p])) k rest)
      as (r & w' & Hrun & Hr & Hrest & Hh & Hw); try done.
    + simpl in Hfuel. lia.
    + exists r, w'. split; [exact Hrun |]. done.
Qed.


Lemma length_enumerate {A} (l : list A) : forall start,
  length (enumerate start l) = length l.
Proof.
  induction l as [| x l IH]; intros start; simpl; [done | by rewrite IH].
Qed.

Lemma lookup_enumerate {A} (l : list A) : forall start i x,
  l !! i = Some x -> enumerate start l !! i = Some (start + Z.of_nat i, x).
Proof.
  induction l as [| y l IH]; intros start [| i] x Hx; try done.
  - injection Hx as ->. simpl. do 2 f_equal. lia.
  - simpl in *. rewrite (IH (start + 1) i x Hx). do 2 f_equal. lia.
Qed.

Lemma length_tracker_lines (m : gmap pystr (list pystr)) :
  length (tracker_lines m) = length (sorted_trackers m).
Proof. unfold tracker_lines. by rewrite length_fmap, length_enumerate. Qed.

End SelectorExtras.

Section SelectorExtraTheorems.

(** X1: on a window with columns, of a terminal that can hide its cursor
    (it takes [curs_set(0)]), [scrollable_select] reads the keys up to and
    including the first final key (q, ESC or an Enter key) and leaves the
    others unread; it returns what the state machine [run_keys] returns
    for the keys read: -1 for q and ESC, and for Enter the index selected
    by the keys before it. *)
Theorem scrollable_select_reads_to_first_final (items : list pystr)
    (title : pystr) (w : world) (pre : list Z) (k : Z) (rest : list Z) :
  fails w (log w ++ [curs_set 0]) = false ->
  items <> [] -> 0 < width w -> keys w = pre ++ k :: rest ->
  Forall (fun key => ~ is_final key) pre -> is_final k ->
  exists r w' s,
    scrollable_select items title w = Some (r, w') /\
    keys w' = rest /\
    run_keys (len items) (height w - 4) (pre ++ [k]) (Sel 0 0) = Return r /\
    run_keys (len items) (height w - 4) pre (Sel 0 0) = Continue s /\
    r = (if (k =? ord_q) || (k =? ESC) then -1 else selected_idx s).
Proof.
  intros Hcursor Hitems HW Hkeys Hpre Hk.
  destruct (run_keys_not_final (len items) (height w - 4) pre (Sel 0 0) Hpre)
    as [s Hs].
  destruct (select_loop_run_keys items title pre (S (length (keys w)))
              (Sel 0 0) (extend w [curs_set 0]) k rest)
    as (r & w' & Hrun & Hr & Hrest & _); try done.
  { rewrite Hkeys, length_app. simpl. lia. }
  exists r, w', s. split.
  - rewrite scrollable_select_unfold, Hcursor. destruct items; [done |].
    exact Hrun.
  - split; [done |]. split; [done |]. split; [done |].
    simpl in Hr. rewrite (run_keys_app _ _ _ _ _ _ Hs) in Hr.
    cbn [run_keys] in Hr. destruct s as [sel top]. unfold on_key in Hr.
    cbn [selected_idx]. revert Hr.
    destruct ((k =? ord_q) || (k =? ESC)); [congruence |].
    destruct Hk as [-> | [-> | [-> | [-> | ->]]]]; vm_compute; congruence.
Qed.

Lemma scrollable_select_reads_to_first_final_witness :
  let items := [lit "a"; lit "b"; lit "c"] in
  let w := World 24 80 [KEY_DOWN; KEY_DOWN; KEY_UP; 10; 113] (fun _ => []) [] in
  fails w (log w ++ [curs_set 0]) = false /\
  items <> [] /\ 0 < width w /\
  keys w = [KEY_DOWN; KEY_DOWN; KEY_UP] ++ 10 :: [113] /\
  Forall (fun key => ~ is_final key) [KEY_DOWN; KEY_DOWN; KEY_UP] /\
  is_final 10 /\
  exists w', scrollable_select items (lit "T") w = Some (1, w') /\
             keys w' = [113].
Proof.
  cbv zeta.
  assert (Hpre : Forall (fun key => ~ is_final key)
                   [KEY_DOWN; KEY_DOWN; KEY_UP]).
  { repeat constructor; unfold is_final; vm_compute; intuition discriminate. }
  assert (Hk : is_final 10) by (unfold is_final; tauto).
  split; [reflexivity |].
  split; [discriminate |]. split; [reflexivity |]. split; [reflexivity |].
  split; [exact Hpre |]. split; [exact Hk |].
  destruct (scrollable_select_reads_to_first_final
              [lit "a"; lit "b"; lit "c"] (lit "T")
              (World 24 80 [KEY_DOWN; KEY_DOWN; KEY_UP; 10; 113]
                 (fun _ => []) [])
              [KEY_DOWN; KEY_DOWN; KEY_UP] 10 [113]
              eq_refl ltac:(discriminate) eq_refl eq_refl Hpre Hk)
    as (r & w' & s & Hrun & Hrest & Hr & _).
  exists w'. split; [| exact Hrest].
  vm_compute in Hr. injection Hr as <-. exact Hrun.
Defined.

(** X2: with at least one visible row ([height >= 5]) and a non-empty
    list, the invariants of the selection hold after every sequence of
    keys, whatever the keys are (arrows, page keys, Home, End, letters):
    the selection is in the list, the top of the view is not below it, and
    the selection is among the visible rows. *)
Theorem selection_invariants_all_keys (items : list pystr) (height : Z)
    (ks : list Z) (s : SelectionState) :
  items <> [] -> 5 <= height ->
  run_keys (len items) (height - 4) ks (Sel 0 0) = Continue s ->
  selection_invariant (len items) (height - 4) s.
Proof.
  intros Hitems Hheight. apply run_keys_invariant; [lia |].
  unfold selection_invariant, len. simpl.
  destruct items; [done | simpl; lia].
Qed.

Lemma selection_invariants_all_keys_witness :
  let items := replicate 30 (lit "item") in
  let ks := [KEY_END; KEY_PPAGE; KEY_NPAGE; KEY_HOME; KEY_END; KEY_UP; 120] in
  items <> [] /\ 5 <= 9 /\
  run_keys (len items) (9 - 4) ks (Sel 0 0) = Continue (Sel 28 25) /\
  selection_invariant (len items) (9 - 4) (Sel 28 25).
Proof.
  cbv zeta. split; [discriminate |]. split; [lia |]. split; [reflexivity |].
  apply (selection_invariants_all_keys (replicate 30 (lit "item")) 9
           [KEY_END; KEY_PPAGE; KEY_NPAGE; KEY_HOME; KEY_END; KEY_UP; 120]);
    [discriminate | lia | reflexivity].
Defined.

(** X3: on a window of at least four rows, when the selector shown by
    [remove_tracker] returns an index that is not negative,
    [trackers[choice_idx]] raises no [IndexError]: the tracker taken is a
    key of the map, and it is the one named on the line of that index,
    which reads [i. tracker - Found in n torrents] with [i] the index plus
    one and [n] the number of identifiers under the tracker. *)
Theorem choose_tracker_in_map (tracker_map : gmap pystr (list pystr))
    (title : pystr) (w : world) (r : Z) (w1 : world) :
  4 <= height w ->
  scrollable_select (tracker_lines tracker_map) title w = Some (r, w1) ->
  0 <= r ->
  exists selected_tracker ids,
    choose_tracker tracker_map title w = Some (Some selected_tracker, w1) /\
    sorted_trackers tracker_map !! Z.to_nat r = Some selected_tracker /\
    tracker_map !! selected_tracker = Some ids /\
    tracker_lines tracker_map !! Z.to_nat r =
      Some (str_of_int (r + 1) ++ lit ". " ++ selected_tracker ++
            lit " - Found in " ++ str_of_int (len ids) ++ lit " torrents").
Proof.
  intros Hh Hsel Hr.
  pose proof (scrollable_select_in_range _ _ _ _ _ Hh Hsel) as [-> | Hrange];
    [lia |].
  unfold len in Hrange. rewrite length_tracker_lines in Hrange.
  destruct (lookup_lt_is_Some_2 (sorted_trackers tracker_map) (Z.to_nat r))
    as [t Ht]; [lia |].
  assert (Hin : t ∈ sorted_trackers tracker_map)
    by (apply list_elem_of_lookup; eauto).
  apply sorted_trackers_sorted in Hin as [ids Hids].
  exists t, ids. split; [| split; [done | split; [done |]]].
  - unfold choose_tracker, mbind, io_bind. rewrite Hsel.
    destruct (Z.ltb_spec r 0); [lia |].
    unfold lift, index. destruct (Z.ltb_spec r 0); [lia |]. by rewrite Ht.
  - unfold tracker_lines. rewrite list_lookup_fmap.
    rewrite (lookup_enumerate _ _ _ _ Ht). cbn [fmap option_fmap option_map].
    unfold pystr in *. rewrite Hids. simpl.
    do 3 f_equal. lia.
Qed.

Lemma choose_tracker_in_map_witness :
  let tracker_map : gmap pystr (list pystr) :=
    {[ lit "http://t2" := [lit "p1"];
       lit "http://t1" := [lit "p1"; lit "p2"] ]} in
  let w := World 24 80 [KEY_DOWN; 10] (fun _ => []) [] in
  4 <= height w /\ 0 <= 1 /\
  exists w1,
    scrollable_select (tracker_lines tracker_map) (lit "Remove a Tracker") w
      = Some (1, w1) /\
    choose_tracker tracker_map (lit "Remove a Tracker") w
      = Some (Some (lit "http://t2"), w1).
Proof.
  cbv zeta. split; [vm_compute; discriminate |]. split; [lia |].
  eexists. split; [vm_compute; reflexivity |].
  match goal with
  | |- choose_tracker ?m ?t ?w = Some (_, ?w1) =>
      destruct (choose_tracker_in_map m t w 1 w1
                  ltac:(vm_compute; discriminate)
                  ltac:(vm_compute; reflexivity) ltac:(lia))
        as (sel & ids & Hchoose & Hsorted & _)
  end.
  vm_compute in Hsorted. injection Hsorted as <-. exact Hchoose.
Defined.

End SelectorExtraTheorems.

(* ================================================================== *)
(** * One drawing of the list *)
(* ================================================================== *)

Section DrawList.

Lemma slice_take_drop {A} (l : list A) i j :
  0 <= i <= j ->
  slice l i j = take (Z.to_nat (j - i)) (drop (Z.to_nat i) l).
Proof.
  intros Hij. unfold slice, slice_index, len.
  destruct (Z.ltb_spec i 0), (Z.ltb_spec j 0); try lia.
  destruct (Z.le_gt_cases (Z.of_nat (length l)) i) as [Hbig | Hin].
  - rewrite !drop_ge by lia. by rewrite !take_nil.
  - replace (Z.to_nat (Z.min (Z.of_nat (length l)) i)) with (Z.to_nat i)
      by lia.
    destruct (Z.le_gt_cases j (Z.of_nat (length l))).
    + f_equal. lia.
    + rewrite !take_ge; [done | |]; rewrite length_drop; lia.
Qed.

(** The rows drawn for items that are not the selected one. *)
Lemma flat_map_enumerate_plain (W sel top : Z) (l : list pystr) :
  forall start,
  (forall i, start <= i < start + len l -> top + i <> sel) ->
  flat_map
    (fun item : Z * pystr =>
       if top + item.1 =? sel then
         [attron A_REVERSE] ++ safe_addstr_events W item.2 false true
         ++ [attroff A_REVERSE]
       else safe_addstr_events W item.2 false true)
    (enumerate start l)
  = flat_map (fun line => safe_addstr_events W line false true) l.
Proof.
  unfold len. induction l as [| x l IH]; intros start Hne; [done |].
  cbn [enumerate flat_map fst snd].
  destruct (Z.eqb_spec (top + start) sel) as [Heq | _].
  - exfalso. apply (Hne start); [simpl length; lia | done].
  - f_equal. apply IH. intros i Hi. apply Hne. simpl length. lia.
Qed.

Lemma enumerate_app {A} (l1 l2 : list A) : forall start,
  enumerate start (l1 ++ l2)
  = enumerate start l1 ++ enumerate (start + len l1) l2.
Proof.
  unfold len. induction l1 as [| x l1 IH]; intros start; simpl.
  - f_equal. lia.
  - rewrite IH. do 3 f_equal. lia.
Qed.

End DrawList.

Section DrawListTheorem.

(** X4: while the invariants of the selection hold, one drawing of the
    list shows the items from [top_line] on, at most [max_lines] of them,
    and highlights exactly one row, that of the selected item: the window
    is cleared, the title is written, the rows before the selected item
    are written plainly, the selected item between [attron(A_REVERSE)] and
    [attroff(A_REVERSE)], the rows after it plainly, then the help line. *)
Theorem draw_list_highlights_selection (items : list pystr) (title : pystr)
    (s : SelectionState) (w : world) :
  0 < width w ->
  selection_invariant (len items) (height w - 4) s ->
  exists before item after,
    slice items (top_line s) (top_line s + (height w - 4))
      = before ++ item :: after /\
    items !! Z.to_nat (selected_idx s) = Some item /\
    len before = selected_idx s - top_line s /\
    draw_list items title (height w) s w =
      Some (tt,
            extend w
              ([clear]
               ++ safe_addstr_events (width w)
                    (lit "=== " ++ title ++ lit " ===" ++ [nl]) true true
               ++ flat_map
                    (fun line => safe_addstr_events (width w) line false true)
                    before
               ++ [attron A_REVERSE]
               ++ safe_addstr_events (width w) item false true
               ++ [attroff A_REVERSE]
               ++ flat_map
                    (fun line => safe_addstr_events (width w) line false true)
                    after
               ++ safe_addstr_events (width w) help_line false true
               ++ [refresh])).
Proof.
  intros HW (Hsel & Htop & Hvis). destruct s as [sel top]. simpl in *.
  set (V := height w - 4) in *.
  set (visible := slice items top (top + V)).
  assert (Hvisible : visible = take (Z.to_nat V) (drop (Z.to_nat top) items)).
  { unfold visible. rewrite slice_take_drop by lia. do 2 f_equal. lia. }
  assert (Hitem : exists item, items !! Z.to_nat sel = Some item).
  { apply lookup_lt_is_Some_2. unfold len in Hsel. lia. }
  destruct Hitem as [item Hitem].
  assert (Hlook : visible !! Z.to_nat (sel - top) = Some item).
  { rewrite Hvisible, lookup_take_lt by lia. rewrite lookup_drop.
    rewrite <- Hitem. f_equal. lia. }
  destruct (list_elem_of_split_length _ _ _ Hlook)
    as (before & after & Hsplit & Hlen).
  exists before, item, after.
  split; [exact Hsplit |]. split; [exact Hitem |].
  split; [unfold len; lia |].
  rewrite (runs_draw_list items title (Sel sel top) w HW).
  unfold draw_list_events. cbn [top_line selected_idx].
  fold V. fold visible. rewrite Hsplit.
  rewrite enumerate_app. cbn [enumerate]. rewrite flat_map_app.
  cbn [flat_map fst snd].
  rewrite (flat_map_enumerate_plain (width w) sel top before 0).
  2:{ unfold len. intros i Hi. lia. }
  rewrite (flat_map_enumerate_plain (width w) sel top after).
  2:{ unfold len. intros i Hi. lia. }
  destruct (Z.eqb_spec (top + (0 + len before)) sel) as [_ | Hne];
    [| unfold len in Hne; lia].
  do 2 f_equal. rewrite <- !app_assoc. reflexivity.
Qed.

Lemma draw_list_highlights_selection_witness :
  let items := [lit "a"; lit "b"; lit "c"; lit "d"] in
  let w := World 6 80 [] (fun _ => []) [] in
  0 < width w /\ selection_invariant (len items) (height w - 4) (Sel 2 1) /\
  exists before item after,
    slice items 1 (1 + (height w - 4)) = before ++ item :: after /\
    item = lit "c" /\ before = [lit "b"] /\ after = [].
Proof.
  cbv zeta.
  assert (Hinv : selection_invariant
                   (len [lit "a"; lit "b"; lit "c"; lit "d"]) (6 - 4)
                   (Sel 2 1))
    by (unfold selection_invariant; vm_compute; intuition discriminate).
  split; [reflexivity |]. split; [exact Hinv |].
  destruct (draw_list_highlights_selection
              [lit "a"; lit "b"; lit "c"; lit "d"] (lit "T") (Sel 2 1)
              (World 6 80 [] (fun _ => []) []) eq_refl Hinv)
    as (before & item & after & Hsplit & Hitem & Hlen & _).
  exists before, item, after. split; [exact Hsplit |].
  destruct before as [| b0 [| b1 before]].
  - vm_compute in Hlen. discriminate.
  - vm_compute in Hsplit. injection Hsplit as <- <- <-. done.
  - exfalso. apply (f_equal (@length _)) in Hsplit.
    rewrite length_app in Hsplit. simpl in Hsplit. lia.
Defined.

End DrawListTheorem.

(* ================================================================== *)
(** * Lines that are cut, not wrapped *)
(* ================================================================== *)

Section Truncation.

(** What [line[:k]] is for a bound inside the line. *)
Lemma slice_to_fits {A} (line : list A) (k : Z) :
  0 <= k ->
  slice_to line k `prefix_of` line /\
  len (slice_to line k) = Z.min k (len line) /\
  (len line <= k -> slice_to line k = line).
Proof.
  intros Hk. unfold slice_to, slice_index, len.
  destruct (Z.ltb_spec k 0) as [| _]; [lia |].
  split; [apply prefix_take |]. split.
  - rewrite length_take. lia.
  - intros Hle. apply take_ge. lia.
Qed.

(** The line [safe_addstr] writes without wrapping. *)
Lemma no_wrap_line_fits (width : Z) (line : pystr) :
  1 <= width ->
  let part := if len line >? width then slice_to line (width - 1) else line in
  part `prefix_of` line /\
  len part <= width /\
  (len line <= width -> part = line) /\
  (width < len line -> len part = width - 1).
Proof.
  intros Hw. cbv zeta.
  destruct (Z.gtb_spec (len line) width) as [Hlong | Hshort].
  - destruct (slice_to_fits line (width - 1)) as (Hpre & Hlen & _); [lia |].
    split_and!; [done | lia | lia | lia].
  - split_and!; [done | lia | done | lia].
Qed.

Lemma flat_map_singleton {A B} (f : A -> B) (l : list A) :
  flat_map (fun x => [f x]) l = f <$> l.
Proof. induction l as [| x l IH]; simpl; [done | by rewrite IH]. Qed.

End Truncation.

Section TruncationTheorems.

(** X5: without wrapping, [safe_addstr] returns on every window at least
    one column wide, and makes one [addstr] per line of the text, with no
    line break written between the lines (only the optional final one):
    a line of at most [width] characters is written whole, a longer one is
    cut to its first [width - 1] characters; what is written holds no line
    boundary. *)
Theorem safe_addstr_no_wrap_truncates (text : pystr) (start_newline : bool)
    (w : world) :
  1 <= width w ->
  exists parts,
    safe_addstr text false start_newline w =
      Some (tt, extend w ((addstr <$> parts)
                          ++ (if start_newline then [addstr [nl]] else [])
                          ++ [refresh])) /\
    Forall2
      (fun line part =>
         part `prefix_of` line /\
         len part <= width w /\
         (len line <= width w -> part = line) /\
         (width w < len line -> len part = width w - 1) /\
         Forall (fun c => is_linebreak c = false) part)
      (splitlines text) parts.
Proof.
  intros Hw.
  exists ((fun line => if len line >? width w
                       then slice_to line (width w - 1) else line)
          <$> splitlines text).
  split.
  - rewrite (runs_safe_addstr text false start_newline w (width w) eq_refl)
      by discriminate.
    unfold safe_addstr_events.
    rewrite (flat_map_singleton
               (fun line => addstr (if len line >? width w
                                    then slice_to line (width w - 1)
                                    else line))).
    by rewrite <- list_fmap_compose.
  - apply Forall2_fmap_r, Forall_Forall2_diag.
    pose proof (splitlines_no_linebreak text) as Hlines.
    induction Hlines as [| line lines Hline _ IH]; constructor; [| exact IH].
    destruct (no_wrap_line_fits (width w) line Hw) as (Hpre & ? & ? & ?).
    split_and!; try done.
    destruct Hpre as [k Hk]. rewrite Hk in Hline.
    by apply Forall_app in Hline as [? _].
Qed.

Lemma safe_addstr_no_wrap_truncates_witness :
  let w := World 24 5 [] (fun _ => []) [] in
  1 <= width w /\
  safe_addstr (lit "abcde" ++ [nl] ++ lit "abcdefg") false true w =
    Some (tt, extend w [addstr (lit "abcde"); addstr (lit "abcd");
                        addstr [nl]; refresh]).
Proof.
  cbv zeta. split; [vm_compute; discriminate |].
  destruct (safe_addstr_no_wrap_truncates
              (lit "abcde" ++ [nl] ++ lit "abcdefg") true
              (World 24 5 [] (fun _ => []) []))
    as (parts & Hrun & _); [vm_compute; discriminate |].
  rewrite Hrun. vm_compute in Hrun. injection Hrun as Hparts.
  vm_compute. do 3 f_equal. exact (eq_sym Hparts).
Defined.

(** X6: on a window at least one column wide, [draw_progress_bar] returns
    when the window takes each of its calls, there is memory for the
    strings of the bar, and the counters and the bar width are below
    [2^53]; it does not return when the window does not take the move to
    row [height - 3] (no such row on a window of fewer than three rows).
    Whenever it returns, it has cleared the three bottom rows, then written
    the message on row [height - 3] and the bar on row [height - 2]; each
    of the two is cut to at most [width - 1] characters, so the last
    column stays free, and is written whole when it fits. *)
Theorem draw_progress_bar_fits (current total : Z) (message : pystr)
    (bar_length : Z) (w : world) :
  1 <= width w ->
  (accepts_all w -> has_memory w ->
   0 <= current < 2 ^ 53 -> 0 <= total < 2 ^ 53 ->
   0 <= bar_length < 2 ^ 53 ->
   is_Some (draw_progress_bar current total message bar_length w)) /\
  (fails w (log w ++ [move (height w - 3) 0]) = true ->
   draw_progress_bar current total message bar_length w = None) /\
  forall u w',
    draw_progress_bar current total message bar_length w = Some (u, w') ->
    exists bar percent_text shown_message shown_bar,
      progress_texts (no_memory w) current total bar_length
        = Some (bar, percent_text) /\
      w' = extend w
             [move (height w - 3) 0; clrtoeol;
              move (height w - 2) 0; clrtoeol;
              move (height w - 1) 0; clrtoeol;
              move (height w - 3) 0; addstr shown_message;
              move (height w - 2) 0; addstr shown_bar;
              refresh] /\
      let bar_line := lit "[" ++ bar ++ lit "] " ++ percent_text in
      shown_message `prefix_of` message /\
      len shown_message <= width w - 1 /\
      (len message <= width w - 1 -> shown_message = message) /\
      shown_bar `prefix_of` bar_line /\
      len shown_bar <= width w - 1 /\
      (len bar_line <= width w - 1 -> shown_bar = bar_line).
Proof.
  intros Hw. split; [| split].
  - intros Hall Hmem Hc Ht Hb.
    destruct (progress_texts_total (no_memory w) current total bar_length
                Hmem Hc Ht Hb) as [[bar pct] Htexts].
    eexists. by eapply runs_draw_progress_bar.
  - apply draw_progress_bar_fails.
  - intros u w' Hrun.
    apply draw_progress_bar_inv in Hrun as (bar & pct & Htexts & ->).
    exists bar, pct,
      (if len message >? width w - 1 then slice_to message (width w - 1)
       else message),
      (slice_to (lit "[" ++ bar ++ lit "] " ++ pct) (width w - 1)).
    split; [exact Htexts |]. split.
    + unfold progress_events.
      replace (height w - (height w - 3)) with 3 by lia.
      replace (height w - 3 + 1) with (height w - 2) by lia.
      replace (seqZ (height w - 3) 3)
        with [height w - 3; height w - 2; height w - 1]; [done |].
      unfold seqZ. simpl. repeat f_equal; lia.
    + cbv zeta.
      destruct (slice_to_fits message (width w - 1))
        as (Hp & Hl & He); [lia |].
      destruct (slice_to_fits (lit "[" ++ bar ++ lit "] " ++ pct)
                  (width w - 1)) as (Hp' & Hl' & He'); [lia |].
      destruct (Z.gtb_spec (len message) (width w - 1)).
      * split_and!; try done; lia.
      * split_and!; try done; lia.
Qed.

Lemma draw_progress_bar_fits_witness :
  let w := World 24 30 [] (fun _ => []) [] in
  1 <= width w /\ accepts_all w /\ has_memory w /\
  0 <= 1 < 2 ^ 53 /\ 0 <= 2 < 2 ^ 53 /\ 0 <= 40 < 2 ^ 53 /\
  draw_progress_bar 1 2 (lit "Gathering") 40 w =
    Some (tt,
          extend w
            [move 21 0; clrtoeol; move 22 0; clrtoeol; move 23 0; clrtoeol;
             move 21 0; addstr (lit "Gathering");
             move 22 0; addstr (lit "[====================--------");
             refresh]).
Proof.
  cbv zeta.
  set (w := World 24 30 [] (fun _ => []) []).
  assert (H1 : 1 <= width w) by (vm_compute; discriminate).
  assert (Hall : accepts_all w) by (intros evs; reflexivity).
  assert (Hmem : has_memory w) by (intros n; reflexivity).
  assert (Hc : 0 <= 1 < 2 ^ 53) by lia.
  assert (Ht : 0 <= 2 < 2 ^ 53) by lia.
  assert (Hb : 0 <= 40 < 2 ^ 53) by lia.
  do 6 (split; [assumption |]).
  destruct (draw_progress_bar_fits 1 2 (lit "Gathering") 40 w H1)
    as (Hreturns & _ & Hdone).
  destruct (Hreturns Hall Hmem Hc Ht Hb) as [[[] w'] Hrun].
  destruct (Hdone _ _ Hrun)
    as (bar & pct & shown_message & shown_bar & _ & Hw' & _).
  rewrite Hrun. clear Hdone Hreturns. vm_compute in Hrun.
  injection Hrun as <-. reflexivity.
Defined.

End TruncationTheorems.

(* ================================================================== *)
(** * Counting the aggregated records *)
(* ================================================================== *)

Section Conservation.

Lemma entries_total_insert (m : gmap pystr (list pystr)) key hashes :
  m !! key = None ->
  entries_total (<[key := hashes]> m)
  = (length hashes + entries_total m)%nat.
Proof.
  intros Hnone. unfold entries_total.
  rewrite map_fold_insert_L; [done | intros; lia | done].
Qed.

(** One tracker record adds one identifier. *)
Lemma entries_total_add (torrent_hash : pystr) (m : gmap pystr (list pystr))
    (t : tracker) :
  entries_total (add_tracker_url torrent_hash m t) = S (entries_total m).
Proof.
  unfold add_tracker_url. destruct (m !! url t) as [hashes |] eqn:E.
  - rewrite <- (insert_delete_id m (url t) hashes E) at 1.
    rewrite alter_insert_eq.
    rewrite <- (insert_delete_id m (url t) hashes E) at 2.
    rewrite !entries_total_insert by apply lookup_delete_eq.
    rewrite length_app. simpl. lia.
  - rewrite alter_insert_eq, entries_total_insert by done. done.
Qed.

Lemma entries_total_fold (torrent_hash : pystr) (ts : list tracker) :
  forall m : gmap pystr (list pystr),
  entries_total (fold_left (add_tracker_url torrent_hash) ts m)
  = (length ts + entries_total m)%nat.
Proof.
  induction ts as [| t ts IH]; intros m; simpl; [done |].
  rewrite IH, entries_total_add. lia.
Qed.

Lemma entries_total_aggregated (api : pystr -> list tracker)
    (torrents : list torrent) :
  forall m : gmap pystr (list pystr),
  entries_total (aggregated api torrents m)
  = (length (flat_map (fun t => api (hash t)) torrents)
     + entries_total m)%nat.
Proof.
  unfold aggregated.
  induction torrents as [| t torrents IH]; intros m; simpl; [done |].
  rewrite IH, entries_total_fold, length_app. lia.
Qed.

End Conservation.

Section ConservationTheorems.

(** X7: the aggregation neither loses nor invents a tracker record: when
    it returns, the identifiers held by the map, all entries together, are
    as many as the tracker records the lookups of the input torrents
    returned. *)
Theorem aggregate_conserves_records (torrents : list torrent) (w : world)
    (tracker_map : gmap pystr (list pystr)) (w' : world) :
  aggregate_trackers_for_each_torrent torrents w = Some (tracker_map, w') ->
  entries_total tracker_map
  = length (flat_map (fun t => trackers_of w (hash t)) torrents).
Proof.
  intros Hrun. apply aggregate_inv in Hrun as (-> & _ & _).
  rewrite entries_total_aggregated. unfold entries_total.
  rewrite map_fold_empty. lia.
Qed.

Lemma aggregate_conserves_records_witness :
  exists tracker_map w',
    aggregate_trackers_for_each_torrent scenario_torrents scenario_world
      = Some (tracker_map, w') /\
    entries_total tracker_map = 3%nat.
Proof.
  destruct (aggregate_trackers_for_each_torrent scenario_torrents
              scenario_world) as [[tracker_map w'] |] eqn:E;
    [| vm_compute in E; discriminate].
  exists tracker_map, w'. split; [reflexivity |].
  rewrite (aggregate_conserves_records scenario_torrents scenario_world
             tracker_map w' E).
  reflexivity.
Defined.

(** X8: the lines [remove_tracker] builds for the selection show every
    tracker of the map exactly once: there are as many lines as keys, the
    sorted list of trackers has no duplicates, and every key with its
    entry [ids] has its line, numbered from 1 in sorted order:
    [<i + 1>. <tracker> - Found in <len(ids)> torrents]. *)
Theorem tracker_lines_one_per_key (tracker_map : gmap pystr (list pystr)) :
  length (tracker_lines tracker_map) = size tracker_map /\
  NoDup (sorted_trackers tracker_map) /\
  forall tracker_url ids,
    tracker_map !! tracker_url = Some ids ->
    exists i : nat,
      sorted_trackers tracker_map !! i = Some tracker_url /\
      tracker_lines tracker_map !! i =
        Some (str_of_int (Z.of_nat i + 1) ++ lit ". " ++ tracker_url ++
              lit " - Found in " ++ str_of_int (len ids) ++
              lit " torrents").
Proof.
  assert (Hperm : sorted_trackers tracker_map
                  ≡ₚ elements (dom tracker_map))
    by apply merge_sort_Permutation.
  split_and!.
  - rewrite length_tracker_lines, Hperm.
    rewrite <- (size_dom (D := gset pystr) tracker_map). done.
  - rewrite Hperm. apply NoDup_elements.
  - intros tracker_url ids Hids.
    assert (Hin : tracker_url ∈ sorted_trackers tracker_map).
    { rewrite Hperm. apply elem_of_elements, elem_of_dom. by exists ids. }
    apply list_elem_of_lookup in Hin as [i Hi]. exists i.
    split; [exact Hi |].
    unfold tracker_lines. rewrite list_lookup_fmap.
    rewrite (lookup_enumerate _ _ _ _ Hi). simpl.
    unfold pystr in *. rewrite Hids. simpl.
    by replace (1 + Z.of_nat i) with (Z.of_nat i + 1) by lia.
Qed.

End ConservationTheorems.

(* ================================================================== *)
(** * The shape of the URLs accepted *)
(* ================================================================== *)

Section UrlShape.

Lemma scheme_char_facts c :
  is_scheme_char c = true -> c <> 58%N /\ is_unsafe_byte c = false.
Proof.
  unfold is_scheme_char, is_ascii_alpha, is_unsafe_byte. intros H.
  split.
  - intros ->. vm_compute in H. discriminate.
  - repeat (apply orb_false_intro); apply N.eqb_neq; intros ->;
      vm_compute in H; discriminate.
Qed.

Lemma alpha_not_stripped c :
  is_ascii_alpha c = true -> is_c0_control_or_space c = false.
Proof.
  unfold is_ascii_alpha, is_c0_control_or_space. intros H.
  apply N.leb_gt.
  apply orb_true_iff in H as [H | H]; apply andb_true_iff in H as [H1 H2];
    apply N.leb_le in H1, H2; lia.
Qed.

Lemma lstrip_head strip c s :
  strip c = false -> lstrip strip (c :: s) = c :: s.
Proof. intros H. simpl. by rewrite H. Qed.

Lemma filter_safe (s : pystr) :
  Forall (fun c => is_unsafe_byte c = false) s ->
  List.filter (fun c => negb (is_unsafe_byte c)) s = s.
Proof.
  induction 1 as [| c s Hc _ IH]; simpl; [done |]. by rewrite Hc, IH.
Qed.

Lemma filter_safe_inv (s : pystr) :
  Forall (fun c => is_unsafe_byte c = false)
    (List.filter (fun c => negb (is_unsafe_byte c)) s).
Proof.
  induction s as [| c s IH]; simpl; [constructor |].
  destruct (is_unsafe_byte c) eqn:E; simpl; [done | by constructor].
Qed.

(** The first colon: where it is, and that none comes before. *)
Lemma find_Some c s i :
  find c s = Some i ->
  s = take i s ++ c :: drop (S i) s /\ c ∉ take i s.
Proof.
  revert i. induction s as [| d s IH]; intros i; simpl; [done |].
  destruct (N.eqb_spec d c) as [-> | Hd].
  - intros [= <-]. simpl. rewrite drop_0. split; [done | apply not_elem_of_nil].
  - destruct (find c s) as [j |] eqn:E; [| done]. intros [= <-].
    destruct (IH j eq_refl) as [Hs Hnot]. simpl. split.
    + by rewrite <- Hs.
    + intros [? | ?]%elem_of_cons; [congruence | done].
Qed.

Lemma find_None c s : find c s = None -> c ∉ s.
Proof.
  induction s as [| d s IH]; simpl; [intros _; apply not_elem_of_nil |].
  destruct (N.eqb_spec d c) as [-> | Hd]; [done |].
  destruct (find c s); [done |]. intros _.
  intros [? | ?]%elem_of_cons; [congruence | by apply IH].
Qed.

Lemma find_not_elem c s : c ∉ s -> find c s = None.
Proof.
  induction s as [| d s IH]; simpl; [done |]. intros Hnot.
  apply not_elem_of_cons in Hnot as [Hne Hnot].
  destruct (N.eqb_spec d c) as [-> | _]; [done |]. by rewrite IH.
Qed.

Lemma find_app c s1 s2 :
  c ∉ s1 -> find c (s1 ++ c :: s2) = Some (length s1).
Proof.
  induction s1 as [| d s1 IH]; simpl; intros Hnot.
  - by rewrite N.eqb_refl.
  - apply not_elem_of_cons in Hnot as [Hne Hnot].
    destruct (N.eqb_spec d c) as [-> | _]; [done |]. by rewrite IH.
Qed.

(** [upto] splits a text at its first stop character. *)
Lemma upto_spec stop s :
  exists rest,
    s = upto stop s ++ rest /\
    forallb (fun c => negb (stop c)) (upto stop s) = true /\
    (rest = [] \/ exists c rest', rest = c :: rest' /\ stop c = true).
Proof.
  induction s as [| c s (rest & Hs & Hall & Hrest)]; simpl.
  - exists []. split_and!; [done | done | by left].
  - destruct (stop c) eqn:E.
    + exists (c :: s). split_and!; [done | done | right; eauto].
    + exists rest. simpl. rewrite E. simpl. split_and!; [| done | done].
      by rewrite <- Hs.
Qed.

Lemma upto_app stop n rest :
  forallb (fun c => negb (stop c)) n = true ->
  (rest = [] \/ exists c rest', rest = c :: rest' /\ stop c = true) ->
  upto stop (n ++ rest) = n.
Proof.
  intros Hall Hrest. induction n as [| c n IH]; simpl.
  - destruct Hrest as [-> | (c & rest' & -> & Hc)]; [done |].
    simpl. by rewrite Hc.
  - simpl in Hall. apply andb_true_iff in Hall as [Hc Hn].
    apply negb_true_iff in Hc. rewrite Hc. by rewrite IH.
Qed.

Lemma scheme_chars_no_colon s :
  forallb is_scheme_char s = true -> 58%N ∉ s.
Proof.
  intros Hall Hin. rewrite forallb_forall in Hall.
  apply list_elem_of_In in Hin. apply Hall in Hin.
  by destruct (scheme_char_facts _ Hin).
Qed.

Lemma scheme_chars_safe s :
  forallb is_scheme_char s = true ->
  Forall (fun c => is_unsafe_byte c = false) s.
Proof.
  intros Hall. rewrite forallb_forall in Hall. apply Forall_forall.
  intros c Hc. apply list_elem_of_In in Hc.
  by destruct (scheme_char_facts _ (Hall _ Hc)).
Qed.

(** The scheme of a text that starts with a scheme and a colon. *)
Lemma split_scheme_app c s rest :
  is_ascii_alpha c = true -> forallb is_scheme_char (c :: s) = true ->
  split_scheme ((c :: s) ++ 58%N :: rest)
  = (List.map ascii_lower (c :: s), rest).
Proof.
  intros Hc Hall.
  assert (Ht : take (S (length s)) (c :: s ++ 58%N :: rest) = c :: s)
    by (simpl; by rewrite take_app_length).
  assert (Hd : drop (S (S (length s))) (c :: s ++ 58%N :: rest) = rest).
  { simpl. change (s ++ 58%N :: rest) with (s ++ [58%N] ++ rest).
    rewrite app_assoc. apply drop_app_length'. rewrite length_app. simpl.
    lia. }
  unfold split_scheme.
  rewrite (find_app 58 (c :: s) rest) by by apply scheme_chars_no_colon.
  cbn [length head app]. rewrite Ht, Hd, Hc, Hall. done.
Qed.

(** A scheme is found only in a text that starts with a letter, scheme
    characters and a colon. *)
Lemma split_scheme_inv url sch rest :
  split_scheme url = (sch, rest) -> sch <> [] ->
  exists c s,
    url = (c :: s) ++ 58%N :: rest /\
    is_ascii_alpha c = true /\ forallb is_scheme_char (c :: s) = true /\
    sch = List.map ascii_lower (c :: s).
Proof.
  unfold split_scheme. intros Hsplit Hsch.
  destruct (find 58 url) as [[| i'] |] eqn:Efind;
    [by injection Hsplit as <- | | by injection Hsplit as <-].
  destruct (head url) as [c0 |] eqn:Ehead; [| by injection Hsplit as <-].
  destruct (is_ascii_alpha c0 && forallb is_scheme_char (take (S i') url))
    eqn:Eok; [| by injection Hsplit as <-].
  injection Hsplit as <- <-.
  apply andb_true_iff in Eok as [Hc Hall].
  destruct (find_Some _ _ _ Efind) as [Hurl _].
  destruct url as [| c url']; [done |]. injection Ehead as ->.
  exists c0, (take i' url'). simpl in *. split_and!; done.
Qed.

Lemma split_netloc_inv url :
  split_netloc url <> [] ->
  exists r, url = 47%N :: 47%N :: r /\
            split_netloc url = upto is_netloc_delim r.
Proof.
  unfold split_netloc. destruct url as [| c0 [| c1 r]]; [done | done |].
  destruct (N.eqb_spec c0 47) as [-> | _]; [| done].
  destruct (N.eqb_spec c1 47) as [-> | _]; [| done].
  simpl. intros _. by exists r.
Qed.

End UrlShape.

Section UrlExtras.

Variable netloc_ok : pystr -> bool.

(** What [urlparse] returns on a cleaned URL that starts with a scheme. *)
Lemma urlparse_with_scheme u c s rest :
  clean_url u = (c :: s) ++ 58%N :: rest ->
  is_ascii_alpha c = true -> forallb is_scheme_char (c :: s) = true ->
  urlparse netloc_ok u =
    match split_netloc rest with
    | [] => Some (Parsed (List.map ascii_lower (c :: s)) [])
    | n => if netloc_ok n
           then Some (Parsed (List.map ascii_lower (c :: s)) n) else None
    end.
Proof.
  intros Hclean Hc Hall. unfold urlparse.
  rewrite Hclean, (split_scheme_app c s rest Hc Hall).
  by destruct (split_netloc rest).
Qed.

Lemma clean_url_nonempty u : clean_url u <> [] -> u <> [].
Proof. by intros H ->. Qed.

(** The result of [normalize_url] is empty or the stripped form of a valid
    URL: of the input, or of the input after the default scheme. *)
Lemma normalize_url_cases u d r :
  normalize_url netloc_ok u d = Some r ->
  r = [] \/
  exists x msg,
    validate_url netloc_ok x = Some (true, msg) /\ r = rstrip_slash x /\
    (x = u \/ x = d ++ lit "://" ++ u).
Proof.
  unfold normalize_url. destruct u as [| c u']; [intros [= <-]; by left |].
  destruct (validate_url netloc_ok (c :: u')) as [[[] msg] |] eqn:Ev;
    cbn [mbind option_bind]; [| | done].
  - intros [= <-]. right. exists (c :: u'), msg. eauto.
  - destruct (urlparse netloc_ok (c :: u')) as [p |];
      cbn [mbind option_bind]; [| done].
    destruct (scheme p); cbn [mbind option_bind].
    + destruct (validate_url netloc_ok (d ++ lit "://" ++ c :: u'))
        as [[[] msg2] |] eqn:Ev2; cbn [mbind option_bind]; [| | done].
      * intros [= <-]. right. exists (d ++ lit "://" ++ c :: u'), msg2. eauto.
      * intros [= <-]. by left.
    + intros [= <-]. by left.
Qed.

Lemma rstrip_slash_id s : last s <> Some slash -> rstrip_slash s = s.
Proof.
  intros Hlast. destruct (rstrip_slash_spec s) as ([| k] & E & _).
  - simpl in E. by rewrite app_nil_r in E.
  - exfalso. apply Hlast. rewrite E, replicate_S_end, app_assoc.
    apply last_snoc.
Qed.

Lemma rstrip_slash_idemp s : rstrip_slash (rstrip_slash s) = rstrip_slash s.
Proof.
  apply rstrip_slash_id. by destruct (rstrip_slash_spec s) as (k & _ & H).
Qed.

(** Trailing slashes are stripped from the end only. *)
Lemma rstrip_slash_app x y :
  rstrip_slash y <> [] -> rstrip_slash (x ++ y) = x ++ rstrip_slash y.
Proof.
  intros Hy. induction x as [| c x IH]; [done |].
  simpl. rewrite IH. destruct (x ++ rstrip_slash y) eqn:E; [| done].
  by apply app_eq_nil in E as [_ ?].
Qed.

Lemma rstrip_slash_head c s :
  c <> slash -> exists r, rstrip_slash (c :: s) = c :: r.
Proof.
  intros Hc. simpl. destruct (rstrip_slash s); [| by eauto].
  destruct (N.eqb_spec c slash); [done | by eauto].
Qed.

End UrlExtras.

Section UrlExtraTheorems.

Variable netloc_ok : pystr -> bool.

(** X9: [validate_url] accepts exactly the inputs of the shape
    [scheme://netloc...]: it returns [(True, "")] if and only if the
    input, after [urlparse] has stripped its leading control characters
    and spaces and removed its tabs and line breaks, is a letter followed
    by scheme characters, then [://], then a non-empty netloc free of
    [/], [?] and [#] that passes the checks of [urlparse], then nothing or
    a rest that starts with one of [/], [?], [#]. *)
Theorem validate_url_shape (u : pystr) :
  validate_url netloc_ok u = Some (true, []) <->
  exists c s n rest,
    clean_url u = (c :: s) ++ lit "://" ++ n ++ rest /\
    is_ascii_alpha c = true /\ forallb is_scheme_char (c :: s) = true /\
    n <> [] /\ forallb (fun c => negb (is_netloc_delim c)) n = true /\
    (rest = [] \/
     exists d rest', rest = d :: rest' /\ is_netloc_delim d = true) /\
    netloc_ok n = true.
Proof.
  split.
  - unfold validate_url. destruct u as [| c0 u']; [done |].
    unfold urlparse.
    destruct (split_scheme (clean_url (c0 :: u'))) as [sch rest0] eqn:Es.
    destruct (split_netloc rest0) as [| n0 ns] eqn:En;
      cbn [mbind option_bind scheme netloc].
    { by destruct sch. }
    destruct (netloc_ok (n0 :: ns)) eqn:Eok; [| done].
    cbn [mbind option_bind scheme netloc].
    destruct sch as [| s0 sch']; [done |]. intros _.
    destruct (split_scheme_inv _ _ _ Es) as (c & s & Hurl & Hc & Hall & _);
      [done |].
    destruct (split_netloc_inv rest0) as (r & Hrest0 & Hnet);
      [by rewrite En |].
    rewrite En in Hnet.
    destruct (upto_spec is_netloc_delim r) as (rest & Hr & Hn & Hrest).
    rewrite <- Hnet in Hr, Hn.
    exists c, s, (n0 :: ns), rest. split_and!; try done.
    rewrite Hurl, Hrest0. by rewrite Hr at 1.
  - intros (c & s & n & rest & Hclean & Hc & Hall & Hn & Hfree & Hrest & Hok).
    unfold validate_url.
    destruct u as [| c0 u']; [done |].
    change ((c :: s) ++ lit "://" ++ n ++ rest)
      with ((c :: s) ++ 58%N :: 47%N :: 47%N :: n ++ rest) in Hclean.
    rewrite (urlparse_with_scheme netloc_ok _ c s _ Hclean Hc Hall).
    cbn [split_netloc]. rewrite !N.eqb_refl. cbn [andb].
    rewrite (upto_app _ n rest Hfree Hrest).
    destruct n as [| n0 ns]; [done |]. rewrite Hok. done.
Qed.

(** X10: [normalize_url] is idempotent: what it returns, it returns
    unchanged when given it again, whatever the default scheme of either
    call. *)
Theorem normalize_url_idempotent (u d d' r : pystr) :
  normalize_url netloc_ok u d = Some r ->
  normalize_url netloc_ok r d' = Some r.
Proof.
  intros Hrun.
  destruct (normalize_url_cases netloc_ok u d r Hrun)
    as [-> | (x & msg & Hvalid & -> & _)]; [done |].
  pose proof (validate_url_rstrip netloc_ok x msg Hvalid) as Hr.
  unfold normalize_url.
  destruct (rstrip_slash x) as [| c r'] eqn:Er; [done |].
  rewrite Hr. cbn [mbind option_bind]. rewrite <- Er.
  by rewrite rstrip_slash_idemp.
Qed.

(** X11: the default scheme is not applied to an input that [urlparse]
    reads as a scheme without a netloc: an input made of a letter and
    scheme characters (letters, digits, [+], [-], [.]), a colon, and a rest
    without tabs and line breaks that does not start with [//] (as
    [localhost:8080]) makes [normalize_url] return the empty string,
    whatever the default scheme. *)
Theorem normalize_url_host_port_rejected (c : N) (s rest d : pystr) :
  is_ascii_alpha c = true -> forallb is_scheme_char (c :: s) = true ->
  Forall (fun c => is_unsafe_byte c = false) rest ->
  take 2 rest <> lit "//" ->
  validate_url netloc_ok ((c :: s) ++ lit ":" ++ rest)
    = Some (false,
            lit "The URL is missing a valid domain or IP address.") /\
  normalize_url netloc_ok ((c :: s) ++ lit ":" ++ rest) d = Some [].
Proof.
  intros Hc Hall Hsafe Hrest.
  assert (Hclean : clean_url ((c :: s) ++ lit ":" ++ rest)
                   = (c :: s) ++ 58%N :: rest).
  { unfold clean_url. cbn [app].
    rewrite (lstrip_head _ c) by by apply alpha_not_stripped.
    apply filter_safe. change (c :: s ++ 58%N :: rest)
      with ((c :: s) ++ [58%N] ++ rest).
    rewrite !Forall_app. split_and!; [by apply scheme_chars_safe | | done].
    by constructor. }
  assert (Hnet : split_netloc rest = []).
  { unfold split_netloc. destruct rest as [| c0 [| c1 r]]; [done | done |].
    destruct (N.eqb_spec c0 47) as [-> | _]; [| done].
    destruct (N.eqb_spec c1 47) as [-> | _]; [| done].
    by destruct Hrest. }
  pose proof (urlparse_with_scheme netloc_ok _ c s rest Hclean Hc Hall)
    as Hparse.
  rewrite Hnet in Hparse.
  assert (Hvalid :
            validate_url netloc_ok ((c :: s) ++ lit ":" ++ rest)
            = Some (false,
                    lit "The URL is missing a valid domain or IP address.")).
  { unfold validate_url. cbn [app]. cbn [app] in Hparse. rewrite Hparse.
    done. }
  split; [exact Hvalid |].
  unfold normalize_url. cbn [app] in *. rewrite Hvalid.
  cbn [mbind option_bind]. rewrite Hparse. done.
Qed.

(** X12: a bare host gets the default scheme: for an input without colon,
    tab or line break whose first character is neither a control
    character, a space nor one of [/], [?], [#], whose part before the
    first [/], [?] or [#] passes the checks of [urlparse], and for a
    default scheme made of a letter and scheme characters,
    [normalize_url] returns the default scheme, [://], and the input
    without its trailing slashes. *)
Theorem normalize_url_adds_default_scheme (a : N) (u' : pystr) (c : N)
    (d' : pystr) :
  is_ascii_alpha c = true -> forallb is_scheme_char (c :: d') = true ->
  is_c0_control_or_space a = false -> is_netloc_delim a = false ->
  Forall (fun x => x <> 58%N /\ is_unsafe_byte x = false) (a :: u') ->
  netloc_ok (upto is_netloc_delim (a :: u')) = true ->
  normalize_url netloc_ok (a :: u') (c :: d')
  = Some ((c :: d') ++ lit "://" ++ rstrip_slash (a :: u')).
Proof.
  intros Hc Hall Ha Hdelim Hu Hok.
  assert (Hsafe : Forall (fun x => is_unsafe_byte x = false) (a :: u')).
  { eapply Forall_impl; [exact Hu |]. by intros x [_ ?]. }
  assert (Hcolon : 58%N ∉ a :: u').
  { intros Hin. rewrite Forall_forall in Hu. by destruct (Hu _ Hin). }
  assert (Ha47 : (a =? 47)%N = false).
  { unfold is_netloc_delim in Hdelim.
    by apply orb_false_elim in Hdelim as [[? _]%orb_false_elim _]. }
  (* the input as it is: no scheme *)
  assert (Hparse : urlparse netloc_ok (a :: u') = Some (Parsed [] [])).
  { unfold urlparse, clean_url. rewrite (lstrip_head _ a) by done.
    rewrite filter_safe by done. unfold split_scheme.
    rewrite (find_not_elem 58 (a :: u') Hcolon).
    unfold split_netloc. destruct u' as [| c1 r]; [done |].
    by rewrite Ha47. }
  (* the input after the default scheme: valid *)
  assert (Hclean : clean_url ((c :: d') ++ lit "://" ++ a :: u')
                   = (c :: d') ++ 58%N :: 47%N :: 47%N :: a :: u').
  { unfold clean_url. cbn [app].
    rewrite (lstrip_head _ c) by by apply alpha_not_stripped.
    apply filter_safe.
    change (c :: d' ++ 58%N :: 47%N :: 47%N :: a :: u')
      with ((c :: d') ++ [58%N; 47%N; 47%N] ++ a :: u').
    rewrite !Forall_app. split_and!; [by apply scheme_chars_safe | | done].
    by repeat constructor. }
  assert (Hvalid2 : validate_url netloc_ok
                      ((c :: d') ++ lit "://" ++ a :: u')
                    = Some (true, [])).
  { unfold validate_url. cbn [app].
    pose proof (urlparse_with_scheme netloc_ok _ c d' _ Hclean Hc Hall)
      as Hp.
    cbn [app] in Hp. rewrite Hp. cbn [split_netloc].
    rewrite !N.eqb_refl. cbn [andb].
    destruct (upto is_netloc_delim (a :: u')) as [| n0 ns] eqn:En.
    { simpl in En. by rewrite Hdelim in En. }
    rewrite Hok. done. }
  unfold normalize_url.
  assert (Hvalid1 :
            validate_url netloc_ok (a :: u')
            = Some (false,
                    lit "The URL is missing a scheme (e.g., http or https).")).
  { unfold validate_url. rewrite Hparse. done. }
  rewrite Hvalid1. cbn [mbind option_bind]. rewrite Hparse.
  cbn [mbind option_bind scheme]. rewrite Hvalid2.
  cbn [mbind option_bind]. f_equal.
  rewrite (app_assoc (c :: d')).
  rewrite rstrip_slash_app; [by rewrite <- app_assoc |].
  destruct (rstrip_slash_head a u') as [r Hr]; [| by rewrite Hr].
  intros ->. by rewrite N.eqb_refl in Ha47.
Qed.

End UrlExtraTheorems.

Lemma normalize_url_idempotent_witness :
  let netloc_ok := fun _ : pystr => true in
  normalize_url netloc_ok (lit "example.com/a//") (lit "https")
    = Some (lit "https://example.com/a") /\
  normalize_url netloc_ok (lit "https://example.com/a") (lit "http")
    = Some (lit "https://example.com/a").
Proof.
  cbv zeta.
  assert (H : normalize_url (fun _ => true) (lit "example.com/a//")
                (lit "https") = Some (lit "https://example.com/a"))
    by (vm_compute; reflexivity).
  split; [exact H |].
  exact (normalize_url_idempotent (fun _ => true) _ _ (lit "http") _ H).
Defined.

Lemma normalize_url_host_port_rejected_witness :
  let netloc_ok := fun _ : pystr => true in
  lit "localhost:8080" = (108%N :: lit "ocalhost") ++ lit ":" ++ lit "8080" /\
  normalize_url netloc_ok (lit "localhost:8080") (lit "http") = Some [].
Proof.
  cbv zeta. split; [reflexivity |].
  apply (normalize_url_host_port_rejected (fun _ => true)
           108%N (lit "ocalhost") (lit "8080") (lit "http"));
    [reflexivity | reflexivity | | vm_compute; discriminate].
  repeat constructor.
Defined.

Lemma normalize_url_adds_default_scheme_witness :
  let netloc_ok := fun _ : pystr => true in
  normalize_url netloc_ok (lit "example.com/torrents//") (lit "https")
  = Some (lit "https://example.com/torrents").
Proof.
  cbv zeta.
  refine (normalize_url_adds_default_scheme (fun _ => true)
            101%N (lit "xample.com/torrents//") 104%N (lit "ttps")
            _ _ _ _ _ _); try reflexivity.
  repeat constructor; by vm_compute.
Defined.

(* ================================================================== *)
(** * Properties of the prompts *)
(* ================================================================== *)

Section TerminalRuns.

Lemma called_nil t : called t [] = t.
Proof. destruct t. unfold called. simpl. by rewrite app_nil_r. Qed.

Lemma called_called t cs1 cs2 :
  called (called t cs1) cs2 = called t (cs1 ++ cs2).
Proof. unfold called. simpl. by rewrite app_assoc. Qed.

Lemma after_after t ks1 ls1 cs1 ks2 ls2 cs2 :
  after (after t ks1 ls1 cs1) ks2 ls2 cs2 = after t ks2 ls2 (cs1 ++ cs2).
Proof. unfold after. simpl. by rewrite app_assoc. Qed.

Lemma called_after t cs : called t cs = after t (typed t) (lines t) cs.
Proof. done. Qed.

Lemma bind_returned {A B} (m : tio A) (f : A -> tio B) t a t' :
  m t = Returned a t' -> (m ≫= f) t = f a t'.
Proof. unfold mbind, tio_bind. by intros ->. Qed.

Lemma bind_raised {A B} (m : tio A) (f : A -> tio B) t e t' :
  m t = Raised e t' -> (m ≫= f) t = Raised e t'.
Proof. unfold mbind, tio_bind. by intros ->. Qed.

Lemma bind_never {A B} (m : tio A) (f : A -> tio B) t :
  m t = Never -> (m ≫= f) t = Never.
Proof. unfold mbind, tio_bind. by intros ->. Qed.

(** [safe_addstr] on the window of the terminal. *)
Lemma on_stdscr_safe_addstr text wrap start_newline t :
  (wrap = true -> 0 < columns t) ->
  on_stdscr (safe_addstr text wrap start_newline) t =
    Returned tt
      (called t (window <$> safe_addstr_events (columns t) text wrap
                              start_newline)).
Proof.
  intros Hw. unfold on_stdscr.
  rewrite (runs_safe_addstr text wrap start_newline
             (World (rows t) (columns t) (typed t) (web t) [])
             (columns t) eq_refl Hw).
  done.
Qed.

(** ** [strip] *)

Lemma lstrip_spec strip s :
  exists a, s = a ++ lstrip strip s /\
            Forall (fun c => strip c = true) a /\
            (forall c, head (lstrip strip s) = Some c -> strip c = false).
Proof.
  induction s as [| c s (a & Hs & Ha & Hhead)]; simpl.
  - exists []. split_and!; [done | done | done].
  - destruct (strip c) eqn:E.
    + exists (c :: a). split_and!; [simpl; by f_equal | by constructor | done].
    + exists []. split_and!; [done | done |]. by intros ? [= <-].
Qed.

Lemma lstrip_head_id strip s :
  (forall c, head s = Some c -> strip c = false) -> lstrip strip s = s.
Proof.
  destruct s as [| c s]; [done |]. intros H. simpl.
  by rewrite (H c eq_refl).
Qed.

Lemma head_rev {A} (l : list A) : head (rev l) = last l.
Proof.
  induction l as [| x l _] using rev_ind; [done |].
  by rewrite rev_unit, last_snoc.
Qed.

(** [strip] removes whitespace at both ends, all of it, and nothing
    else. *)
Lemma strip_spec s :
  exists a b,
    s = a ++ strip s ++ b /\
    Forall (fun c => is_space c = true) a /\
    Forall (fun c => is_space c = true) b /\
    (forall c, head (strip s) = Some c -> is_space c = false) /\
    (forall c, last (strip s) = Some c -> is_space c = false).
Proof.
  unfold strip.
  destruct (lstrip_spec is_space s) as (a & Hs & Ha & Hhead).
  destruct (lstrip_spec is_space (rev (lstrip is_space s)))
    as (b & Hr & Hb & Hlast).
  set (m := lstrip is_space (rev (lstrip is_space s))) in *.
  assert (Hl : lstrip is_space s = rev m ++ rev b).
  { rewrite <- (rev_involutive (lstrip is_space s)), Hr.
    by rewrite rev_app_distr. }
  exists a, (rev b). split_and!.
  - by rewrite <- Hl.
  - done.
  - by apply Forall_rev.
  - intros c Hc. destruct (rev m) as [| c0 r] eqn:Em; [done |].
    injection Hc as ->. apply Hhead. by rewrite Hl.
  - intros c Hc. apply Hlast. rewrite <- (rev_involutive m).
    by rewrite head_rev.
Qed.

Lemma strip_id s :
  (forall c, head s = Some c -> is_space c = false) ->
  (forall c, last s = Some c -> is_space c = false) ->
  strip s = s.
Proof.
  intros Hhead Hlast. unfold strip. rewrite (lstrip_head_id _ s Hhead).
  rewrite lstrip_head_id; [apply rev_involutive |].
  intros c Hc. apply Hlast. by rewrite <- head_rev.
Qed.

Lemma strip_idemp s : strip (strip s) = strip s.
Proof.
  destruct (strip_spec s) as (a & b & _ & _ & _ & Hhead & Hlast).
  by apply strip_id.
Qed.

(** ** [prompt] on the line that comes *)

Lemma prompt_line prompt_text t s rest :
  lines t = Some s :: rest ->
  prompt prompt_text t =
    Returned (strip s)
      (after t (typed t) rest
         ([echo]
          ++ (window <$> safe_addstr_events (columns t) prompt_text
                           false false)
          ++ [getstr (Some s); noecho])).
Proof.
  intros El. unfold prompt.
  rewrite (bind_returned (record echo) _ t tt (called t [echo]) eq_refl).
  rewrite (bind_returned _ _ _ _ _
             (on_stdscr_safe_addstr prompt_text false false
                (called t [echo]) ltac:(discriminate))).
  rewrite called_called. cbn [columns called].
  unfold mbind, tio_bind, getstr_line, record, called, after.
  cbn [lines typed rows columns web cursor refuses calls].
  rewrite El. cbn. by rewrite <- !app_assoc.
Qed.

Lemma prompt_bad_line prompt_text t rest :
  lines t = None :: rest ->
  prompt prompt_text t =
    Raised UnicodeDecodeError
      (after t (typed t) rest
         ([echo]
          ++ (window <$> safe_addstr_events (columns t) prompt_text
                           false false)
          ++ [getstr None])).
Proof.
  intros El. unfold prompt.
  rewrite (bind_returned (record echo) _ t tt (called t [echo]) eq_refl).
  rewrite (bind_returned _ _ _ _ _
             (on_stdscr_safe_addstr prompt_text false false
                (called t [echo]) ltac:(discriminate))).
  rewrite called_called. cbn [columns called].
  unfold mbind, tio_bind, getstr_line, record, called, after.
  cbn [lines typed rows columns web cursor refuses calls].
  rewrite El. cbn. by rewrite <- !app_assoc.
Qed.

Lemma prompt_no_line prompt_text t :
  lines t = [] -> prompt prompt_text t = Never.
Proof.
  intros El. unfold prompt.
  rewrite (bind_returned (record echo) _ t tt (called t [echo]) eq_refl).
  rewrite (bind_returned _ _ _ _ _
             (on_stdscr_safe_addstr prompt_text false false
                (called t [echo]) ltac:(discriminate))).
  apply bind_never. unfold getstr_line. cbn [lines called]. by rewrite El.
Qed.

End TerminalRuns.

Section PromptTheorems.

(** X13: [prompt] turns the echo on, writes the prompt text without
    wrapping it and without a line break, reads one line and turns the
    echo off; it returns the line without the whitespace at its two ends
    (all of it, and nothing else). When the line is not UTF-8, the
    [UnicodeDecodeError] leaves [prompt] with the echo still on; with no
    line to come it waits. *)
Theorem prompt_strips_line (prompt_text : pystr) (t : terminal) :
  let shown :=
    window <$> safe_addstr_events (columns t) prompt_text false false in
  match lines t with
  | [] => prompt prompt_text t = Never
  | Some s :: rest =>
      prompt prompt_text t =
        Returned (strip s)
          (after t (typed t) rest
             ([echo] ++ shown ++ [getstr (Some s); noecho])) /\
      exists a b,
        s = a ++ strip s ++ b /\
        Forall (fun c => is_space c = true) a /\
        Forall (fun c => is_space c = true) b /\
        (forall c, head (strip s) = Some c -> is_space c = false) /\
        (forall c, last (strip s) = Some c -> is_space c = false)
  | None :: rest =>
      prompt prompt_text t =
        Raised UnicodeDecodeError
          (after t (typed t) rest ([echo] ++ shown ++ [getstr None]))
  end.
Proof.
  cbv zeta. destruct (lines t) as [| [s |] rest] eqn:El.
  - by apply prompt_no_line.
  - split; [by apply prompt_line | apply strip_spec].
  - by apply prompt_bad_line.
Qed.

End PromptTheorems.

Section PasswordLoop.

Lemma slice_to_minus_one {A} (l : list A) : slice_to l (-1) = removelast l.
Proof.
  unfold slice_to, slice_index, len. simpl.
  induction l as [| x l IH] using rev_ind; [done |].
  rewrite removelast_last, length_app. simpl.
  replace (Z.to_nat (Z.max 0 (Z.of_nat (length l + 1) + -1)))
    with (length l) by lia.
  by rewrite take_app_length.
Qed.

Lemma is_enter_test k :
  (k =? KEY_ENTER) || (k =? 10) || (k =? 13) = true <-> is_enter k.
Proof.
  unfold is_enter. rewrite !orb_true_iff, !Z.eqb_eq. tauto.
Qed.

Lemma not_enter_test k :
  ~ is_enter k -> (k =? KEY_ENTER) || (k =? 10) || (k =? 13) = false.
Proof.
  intros H. apply not_true_is_false. by rewrite is_enter_test.
Qed.

(** One key of the password: what [password_key] returns and does. *)
Lemma password_key_enter password t k ks :
  typed t = k :: ks -> is_enter k ->
  password_key password t =
    Returned (Break password) (after t ks (lines t) [window (getch k)]).
Proof.
  intros Ht Hk. apply is_enter_test in Hk.
  unfold password_key, mbind, tio_bind, getch_key. rewrite Ht, Hk. done.
Qed.

Lemma password_key_other password t k ks :
  typed t = k :: ks -> ~ is_enter k ->
  match password_key password t with
  | Returned r t' =>
      r = Next (edit_password [k] password) /\
      exists cs,
        t' = after t ks (lines t) (window (getch k) :: cs) /\
        Forall masked cs
  | Raised e t' =>
      e = curses_error /\
      (exists cs, refuses t cs = true) /\
      exists cs,
        t' = after t ks (lines t) (window (getch k) :: cs) /\
        Forall masked cs
  | Never => False
  end.
Proof.
  intros Ht Hk. apply not_enter_test in Hk.
  unfold password_key, mbind, tio_bind, getch_key, edit_password.
  rewrite Ht, Hk. cbn [fold_left].
  destruct ((k =? KEY_BACKSPACE) || (k =? 127)) eqn:Eb.
  - destruct password as [| c p] eqn:Ep.
    { split; [done |]. exists []. split; [done | constructor]. }
    rewrite <- Ep, slice_to_minus_one.
    assert (Hp : match password with [] => False | _ => True end)
      by by rewrite Ep.
    clear Ep. destruct password as [| c' p']; [done |].
    unfold getyx_pos, attempt, called. cbn [calls refuses cursor].
    destruct (cursor t (calls t ++ [window (getch k)])) as [y x].
    cbn [calls refuses cursor typed lines rows columns web].
    destruct (x >? 0);
      repeat (cbn [calls refuses typed lines rows columns web cursor];
              match goal with
              | |- context [if refuses t ?cs then _ else _] =>
                  destruct (refuses t cs) eqn:?
              end);
      cbn; (split; [done |]); try (split; [by eauto |]);
      eexists;
      (split; [unfold after; cbn; f_equal; rewrite <- ?app_assoc;
               reflexivity | repeat constructor]).
  - destruct ((32 <=? k) && (k <=? 126)) eqn:Ep.
    + unfold attempt, called. cbn [calls refuses].
      destruct (refuses t _) eqn:E;
        cbn; (split; [done |]); try (split; [by eauto |]);
        eexists;
        (split; [unfold after; cbn; f_equal; rewrite <- ?app_assoc;
                 reflexivity | repeat constructor]).
    + split; [done |]. exists []. split; [done | constructor].
Qed.

(** A printable key when the window takes every write: one star. *)
Lemma password_key_printable password t k ks :
  typed t = k :: ks -> 32 <= k <= 126 ->
  (forall cs, refuses t cs = false) ->
  password_key password t =
    Returned (Next (password ++ [Z.to_N k]))
      (after t ks (lines t) [window (getch k); window (addstr (lit "*"))]).
Proof.
  intros Ht Hk Hroom.
  unfold password_key, mbind, tio_bind, getch_key. rewrite Ht.
  assert (H1 : (k =? KEY_ENTER) || (k =? 10) || (k =? 13) = false)
    by (unfold KEY_ENTER; lia).
  assert (H2 : (k =? KEY_BACKSPACE) || (k =? 127) = false)
    by (unfold KEY_BACKSPACE; lia).
  assert (H3 : (32 <=? k) && (k <=? 126) = true) by lia.
  rewrite H1, H2, H3. unfold attempt, called. cbn [calls refuses].
  rewrite Hroom. unfold after. cbn. by rewrite <- !app_assoc.
Qed.

Lemma edit_password_app ks1 ks2 password :
  edit_password (ks1 ++ ks2) password
  = edit_password ks2 (edit_password ks1 password).
Proof. apply fold_left_app. Qed.

(** The loop of [password_prompt], for every way it can end. *)
Lemma password_loop_outcome : forall fuel password t,
  (length (typed t) < fuel)%nat ->
  match while_true fuel password_key password t with
  | Returned p t' =>
      exists ks k rest cs,
        typed t = ks ++ k :: rest /\ Forall (fun k => ~ is_enter k) ks /\
        is_enter k /\ p = edit_password ks password /\
        t' = after t rest (lines t) cs /\ Forall masked cs
  | Raised e t' =>
      e = curses_error /\ (exists cs, refuses t cs = true) /\
      exists ks cs, t' = after t ks (lines t) cs /\ Forall masked cs
  | Never => Forall (fun k => ~ is_enter k) (typed t)
  end.
Proof.
  induction fuel as [| fuel IH]; intros password t Hfuel; [lia |].
  cbn [while_true]. unfold mbind at 1, tio_bind at 1.
  destruct (typed t) as [| k ks] eqn:Ht.
  { unfold password_key, mbind, tio_bind, getch_key. rewrite Ht.
    constructor. }
  destruct (decide (is_enter k)) as [Hk | Hk].
  - rewrite (password_key_enter password t k ks Ht Hk).
    exists [], k, ks, [window (getch k)].
    split_and!; try done. repeat constructor.
  - pose proof (password_key_other password t k ks Ht Hk) as Hstep.
    destruct (password_key password t) as [r t1 | e t1 |]; [| | done].
    + destruct Hstep as (-> & cs1 & -> & Hcs1).
      specialize (IH (edit_password [k] password)
                    (after t ks (lines t) (window (getch k) :: cs1))).
      cbn [typed after lines refuses] in IH.
      specialize (IH ltac:(simpl in Hfuel; lia)).
      destruct (while_true fuel password_key _ _) as [p t2 | e t2 |].
      * destruct IH as (ks' & k' & rest & cs2 & -> & Hks' & Hk' & -> & ->
                        & Hcs2).
        exists (k :: ks'), k', rest, (window (getch k) :: cs1 ++ cs2).
        split_and!; try done.
        -- by constructor.
        -- by rewrite after_after.
        -- constructor; [done |]. by apply Forall_app.
      * destruct IH as (-> & Href & ks' & cs2 & -> & Hcs2).
        split_and!; try done.
        exists ks', (window (getch k) :: cs1 ++ cs2).
        split; [by rewrite after_after |].
        constructor; [done |]. by apply Forall_app.
      * by constructor.
    + destruct Hstep as (-> & Href & cs1 & -> & Hcs1).
      split_and!; try done. exists ks, (window (getch k) :: cs1).
      split; [done |]. by constructor.
Qed.

End PasswordLoop.

Section PasswordPrompt.

(** The body of the [try] of [password_prompt], up to its loop. *)
Lemma password_prompt_unfold prompt_text t :
  let shown :=
    window <$> safe_addstr_events (columns t) prompt_text false false in
  password_prompt prompt_text t =
    match
      while_true (S (length (typed t) + length (lines t))) password_key []
        (called t ([noecho] ++ shown))
    with
    | Returned password t' => Returned (strip password) (called t' [echo])
    | Raised e t' => Raised e (called t' [echo])
    | Never => Never
    end.
Proof.
  cbv zeta. unfold password_prompt, finally.
  rewrite (bind_returned (record noecho) _ t tt (called t [noecho]) eq_refl).
  rewrite (bind_returned _ _ _ _ _
             (on_stdscr_safe_addstr prompt_text false false
                (called t [noecho]) ltac:(discriminate))).
  rewrite called_called. cbn [columns called].
  unfold mbind at 1, tio_bind at 1, pending at 1.
  cbn [typed lines].
  unfold mbind at 1, tio_bind at 1.
  destruct (while_true _ password_key [] _) as [p t' | e t' |]; done.
Qed.

Lemma first_enter_unique (ks ks' : list Z) k k' rest rest' :
  ks ++ k :: rest = ks' ++ k' :: rest' ->
  Forall (fun k => ~ is_enter k) ks -> is_enter k ->
  Forall (fun k => ~ is_enter k) ks' -> is_enter k' ->
  ks = ks' /\ k = k' /\ rest = rest'.
Proof.
  revert ks'. induction ks as [| x ks IH]; intros [| x' ks'] E Hks Hk Hks' Hk'.
  - by injection E as -> ->.
  - injection E as -> _. by inversion Hks'.
  - injection E as -> _. by inversion Hks.
  - injection E as -> E. inversion Hks. inversion Hks'. subst.
    destruct (IH ks' E) as (-> & -> & ->); done.
Qed.

Lemma edit_password_printable ks : forall password,
  Forall (fun c => (32 <= c <= 126)%N) password ->
  Forall (fun c => (32 <= c <= 126)%N) (edit_password ks password).
Proof.
  unfold edit_password.
  induction ks as [| k ks IH]; intros password Hp; [done |].
  cbn [fold_left]. apply IH.
  destruct ((k =? KEY_BACKSPACE) || (k =? 127)).
  - destruct password as [| c p] using rev_ind; [done |].
    rewrite removelast_last. by apply Forall_app in Hp as [? _].
  - destruct ((32 <=? k) && (k <=? 126)) eqn:E; [| done].
    apply Forall_app. split; [done |]. constructor; [lia | done].
Qed.

Lemma strip_Forall (P : N -> Prop) s : Forall P s -> Forall P (strip s).
Proof.
  destruct (strip_spec s) as (a & b & Hs & _). intros H.
  rewrite Hs in H. apply Forall_app in H as [_ H].
  by apply Forall_app in H as [H _].
Qed.

(** [password_prompt] when the window takes every write and an Enter
    key comes. *)
Lemma password_prompt_returns prompt_text t ks k rest :
  (forall cs, refuses t cs = false) ->
  typed t = ks ++ k :: rest ->
  Forall (fun k => ~ is_enter k) ks -> is_enter k ->
  exists cs,
    password_prompt prompt_text t =
      Returned (strip (edit_password ks []))
        (after t rest (lines t)
           ([noecho]
            ++ (window <$> safe_addstr_events (columns t) prompt_text
                             false false)
            ++ cs ++ [echo])) /\
    Forall masked cs.
Proof.
  intros Hroom Ht Hks Hk. rewrite password_prompt_unfold. cbv zeta.
  set (shown := window <$> safe_addstr_events (columns t) prompt_text
                             false false).
  pose proof (password_loop_outcome
                (S (length (typed t) + length (lines t))) []
                (called t ([noecho] ++ shown))) as Hloop.
  cbn [typed called lines refuses] in Hloop.
  specialize (Hloop ltac:(lia)).
  destruct (while_true _ password_key [] _) as [p t' | e t' |].
  - destruct Hloop as (ks' & k' & rest' & cs & Ht' & Hks' & Hk' & -> & ->
                       & Hcs).
    rewrite Ht in Ht'.
    destruct (first_enter_unique _ _ _ _ _ _ Ht' Hks Hk Hks' Hk')
      as (<- & <- & <-).
    exists cs. split; [| done].
    f_equal. unfold called, after. cbn. f_equal.
    by rewrite <- !app_assoc.
  - destruct Hloop as (_ & [cs Href] & _). by rewrite Hroom in Href.
  - exfalso. rewrite Ht in Hloop. apply Forall_app in Hloop as [_ Hloop].
    by inversion Hloop.
Qed.

(** The loop over printable keys: one star each. *)
Lemma password_loop_printable : forall (s : pystr) fuel password t k rest,
  (forall cs, refuses t cs = false) ->
  typed t = (Z.of_N <$> s) ++ k :: rest ->
  Forall (fun c => (32 <= c <= 126)%N) s -> is_enter k ->
  (length s < fuel)%nat ->
  while_true fuel password_key password t =
    Returned (password ++ s)
      (after t rest (lines t)
         (flat_map (fun c => [window (getch (Z.of_N c));
                              window (addstr (lit "*"))]) s
          ++ [window (getch k)])).
Proof.
  induction s as [| c s IH]; intros fuel password t k rest Hroom Ht Hs Hk
    Hfuel; (destruct fuel as [| fuel]; [simpl in Hfuel; lia |]);
    cbn [while_true]; unfold mbind at 1, tio_bind at 1.
  - rewrite (password_key_enter password t k rest Ht Hk).
    by rewrite app_nil_r.
  - inversion Hs as [| ? ? Hc Hs']. subst.
    rewrite fmap_cons in Ht. cbn [app] in Ht.
    rewrite (password_key_printable password t (Z.of_N c) _ Ht
               ltac:(lia) Hroom).
    rewrite (IH fuel (password ++ [Z.to_N (Z.of_N c)]) _ k rest);
      [| done | done | done | done | simpl in Hfuel; lia].
    rewrite after_after, N2Z.id, <- app_assoc. done.
Qed.

End PasswordPrompt.

Section PasswordTheorems.

(** X14: however [password_prompt] ends, by returning or by the
    [curses.error] of a write the window refuses, it has turned the echo
    off first and on again last; between the prompt text and the final
    [echo] it has only read keys, read and moved the cursor, and written
    stars and blanks: no character of the password is written. It fails
    to end only when no Enter key comes. *)
Theorem password_prompt_restores_echo (prompt_text : pystr) (t : terminal) :
  let shown :=
    window <$> safe_addstr_events (columns t) prompt_text false false in
  match password_prompt prompt_text t with
  | Returned password t' =>
      exists cs,
        calls t' = calls t ++ [noecho] ++ shown ++ cs ++ [echo] /\
        Forall masked cs
  | Raised e t' =>
      e = curses_error /\
      exists cs,
        calls t' = calls t ++ [noecho] ++ shown ++ cs ++ [echo] /\
        Forall masked cs
  | Never => Forall (fun k => ~ is_enter k) (typed t)
  end.
Proof.
  rewrite password_prompt_unfold. cbv zeta.
  set (shown := window <$> safe_addstr_events (columns t) prompt_text
                             false false).
  pose proof (password_loop_outcome
                (S (length (typed t) + length (lines t))) []
                (called t ([noecho] ++ shown))) as Hloop.
  cbn [typed called lines refuses] in Hloop.
  specialize (Hloop ltac:(lia)).
  destruct (while_true _ password_key [] _) as [p t' | e t' |].
  - destruct Hloop as (_ & _ & rest & cs & _ & _ & _ & _ & -> & Hcs).
    exists cs. split; [| done]. cbn. by rewrite <- !app_assoc.
  - destruct Hloop as (-> & _ & ks & cs & -> & Hcs). split; [done |].
    exists cs. split; [| done]. cbn. by rewrite <- !app_assoc.
  - done.
Qed.

(** X15: when the window takes every write and an Enter key comes,
    [password_prompt] returns and leaves the keys after that Enter to be
    read; the password it returns is the one typed by the keys before the
    Enter (a printable character is appended, Backspace or DEL removes the
    last character, any other key is ignored), without the spaces at its
    two ends; it holds printable ASCII characters only. *)
Theorem password_prompt_result (prompt_text : pystr) (t : terminal)
    (ks : list Z) (k : Z) (rest : list Z) :
  (forall cs, refuses t cs = false) ->
  typed t = ks ++ k :: rest ->
  Forall (fun k => ~ is_enter k) ks -> is_enter k ->
  exists password t',
    password_prompt prompt_text t = Returned password t' /\
    password = strip (edit_password ks []) /\
    typed t' = rest /\ lines t' = lines t /\
    Forall (fun c => (32 <= c <= 126)%N) password /\
    (forall c, head password = Some c -> c <> 32%N) /\
    (forall c, last password = Some c -> c <> 32%N).
Proof.
  intros Hroom Ht Hks Hk.
  destruct (password_prompt_returns prompt_text t ks k rest Hroom Ht Hks Hk)
    as (cs & Hrun & _).
  eexists _, _. split; [exact Hrun |].
  destruct (strip_spec (edit_password ks []))
    as (a & b & _ & _ & _ & Hhead & Hlast).
  split_and!; try done.
  - apply strip_Forall, edit_password_printable. constructor.
  - intros c Hc ->. by specialize (Hhead _ Hc).
  - intros c Hc ->. by specialize (Hlast _ Hc).
Qed.

Lemma password_prompt_result_witness :
  let t :=
    Terminal 24 80 [97; 98; 120; 127; 9; 99; 32; 10; 113] []
      (fun _ => []) (fun _ => (0, 5)) (fun _ => false) [] in
  exists t',
    password_prompt (lit "Enter Password: ") t = Returned (lit "abc") t' /\
    typed t' = [113].
Proof.
  cbv zeta.
  destruct (password_prompt_result (lit "Enter Password: ")
              (Terminal 24 80 [97; 98; 120; 127; 9; 99; 32; 10; 113] []
                 (fun _ => []) (fun _ => (0, 5)) (fun _ => false) [])
              [97; 98; 120; 127; 9; 99; 32] 10 [113])
    as (password & t' & Hrun & Hp & Hrest & _).
  - done.
  - done.
  - repeat constructor; unfold is_enter, KEY_ENTER; lia.
  - unfold is_enter. lia.
  - exists t'. rewrite Hrun, Hp. split; [| exact Hrest].
    f_equal.
Defined.

(** X16: typing a password of printable characters and Enter, on a window
    that takes every write: [password_prompt] returns the password typed,
    without the spaces at its two ends, and what it does is: echo off, the
    prompt text, for each character its key read and one star written,
    the Enter key read, echo on. *)
Theorem password_prompt_round_trip (prompt_text : pystr) (t : terminal)
    (s : pystr) (k : Z) (rest : list Z) :
  (forall cs, refuses t cs = false) ->
  typed t = (Z.of_N <$> s) ++ k :: rest ->
  Forall (fun c => (32 <= c <= 126)%N) s -> is_enter k ->
  password_prompt prompt_text t =
    Returned (strip s)
      (after t rest (lines t)
         ([noecho]
          ++ (window <$> safe_addstr_events (columns t) prompt_text
                           false false)
          ++ flat_map (fun c => [window (getch (Z.of_N c));
                                 window (addstr (lit "*"))]) s
          ++ [window (getch k); echo])).
Proof.
  intros Hroom Ht Hs Hk. rewrite password_prompt_unfold. cbv zeta.
  rewrite (password_loop_printable s _ [] _ k rest);
    [| done | done | done | done |].
  - unfold called, after. cbn. do 2 f_equal. by rewrite <- !app_assoc.
  - rewrite Ht, length_app, length_fmap. simpl. lia.
Qed.

Lemma password_prompt_round_trip_witness :
  let t :=
    Terminal 24 80 [32; 104; 105; 13] [] (fun _ => []) (fun _ => (0, 0))
      (fun _ => false) [] in
  password_prompt (lit "P: ") t =
    Returned (lit "hi")
      (after t [] []
         [noecho; window (addstr (lit "P: ")); window refresh;
          window (getch 32); window (addstr (lit "*"));
          window (getch 104); window (addstr (lit "*"));
          window (getch 105); window (addstr (lit "*"));
          window (getch 13); echo]).
Proof.
  cbv zeta.
  rewrite (password_prompt_round_trip (lit "P: ")
             (Terminal 24 80 [32; 104; 105; 13] [] (fun _ => [])
                (fun _ => (0, 0)) (fun _ => false) [])
             (lit " hi") 13 []).
  - reflexivity.
  - done.
  - done.
  - change (Forall (fun c => (32 <= c <= 126)%N) [32; 104; 105]%N).
    repeat (constructor; [lia |]). constructor.
  - unfold is_enter. lia.
Defined.

(** X17: Backspace (or DEL) undoes the printable key typed just before
    it: on a window that takes every write, the password returned for
    keys that hold a printable key followed by a Backspace is the one
    returned without these two keys. *)
Theorem password_prompt_backspace (prompt_text : pystr) (t : terminal)
    (ks1 ks2 : list Z) (c b k : Z) (rest : list Z) :
  (forall cs, refuses t cs = false) ->
  typed t = ks1 ++ [c; b] ++ ks2 ++ k :: rest ->
  32 <= c <= 126 -> b = KEY_BACKSPACE \/ b = 127 ->
  Forall (fun k => ~ is_enter k) (ks1 ++ ks2) -> is_enter k ->
  exists t',
    password_prompt prompt_text t
      = Returned (strip (edit_password (ks1 ++ ks2) [])) t' /\
    typed t' = rest.
Proof.
  intros Hroom Ht Hc Hb Hks Hk.
  apply Forall_app in Hks as [Hks1 Hks2].
  destruct (password_prompt_returns prompt_text t
              (ks1 ++ [c; b] ++ ks2) k rest Hroom)
    as (cs & Hrun & _); [| | done |].
  - by rewrite <- !app_assoc.
  - rewrite !Forall_app. split_and!; [done | | done].
    unfold is_enter, KEY_ENTER, KEY_BACKSPACE in *.
    repeat constructor; lia.
  - assert (Hsame : edit_password (ks1 ++ [c; b] ++ ks2) []
                    = edit_password (ks1 ++ ks2) []).
    { rewrite !edit_password_app. f_equal.
      unfold edit_password. cbn [fold_left].
      assert (H1 : (c =? KEY_BACKSPACE) || (c =? 127) = false)
        by (unfold KEY_BACKSPACE; lia).
      assert (H2 : (32 <=? c) && (c <=? 126) = true) by lia.
      assert (H3 : (b =? KEY_BACKSPACE) || (b =? 127) = true)
        by (unfold KEY_BACKSPACE in *; lia).
      rewrite H1, H2, H3. apply removelast_last. }
    rewrite Hrun, Hsame. by eexists.
Qed.

Lemma password_prompt_backspace_witness :
  let t :=
    Terminal 24 80 [97; 120; 263; 98; 10] [] (fun _ => [])
      (fun _ => (0, 3)) (fun _ => false) [] in
  exists t',
    password_prompt (lit "P: ") t = Returned (lit "ab") t' /\ typed t' = [].
Proof.
  cbv zeta.
  destruct (password_prompt_backspace (lit "P: ")
              (Terminal 24 80 [97; 120; 263; 98; 10] [] (fun _ => [])
                 (fun _ => (0, 3)) (fun _ => false) [])
              [97] [98] 120 263 10 [])
    as (t' & Hrun & Hrest).
  - done.
  - done.
  - lia.
  - by left.
  - repeat constructor; unfold is_enter, KEY_ENTER; lia.
  - unfold is_enter. lia.
  - exists t'. split; [exact Hrun | exact Hrest].
Defined.

End PasswordTheorems.

Section Confirm.

Lemma after_self t : after t (typed t) (lines t) [] = t.
Proof. destruct t. unfold after. simpl. by rewrite app_nil_r. Qed.

Lemma safe_addstr_after text wrap start_newline t ks ls cs :
  (wrap = true -> 0 < columns t) ->
  on_stdscr (safe_addstr text wrap start_newline) (after t ks ls cs) =
    Returned tt
      (after t ks ls
         (cs ++ (window <$> safe_addstr_events (columns t) text wrap
                              start_newline))).
Proof.
  intros HW.
  rewrite (on_stdscr_safe_addstr text wrap start_newline (after t ks ls cs))
    by done.
  by rewrite called_after, after_after.
Qed.

Lemma prompt_after prompt_text t ks s rest cs :
  prompt prompt_text (after t ks (Some s :: rest) cs) =
    Returned (strip s)
      (after t ks rest
         (cs ++ [echo]
          ++ (window <$> safe_addstr_events (columns t) prompt_text
                           false false)
          ++ [getstr (Some s); noecho])).
Proof.
  rewrite (prompt_line prompt_text (after t ks (Some s :: rest) cs) s rest)
    by done.
  by rewrite after_after.
Qed.

Variable lower : pystr -> pystr.

(** One question and its answer. *)
Lemma confirm_once_after message operation_name t ks x ls cs :
  0 < columns t ->
  confirm_once lower message operation_name tt
    (after t ks (Some x :: ls) cs) =
    let asked := cs ++ question (columns t) message x in
    let confirmation := lower (strip x) in
    if bool_decide (confirmation ∈ [lit "yes"; lit "y"]) then
      Returned (Break true) (after t ks ls asked)
    else if bool_decide (confirmation ∈ [lit "no"; lit "n"]) then
      match ks with
      | [] => Never
      | k :: ks' =>
          Returned (Break false)
            (after t ks' ls
               (asked ++ cancelled (columns t) operation_name k))
      end
    else
      Returned (Next tt)
        (after t ks ls (asked ++ invalid_input (columns t))).
Proof.
  intros HW. cbv zeta. unfold confirm_once.
  rewrite (bind_returned _ _ _ _ _
             (safe_addstr_after message true false t ks (Some x :: ls) cs
                (fun _ => HW))).
  rewrite (bind_returned _ _ _ _ _
             (prompt_after (lit "' (yes/y or no/n): ") t ks x ls _)).
  rewrite strip_idemp.
  replace ((cs ++ (window <$> safe_addstr_events (columns t) message
                                true false))
           ++ [echo]
           ++ (window <$> safe_addstr_events (columns t)
                            (lit "' (yes/y or no/n): ") false false)
           ++ [getstr (Some x); noecho])
    with (cs ++ question (columns t) message x)
    by (unfold question; by rewrite <- !app_assoc).
  destruct (bool_decide (lower (strip x) ∈ [lit "yes"; lit "y"])); [done |].
  destruct (bool_decide (lower (strip x) ∈ [lit "no"; lit "n"])).
  - rewrite (bind_returned (record _) _ _ tt _ eq_refl).
    rewrite called_after, after_after. cbn [typed lines after].
    rewrite (bind_returned _ _ _ _ _
               (safe_addstr_after _ true true t ks ls _ (fun _ => HW))).
    unfold mbind, tio_bind, getch_key. cbn [typed after].
    destruct ks as [| k ks']; [done |].
    unfold after, cancelled. cbn. do 2 f_equal.
    by rewrite <- !app_assoc.
  - by rewrite (bind_returned _ _ _ _ _
                  (safe_addstr_after _ true true t ks ls _ (fun _ => HW))).
Qed.

(** The loop of [is_operation_confirmed] over the answers that are
    neither yes nor no. *)
Lemma confirm_loop message operation_name t ks pre :
  forall fuel ls cs,
  0 < columns t ->
  Forall (fun line =>
            lower (strip line) ∉ [lit "yes"; lit "y"; lit "no"; lit "n"])
    pre ->
  while_true (length pre + fuel)
    (confirm_once lower message operation_name) tt
    (after t ks ((Some <$> pre) ++ ls) cs) =
  while_true fuel (confirm_once lower message operation_name) tt
    (after t ks ls
       (cs ++ flat_map (fun line => question (columns t) message line
                                    ++ invalid_input (columns t)) pre)).
Proof.
  induction pre as [| x pre IH]; intros fuel ls cs HW Hpre.
  - simpl. by rewrite app_nil_r.
  - inversion Hpre as [| ? ? Hx Hpre']. subst.
    cbn [length Nat.add while_true]. rewrite fmap_cons. cbn [app].
    unfold mbind at 1, tio_bind at 1.
    rewrite (confirm_once_after message operation_name t ks x _ cs HW).
    cbv zeta.
    rewrite !not_elem_of_cons in Hx.
    rewrite (bool_decide_eq_false_2 (_ ∈ [lit "yes"; lit "y"]))
      by (rewrite !elem_of_cons, elem_of_nil; tauto).
    rewrite (bool_decide_eq_false_2 (_ ∈ [lit "no"; lit "n"]))
      by (rewrite !elem_of_cons, elem_of_nil; tauto).
    rewrite IH by done. cbn [flat_map]. by rewrite <- !app_assoc.
Qed.

End Confirm.

Section ConfirmTheorems.

Variable lower : pystr -> pystr.

(** X18: on a window with a column, [is_operation_confirmed] asks again
    as long as the answer, stripped and in lower case, is none of yes, y,
    no, n, telling each time that the input is invalid, and ends on the
    first answer that is one of them, leaving the later lines unread: for
    yes or y it returns [True] without reading a key; for no or n it logs
    the cancellation, tells it, waits for one key and returns [False]. *)
Theorem is_operation_confirmed_first_answer (message operation_name : pystr)
    (t : terminal) (pre : list pystr) (x : pystr)
    (rest : list (option pystr)) :
  0 < columns t ->
  lines t = (Some <$> pre) ++ Some x :: rest ->
  Forall (fun line =>
            lower (strip line) ∉ [lit "yes"; lit "y"; lit "no"; lit "n"])
    pre ->
  let asked :=
    flat_map (fun line => question (columns t) message line
                          ++ invalid_input (columns t)) pre
    ++ question (columns t) message x in
  (lower (strip x) ∈ [lit "yes"; lit "y"] ->
   is_operation_confirmed lower message operation_name t =
     Returned true (after t (typed t) rest asked)) /\
  (lower (strip x) ∈ [lit "no"; lit "n"] ->
   match typed t with
   | [] => is_operation_confirmed lower message operation_name t = Never
   | k :: ks =>
       is_operation_confirmed lower message operation_name t =
         Returned false
           (after t ks rest
              (asked ++ cancelled (columns t) operation_name k))
   end).
Proof.
  intros HW El Hpre. cbv zeta.
  assert (Hloop : exists n,
    is_operation_confirmed lower message operation_name t =
    while_true (S n)
      (confirm_once lower message operation_name) tt
      (after t (typed t) (Some x :: rest)
         (flat_map (fun line => question (columns t) message line
                                ++ invalid_input (columns t)) pre))).
  { exists (S (length (typed t) + length rest)).
    unfold is_operation_confirmed, mbind at 1, tio_bind at 1, pending.
    rewrite <- (after_self t) at 3. rewrite El.
    rewrite length_app, length_fmap. cbn [length].
    replace (S (length (typed t) + (length pre + S (length rest))))
      with (length pre + S (S (length (typed t) + length rest)))%nat
      by lia.
    by rewrite (confirm_loop lower message operation_name t (typed t) pre
                  _ _ [] HW Hpre). }
  destruct Hloop as [n Hloop]. rewrite Hloop.
  cbn [while_true]. unfold mbind, tio_bind.
  rewrite (confirm_once_after lower message operation_name t (typed t)
             x rest _ HW).
  cbv zeta. split; intros Hx.
  - by rewrite (bool_decide_eq_true_2 _ Hx).
  - rewrite (bool_decide_eq_true_2 _ Hx).
    destruct (bool_decide (lower (strip x) ∈ [lit "yes"; lit "y"])) eqn:Ey.
    + exfalso. apply bool_decide_eq_true_1 in Ey.
      rewrite !elem_of_cons, elem_of_nil in Hx, Ey.
      destruct Hx as [Hx | [Hx | []]], Ey as [Ey | [Ey | []]];
        rewrite Hx in Ey; vm_compute in Ey; discriminate.
    + destruct (typed t) as [| k ks]; [done |]. by rewrite <- app_assoc.
Qed.

End ConfirmTheorems.

Lemma is_operation_confirmed_first_answer_witness :
  let lower := List.map ascii_lower in
  let t :=
    Terminal 24 80 [120] [Some (lit "maybe"); Some (lit " No "); None]
      (fun _ => []) (fun _ => (0, 0)) (fun _ => false) [] in
  exists t',
    is_operation_confirmed lower (lit "Sure?") (lit "Removal") t
      = Returned false t' /\
    typed t' = [] /\ lines t' = [None].
Proof.
  cbv zeta.
  destruct (is_operation_confirmed_first_answer (List.map ascii_lower)
              (lit "Sure?") (lit "Removal")
              (Terminal 24 80 [120]
                 [Some (lit "maybe"); Some (lit " No "); None]
                 (fun _ => []) (fun _ => (0, 0)) (fun _ => false) [])
              [lit "maybe"] (lit " No ") [None])
    as [_ Hno].
  - done.
  - done.
  - constructor; [| constructor]. rewrite !not_elem_of_cons.
    split_and!; [by vm_compute.. | apply not_elem_of_nil].
  - assert (Hx : List.map ascii_lower (strip (lit " No "))
                 ∈ [lit "no"; lit "n"])
      by (rewrite !elem_of_cons; left; by vm_compute).
    specialize (Hno Hx). cbn [typed] in Hno.
    eexists. split; [exact Hno |]. split; reflexivity.
Defined.

Section AskUrl.

Variable netloc_ok : pystr -> bool.

Lemma bind_raising_some {A B} e (a : A) (f : A -> tio B) t :
  (raising e (Some a) ≫= f) t = f a t.
Proof. done. Qed.

Lemma bind_raising_none {A B} e (f : A -> tio B) t :
  (raising e None ≫= f) t = Raised e t.
Proof. done. Qed.

Lemma normalize_url_of_valid u d msg :
  validate_url netloc_ok u = Some (true, msg) ->
  normalize_url netloc_ok u d = Some (rstrip_slash u).
Proof.
  intros Hvalid. unfold normalize_url. destruct u as [| c u']; [done |].
  by rewrite Hvalid.
Qed.

(** What a valid URL is stored as. *)
Lemma stored_url_valid u msg :
  validate_url netloc_ok u = Some (true, msg) ->
  validate_url netloc_ok (rstrip_slash u) = Some (true, []) /\
  rstrip_slash u <> [] /\ last (rstrip_slash u) <> Some slash.
Proof.
  intros Hvalid.
  pose proof (validate_url_rstrip netloc_ok u msg Hvalid) as Hr.
  split_and!; [done | | by destruct (rstrip_slash_spec u) as (k & _ & H)].
  intros E. by rewrite E in Hr.
Qed.

(** One question of [login] for the URL, and its answer. *)
Lemma login_url_once_after t ks x ls cs :
  0 < columns t ->
  login_url_once netloc_ok tt (after t ks (Some x :: ls) cs) =
    let asked :=
      cs ++ prompted (columns t)
              (lit "Enter qBittorrent Web URL (e.g., http://localhost:8080): ")
              x in
    match validate_url netloc_ok (or_default (strip x)) with
    | Some (true, _) =>
        Returned (Break (rstrip_slash (or_default (strip x))))
          (after t ks ls asked)
    | Some (false, error_message) =>
        Returned (Next tt)
          (after t ks ls (asked ++ invalid_url (columns t) error_message))
    | None => Raised ValueError (after t ks ls asked)
    end.
Proof.
  intros HW. cbv zeta. unfold login_url_once.
  rewrite (bind_returned _ _ _ _ _ (prompt_after _ t ks x ls cs)).
  fold (or_default (strip x)).
  destruct (validate_url netloc_ok (or_default (strip x)))
    as [[[] msg] |] eqn:Ev.
  - rewrite bind_raising_some. cbv beta iota.
    rewrite (normalize_url_of_valid _ _ msg Ev).
    by rewrite bind_raising_some.
  - rewrite bind_raising_some. cbv beta iota.
    by rewrite (bind_returned _ _ _ _ _
                  (safe_addstr_after _ true true t ks ls _ (fun _ => HW))).
  - by rewrite bind_raising_none.
Qed.

Lemma login_url_loop t ks pre :
  forall fuel ls cs,
  0 < columns t ->
  Forall (fun line =>
            fst <$> validate_url netloc_ok (or_default (strip line))
            = Some false) pre ->
  exists cs',
    while_true (length pre + fuel) (login_url_once netloc_ok) tt
      (after t ks ((Some <$> pre) ++ ls) cs) =
    while_true fuel (login_url_once netloc_ok) tt (after t ks ls cs').
Proof.
  induction pre as [| x pre IH]; intros fuel ls cs HW Hpre.
  - by exists cs.
  - inversion Hpre as [| ? ? Hx Hpre']. subst.
    cbn [length Nat.add while_true]. rewrite fmap_cons. cbn [app].
    unfold mbind at 1, tio_bind at 1.
    rewrite (login_url_once_after t ks x _ cs HW). cbv zeta.
    destruct (validate_url netloc_ok (or_default (strip x)))
      as [[[] msg] |]; [done | | done].
    apply IH; done.
Qed.

(** One question of [add_tracker] for the tracker, and its answer. *)
Lemma tracker_to_add_once_after t ks x ls cs :
  0 < columns t ->
  tracker_to_add_once netloc_ok tt (after t ks (Some x :: ls) cs) =
    let asked :=
      cs ++ prompted (columns t)
              (lit "What tracker would you like to add?: ") x in
    match validate_url netloc_ok (strip x) with
    | Some (true, _) =>
        Returned (Break (rstrip_slash (strip x))) (after t ks ls asked)
    | Some (false, error_message) =>
        Returned (Next tt)
          (after t ks ls (asked ++ invalid_url (columns t) error_message))
    | None => Raised ValueError (after t ks ls asked)
    end.
Proof.
  intros HW. cbv zeta. unfold tracker_to_add_once.
  rewrite (bind_returned _ _ _ _ _ (prompt_after _ t ks x ls cs)).
  destruct (validate_url netloc_ok (strip x)) as [[[] msg] |] eqn:Ev.
  - rewrite bind_raising_some. cbv beta iota.
    rewrite (normalize_url_of_valid _ _ msg Ev).
    by rewrite bind_raising_some.
  - rewrite bind_raising_some. cbv beta iota.
    by rewrite (bind_returned _ _ _ _ _
                  (safe_addstr_after _ true true t ks ls _ (fun _ => HW))).
  - by rewrite bind_raising_none.
Qed.

Lemma tracker_to_add_loop t ks pre :
  forall fuel ls cs,
  0 < columns t ->
  Forall (fun line =>
            fst <$> validate_url netloc_ok (strip line) = Some false) pre ->
  exists cs',
    while_true (length pre + fuel) (tracker_to_add_once netloc_ok) tt
      (after t ks ((Some <$> pre) ++ ls) cs) =
    while_true fuel (tracker_to_add_once netloc_ok) tt (after t ks ls cs').
Proof.
  induction pre as [| x pre IH]; intros fuel ls cs HW Hpre.
  - by exists cs.
  - inversion Hpre as [| ? ? Hx Hpre']. subst.
    cbn [length Nat.add while_true]. rewrite fmap_cons. cbn [app].
    unfold mbind at 1, tio_bind at 1.
    rewrite (tracker_to_add_once_after t ks x _ cs HW). cbv zeta.
    destruct (validate_url netloc_ok (strip x)) as [[[] msg] |];
      [done | | done].
    apply IH; done.
Qed.

End AskUrl.

Section AskUrlTheorems.

Variable netloc_ok : pystr -> bool.

(** X19: on a window with a column, [login] asks the URL again as long
    as [validate_url] refuses the answer (the answer stripped, or
    [http://localhost:8080] for an empty one), and stops at the first
    answer it accepts, without reading a key or a further line. The URL
    it stores is that answer without its trailing slashes: the default
    scheme is never added. The stored URL is valid, not empty, and does
    not end with a slash. *)
Theorem login_url_first_valid (t : terminal) (pre : list pystr) (x : pystr)
    (rest : list (option pystr)) :
  0 < columns t ->
  lines t = (Some <$> pre) ++ Some x :: rest ->
  Forall (fun line =>
            fst <$> validate_url netloc_ok (or_default (strip line))
            = Some false) pre ->
  fst <$> validate_url netloc_ok (or_default (strip x)) = Some true ->
  exists url cs,
    login_url netloc_ok t = Returned url (after t (typed t) rest cs) /\
    url = rstrip_slash (or_default (strip x)) /\
    validate_url netloc_ok url = Some (true, []) /\
    url <> [] /\ last url <> Some slash.
Proof.
  intros HW El Hpre Hx.
  destruct (validate_url netloc_ok (or_default (strip x)))
    as [[[] msg] |] eqn:Ev; try done.
  destruct (login_url_loop netloc_ok t (typed t) pre
              (S (S (length (typed t) + length rest))) (Some x :: rest) []
              HW Hpre) as [cs Hloop].
  exists (rstrip_slash (or_default (strip x))).
  exists
    (cs ++ prompted (columns t)
       (lit "Enter qBittorrent Web URL (e.g., http://localhost:8080): ") x).
  split; [| split; [done | by apply (stored_url_valid netloc_ok _ msg)]].
  unfold login_url, mbind at 1, tio_bind at 1, pending.
  rewrite <- (after_self t) at 3. rewrite El.
  rewrite length_app, length_fmap. cbn [length].
  replace (S (length (typed t) + (length pre + S (length rest))))
    with (length pre + S (S (length (typed t) + length rest)))%nat
    by lia.
  rewrite Hloop. cbn [while_true]. unfold mbind at 1, tio_bind at 1.
  rewrite (login_url_once_after netloc_ok t (typed t) x rest cs HW).
  cbv zeta. by rewrite Ev.
Qed.

(** X20: on a window with a column, [add_tracker] asks the tracker to
    add again as long as [validate_url] refuses the stripped answer, and
    stops at the first answer it accepts, without reading a key or a
    further line. The tracker it adds is that answer without its trailing
    slashes: the default scheme [https] is never added, and an empty
    answer is refused. The tracker is a valid URL, not empty, and does
    not end with a slash. *)
Theorem tracker_to_add_first_valid (t : terminal) (pre : list pystr)
    (x : pystr) (rest : list (option pystr)) :
  0 < columns t ->
  lines t = (Some <$> pre) ++ Some x :: rest ->
  Forall (fun line =>
            fst <$> validate_url netloc_ok (strip line) = Some false) pre ->
  fst <$> validate_url netloc_ok (strip x) = Some true ->
  exists url cs,
    tracker_to_add netloc_ok t = Returned url (after t (typed t) rest cs) /\
    url = rstrip_slash (strip x) /\
    validate_url netloc_ok url = Some (true, []) /\
    url <> [] /\ last url <> Some slash /\ strip x <> [].
Proof.
  intros HW El Hpre Hx.
  destruct (validate_url netloc_ok (strip x)) as [[[] msg] |] eqn:Ev;
    try done.
  destruct (tracker_to_add_loop netloc_ok t (typed t) pre
              (S (S (length (typed t) + length rest))) (Some x :: rest) []
              HW Hpre) as [cs Hloop].
  exists (rstrip_slash (strip x)).
  exists (cs ++ prompted (columns t)
                  (lit "What tracker would you like to add?: ") x).
  destruct (stored_url_valid netloc_ok _ msg Ev) as (Hv & Hne & Hlast).
  split_and!; try done.
  - unfold tracker_to_add, mbind at 1, tio_bind at 1, pending.
    rewrite <- (after_self t) at 3. rewrite El.
    rewrite length_app, length_fmap. cbn [length].
    replace (S (length (typed t) + (length pre + S (length rest))))
      with (length pre + S (S (length (typed t) + length rest)))%nat
      by lia.
    rewrite Hloop. cbn [while_true]. unfold mbind at 1, tio_bind at 1.
    rewrite (tracker_to_add_once_after netloc_ok t (typed t) x rest cs HW).
    cbv zeta. by rewrite Ev.
  - intros E. by rewrite E in Ev.
Qed.

End AskUrlTheorems.

Lemma login_url_first_valid_witness :
  let netloc_ok := fun _ : pystr => true in
  let t :=
    Terminal 24 80 [] [Some (lit "localhost:8080"); Some (lit "  ")]
      (fun _ => []) (fun _ => (0, 0)) (fun _ => false) [] in
  exists t',
    login_url netloc_ok t = Returned (lit "http://localhost:8080") t' /\
    lines t' = [].
Proof.
  cbv zeta.
  destruct (login_url_first_valid (fun _ => true)
              (Terminal 24 80 []
                 [Some (lit "localhost:8080"); Some (lit "  ")]
                 (fun _ => []) (fun _ => (0, 0)) (fun _ => false) [])
              [lit "localhost:8080"] (lit "  ") [])
    as (url & cs & Hrun & Hurl & _).
  - done.
  - done.
  - constructor; [| constructor]. by vm_compute.
  - by vm_compute.
  - rewrite Hrun, Hurl.
    replace (rstrip_slash (or_default (strip (lit "  "))))
      with (lit "http://localhost:8080") by (by vm_compute).
    eexists. split; reflexivity.
Defined.

Lemma tracker_to_add_first_valid_witness :
  let netloc_ok := fun _ : pystr => true in
  let t :=
    Terminal 24 80 [] [Some []; Some (lit " udp://t.example:6969// ")]
      (fun _ => []) (fun _ => (0, 0)) (fun _ => false) [] in
  exists t',
    tracker_to_add netloc_ok t = Returned (lit "udp://t.example:6969") t' /\
    lines t' = [].
Proof.
  cbv zeta.
  destruct (tracker_to_add_first_valid (fun _ => true)
              (Terminal 24 80 []
                 [Some []; Some (lit " udp://t.example:6969// ")]
                 (fun _ => []) (fun _ => (0, 0)) (fun _ => false) [])
              [[]] (lit " udp://t.example:6969// ") [])
    as (url & cs & Hrun & Hurl & _).
  - done.
  - done.
  - constructor; [| constructor]. by vm_compute.
  - by vm_compute.
  - rewrite Hrun, Hurl.
    replace (rstrip_slash (strip (lit " udp://t.example:6969// ")))
      with (lit "udp://t.example:6969") by (by vm_compute).
    eexists. split; reflexivity.
Defined.
